(** * Audio output pipeline of [services/AudioOutputService.js]

    A shallow embedding of the WAV container encoder, the chunk aggregator,
    the playback queue and the temp-file sweep, with the properties the
    specification states about them.

    Conventions of the embedding
    - a [Buffer] / [Uint8Array] is a [list byte];
    - the JavaScript numbers met here are integers ([Z]) or quotients of
      integers by 8 ([Q]); they are exact in a double below 2^53;
    - strings are strings of one-byte characters, which the names, tags and
      mimeTypes met here are; [`${n}`] is modelled for the integers below
      10^21 that JavaScript prints in plain decimal;
    - a [throw] is the [Throw] completion of the [Completion] monad;
    - [console.warn] and [console.error] append to the [console] of the
      state; [console.log] is not recorded;
    - module-level [let] variables are the fields of the [State] record;
    - what the platform does on its own (timers firing, decodes resolving,
      renders ending) is an [Event] of the step function. *)

From Stdlib Require Import String Ascii.
From Stdlib.Strings Require Import Byte.
From Stdlib Require Import ZArith QArith Arith Bool Lia List.
From Stdlib Require Import Permutation Sorted.
Import ListNotations.

Local Open Scope string_scope.
Local Open Scope list_scope.
Local Open Scope Z_scope.

(* ================================================================== *)
(** ** Exceptions *)

Inductive JsError : Type :=
| RangeError
| TypeError
| PlatformError.

Inductive Completion (A : Type) : Type :=
| Normal (a : A)
| Throw (e : JsError).

Arguments Normal {A} a.
Arguments Throw {A} e.

Definition bind {A B : Type} (m : Completion A) (k : A -> Completion B)
  : Completion B :=
  match m with
  | Normal a => k a
  | Throw e => Throw e
  end.

Notation "x <- m ;; k" := (bind m (fun x => k))
  (at level 61, m at next level, right associativity).

(* ================================================================== *)
(** ** Bytes and buffers *)

Definition Buffer : Type := list byte.

(** Storing a number in a [Uint8Array] slot keeps its low eight bits. *)
Definition to_uint8 (z : Z) : byte :=
  match Byte.of_N (Z.to_N (z mod 256)) with
  | Some b => b
  | None => x00
  end.

Definition byte_val (b : byte) : Z := Z.of_N (Byte.to_N b).

(** [ToInt32]-style truncation of a JavaScript number toward zero. *)
Definition trunc (q : Q) : Z := Z.quot (Qnum q) (Zpos (Qden q)).

(** [x >>> n] on an unsigned 32-bit view of [x]. *)
Definition ushr (x : Z) (n : Z) : Z := Z.shiftr (x mod 2 ^ 32) n.

(** [Buffer.alloc(n)]: [n] zero bytes. *)
Definition alloc (n : nat) : Buffer := repeat x00 n.

(** Overwrite [dst] from index [off] with [src] (the caller checks that it
    fits): the effect of [Buffer#copy] and [TypedArray#set]. *)
Definition blit (src dst : Buffer) (off : nat) : Buffer :=
  firstn off dst ++ src ++ skipn (off + length src) dst.

(** [buffer.write(str, off)]: the bytes of an ASCII string, cut at the end
    of the buffer. *)
Definition write (s : string) (off : nat) (buf : Buffer) : Buffer :=
  blit (firstn (length buf - off) (list_byte_of_string s)) buf off.

(** [checkInt] of the buffer library: the value must lie in [min, max] and
    the field must lie inside the buffer. *)
Definition checkInt (buf : Buffer) (value : Q) (off ext : nat) (max min : Z)
  : Completion unit :=
  if negb (Qle_bool value (inject_Z max)) || negb (Qle_bool (inject_Z min) value)
  then Throw RangeError
  else if (length buf <? off + ext)%nat then Throw RangeError
  else Normal tt.

Definition writeUInt16LE (value : Q) (off : nat) (buf : Buffer)
  : Completion Buffer :=
  _ <- checkInt buf value off 2 65535 0 ;;
  let v := trunc value in
  Normal (blit [to_uint8 (Z.land v 255); to_uint8 (ushr v 8)] buf off).

Definition writeUInt32LE (value : Q) (off : nat) (buf : Buffer)
  : Completion Buffer :=
  _ <- checkInt buf value off 4 4294967295 0 ;;
  let v := trunc value in
  Normal (blit [to_uint8 (Z.land v 255); to_uint8 (ushr v 8);
                to_uint8 (ushr v 16); to_uint8 (ushr v 24)] buf off).

(** Readers used to state the layout: a conformant container reader. *)
Definition byte_at (buf : Buffer) (i : nat) : Z := byte_val (nth i buf x00).

Definition readUInt16LE (buf : Buffer) (off : nat) : Z :=
  byte_at buf off + 256 * byte_at buf (off + 1).

Definition readUInt32LE (buf : Buffer) (off : nat) : Z :=
  byte_at buf off + 256 * byte_at buf (off + 1)
  + 65536 * byte_at buf (off + 2) + 16777216 * byte_at buf (off + 3).

Definition readAscii (buf : Buffer) (off len : nat) : string :=
  string_of_list_byte (firstn len (skipn off buf)).

(** The bytes of a 16-bit and of a 32-bit field, least significant first. *)
Definition le16 (v : Z) : Buffer := [to_uint8 v; to_uint8 (v / 2 ^ 8)].

Definition le32 (v : Z) : Buffer :=
  [to_uint8 v; to_uint8 (v / 2 ^ 8); to_uint8 (v / 2 ^ 16);
   to_uint8 (v / 2 ^ 24)].

(* ================================================================== *)
(** ** ContainerEncoder *)

Definition OUTPUT_SAMPLE_RATE : Z := 24000.
Definition OUTPUT_CHANNELS : Z := 1.
Definition OUTPUT_BITS_PER_SAMPLE : Z := 16.

(** [_createWavHeader(sampleRate, bitsPerSample, numChannels, dataLength)] *)
Definition _createWavHeader (sampleRate bitsPerSample numChannels dataLength : Z)
  : Completion Buffer :=
  let byteRate : Q := Qmake (sampleRate * numChannels * bitsPerSample) 8 in
  let blockAlign : Q := Qmake (numChannels * bitsPerSample) 8 in
  let buffer := alloc 44 in
  let buffer := write "RIFF" 0 buffer in
  buffer <- writeUInt32LE (inject_Z (36 + dataLength)) 4 buffer ;;
  let buffer := write "WAVE" 8 buffer in
  let buffer := write "fmt " 12 buffer in
  buffer <- writeUInt32LE (inject_Z 16) 16 buffer ;;
  buffer <- writeUInt16LE (inject_Z 1) 20 buffer ;;
  buffer <- writeUInt16LE (inject_Z numChannels) 22 buffer ;;
  buffer <- writeUInt32LE (inject_Z sampleRate) 24 buffer ;;
  buffer <- writeUInt32LE byteRate 28 buffer ;;
  buffer <- writeUInt16LE blockAlign 32 buffer ;;
  buffer <- writeUInt16LE (inject_Z bitsPerSample) 34 buffer ;;
  let buffer := write "data" 36 buffer in
  buffer <- writeUInt32LE (inject_Z dataLength) 40 buffer ;;
  Normal buffer.

(** [_combineWavData(header, pcmData)]: a fresh buffer of the combined
    length, the header copied at 0 and the payload right after it. *)
Definition _combineWavData (header pcmData : Buffer) : Completion Buffer :=
  let combinedLength := (length header + length pcmData)%nat in
  let combinedBuffer := alloc combinedLength in
  let combinedBuffer := blit header combinedBuffer 0 in
  let combinedBuffer := blit pcmData combinedBuffer (length header) in
  Normal combinedBuffer.

(** [_createWavFromPcm(pcmData, sampleRate, numChannels, bitsPerSample)];
    its [catch] rethrows. *)
Definition _createWavFromPcm (pcmBytes : Buffer)
    (sampleRate numChannels bitsPerSample : Z) : Completion Buffer :=
  header <- _createWavHeader sampleRate bitsPerSample numChannels
              (Z.of_nat (length pcmBytes)) ;;
  wavData <- _combineWavData header pcmBytes ;;
  Normal wavData.

(** The header fields of payload length [L], rate [r], [c] channels and
    [b] bits per sample all fit their field width. *)
Definition fits_header (L r c b : Z) : Prop :=
  0 <= L <= 4294967295 - 36 /\ 0 <= r <= 4294967295 /\
  0 <= c <= 65535 /\ 0 <= b <= 65535 /\
  r * c * b <= 8 * 4294967295 /\ c * b <= 8 * 65535.


(* ================================================================== *)
(** ** JavaScript values that reach the pipeline *)

#[warnings="-register-all"] Inductive jsval : Type :=
| JUndefined
| JNull
| JBool (b : bool)
| JNum (n : Z)
| JStr (s : string)
| JArrayBuffer (bytes : Buffer)
| JUint8Array (bytes : Buffer)     (* a [Buffer] is a [Uint8Array] *)
| JObject (fields : list (string * jsval)).

Fixpoint lookup (k : string) (fs : list (string * jsval)) : jsval :=
  match fs with
  | [] => JUndefined
  | (k', v) :: fs' => if String.eqb k k' then v else lookup k fs'
  end.

(** [v.k] for a value that is neither [null] nor [undefined]. *)
Definition get (v : jsval) (k : string) : jsval :=
  match v with
  | JObject fs => lookup k fs
  | _ => JUndefined
  end.

Definition truthy (v : jsval) : bool :=
  match v with
  | JUndefined | JNull => false
  | JBool b => b
  | JNum n => negb (n =? 0)
  | JStr s => negb (String.eqb s "")
  | JArrayBuffer _ | JUint8Array _ | JObject _ => true
  end.

(** [typeof v === "object"] *)
Definition typeof_object (v : jsval) : bool :=
  match v with
  | JNull | JArrayBuffer _ | JUint8Array _ | JObject _ => true
  | _ => false
  end.

(** [v === "audio"] *)
Definition is_audio (v : jsval) : bool :=
  match v with
  | JStr s => String.eqb s "audio"
  | _ => false
  end.

(** The test both [_combineAudioChunks] and [_processQueue] make:
    [x && typeof x === "object" && x.type === "audio" && x.data]. *)
Definition tagged_audio (x : jsval) : bool :=
  truthy x && typeof_object x && is_audio (get x "type")
  && truthy (get x "data").

(* ------------------------------------------------------------------ *)
(** *** Strings *)

(** [s.includes(needle)] *)
Fixpoint includes (needle s : string) : bool :=
  String.prefix needle s
  || match s with
     | EmptyString => false
     | String _ s' => includes needle s'
     end.

Definition is_digit (c : ascii) : bool :=
  ((48 <=? nat_of_ascii c) && (nat_of_ascii c <=? 57))%nat.

Fixpoint take_digits (s : string) : string :=
  match s with
  | EmptyString => EmptyString
  | String c s' => if is_digit c then String c (take_digits s') else EmptyString
  end.

Fixpoint drop (n : nat) (s : string) : string :=
  match n, s with
  | O, _ => s
  | S n', String _ s' => drop n' s'
  | S _, EmptyString => EmptyString
  end.

(** [s.match(/rate=(\d+)/)]: the first capture group of the leftmost match. *)
Fixpoint match_rate (s : string) : option string :=
  match s with
  | EmptyString => None
  | String _ s' =>
      if String.prefix "rate=" s then
        match take_digits (drop 5 s) with
        | EmptyString => match_rate s'
        | ds => Some ds
        end
      else match_rate s'
  end.

Definition digit_val (c : ascii) : Z := Z.of_nat (nat_of_ascii c) - 48.

Fixpoint parse_digits (acc : Z) (s : string) : Z :=
  match s with
  | EmptyString => acc
  | String c s' => parse_digits (10 * acc + digit_val c) s'
  end.

(** [parseInt(ds, 10)] on a match of [\d+]. *)
Definition parseInt (ds : string) : Z := parse_digits 0 ds.

Definition digit_char (d : Z) : ascii := ascii_of_nat (Z.to_nat (48 + d)).

(** The decimal digits of a non-negative integer; [fuel] bounds the number
    of digits. *)
Fixpoint digits (fuel : nat) (n : Z) (acc : string) : string :=
  match fuel with
  | O => acc
  | S fuel' =>
      let acc' := String (digit_char (n mod 10)) acc in
      if n / 10 =? 0 then acc' else digits fuel' (n / 10) acc'
  end.

(** [`${n}`] for an integer [0 <= n] below 10^21, where JavaScript prints
    plain decimal digits. *)
Definition Number_toString (n : Z) : string :=
  digits (S (Z.to_nat (Z.log2 n))) n EmptyString.

(** The mimeType test shared by the aggregator and the queue:
    [m && m.includes("rate=")], then [m.match(/rate=(\d+)/)] and, on a
    match, [parseInt(rateMatch[1], 10)]. A truthy value without an
    [includes] method throws; a typed array has one, which answers false. *)
Definition declared_rate (mimeType : jsval) : Completion (option Z) :=
  if truthy mimeType then
    match mimeType with
    | JStr m =>
        if includes "rate=" m then
          match match_rate m with
          | Some ds => Normal (Some (parseInt ds))
          | None => Normal None
          end
        else Normal None
    | JUint8Array _ => Normal None
    | _ => Throw TypeError
    end
  else Normal None.

(* ------------------------------------------------------------------ *)
(** *** Console *)

(** What [console.warn] and [console.error] print, by the first argument
    of the call. [console.log] lines are not recorded. *)
Inductive LogEntry : Type :=
| Warn (msg : string)
| Error (msg : string).

(* ================================================================== *)
(** ** The pipeline *)

Definition BUFFER_CHUNK_THRESHOLD : nat := 3.

(** The merge result [{ data, sampleRate }] of [_combineAudioChunks]. *)
Record Combined : Type := mkCombined {
  data : Buffer;
  sampleRate : Z
}.

(** One run of [_processBufferedChunks] over a non-empty window: the window
    it took and the item it pushed on [audioQueue], if any. *)
Record Flush : Type := mkFlush {
  window : list jsval;
  merged : option jsval
}.

(** The module variables, the platform objects they refer to, the console,
    and the history of flushes (a record of what happened, read by no
    operation). *)
Record State : Type := mkState {
  isPlaying : bool;
  audioQueue : list jsval;
  bufferAggregator : list jsval;
  bufferTimer : option positive;
  timers : list positive;       (* [setTimeout] handles still pending *)
  nextTimer : positive;         (* the handle the next [setTimeout] returns *)
  decoding : list Buffer;       (* [decodeAudioData] calls not yet settled,
                                   each with its suspended [_processQueue] *)
  rendering : list Buffer;      (* player nodes started and not yet ended *)
  console : list LogEntry;
  flushes : list Flush
}.

Definition initial : State :=
  mkState false [] [] None [] 1%positive [] [] [] [].

Definition set_isPlaying (b : bool) (s : State) : State :=
  mkState b (audioQueue s) (bufferAggregator s) (bufferTimer s) (timers s)
    (nextTimer s) (decoding s) (rendering s) (console s) (flushes s).

Definition set_audioQueue (q : list jsval) (s : State) : State :=
  mkState (isPlaying s) q (bufferAggregator s) (bufferTimer s) (timers s)
    (nextTimer s) (decoding s) (rendering s) (console s) (flushes s).

Definition set_bufferAggregator (a : list jsval) (s : State) : State :=
  mkState (isPlaying s) (audioQueue s) a (bufferTimer s) (timers s)
    (nextTimer s) (decoding s) (rendering s) (console s) (flushes s).

Definition set_decoding (d : list Buffer) (s : State) : State :=
  mkState (isPlaying s) (audioQueue s) (bufferAggregator s) (bufferTimer s)
    (timers s) (nextTimer s) d (rendering s) (console s) (flushes s).

Definition set_rendering (r : list Buffer) (s : State) : State :=
  mkState (isPlaying s) (audioQueue s) (bufferAggregator s) (bufferTimer s)
    (timers s) (nextTimer s) (decoding s) r (console s) (flushes s).

Definition log (entries : list LogEntry) (s : State) : State :=
  mkState (isPlaying s) (audioQueue s) (bufferAggregator s) (bufferTimer s)
    (timers s) (nextTimer s) (decoding s) (rendering s)
    (console s ++ entries) (flushes s).

Definition record_flush (f : Flush) (s : State) : State :=
  mkState (isPlaying s) (audioQueue s) (bufferAggregator s) (bufferTimer s)
    (timers s) (nextTimer s) (decoding s) (rendering s) (console s)
    (flushes s ++ [f]).

(** [bufferTimer = setTimeout(_processBufferedChunks, MAX_BUFFER_WAIT_MS)] *)
Definition arm_timer (s : State) : State :=
  mkState (isPlaying s) (audioQueue s) (bufferAggregator s)
    (Some (nextTimer s)) (timers s ++ [nextTimer s])
    (Pos.succ (nextTimer s)) (decoding s) (rendering s) (console s)
    (flushes s).

(** [if (bufferTimer) { clearTimeout(bufferTimer); bufferTimer = null; }] *)
Definition cancel_timer (s : State) : State :=
  match bufferTimer s with
  | Some t =>
      mkState (isPlaying s) (audioQueue s) (bufferAggregator s) None
        (filter (fun t' => negb (Pos.eqb t' t)) (timers s))
        (nextTimer s) (decoding s) (rendering s) (console s) (flushes s)
  | None => s
  end.

Definition remove_nth {A : Type} (i : nat) (l : list A) : list A :=
  firstn i l ++ skipn (S i) l.

(* ================================================================== *)
(** ** ResourceJanitor *)

(** The cache directory, by the names in it, and which of the platform's
    file operations fail. *)
Record FileSystem : Type := mkFS {
  entries : list string;
  readFails : bool;
  deleteFails : string -> bool
}.

(** [FileSystem.readDirectoryAsync(cacheDir)] *)
Definition readDirectoryAsync (fs : FileSystem) : Completion (list string) :=
  if readFails fs then Throw PlatformError else Normal (entries fs).

(** [FileSystem.deleteAsync(cacheDir + name)] *)
Definition deleteAsync (name : string) (fs : FileSystem)
  : Completion FileSystem :=
  if deleteFails fs name || negb (existsb (String.eqb name) (entries fs))
  then Throw PlatformError
  else Normal (mkFS (filter (fun n => negb (String.eqb n name)) (entries fs))
                 (readFails fs) (deleteFails fs)).

Definition startsWith (p s : string) : bool := String.prefix p s.

Fixpoint endsWith (suffix s : string) : bool :=
  String.eqb s suffix
  || match s with
     | EmptyString => false
     | String _ s' => endsWith suffix s'
     end.

(** [Array.prototype.sort()] on strings: ascending by code units. *)
Fixpoint insert (x : string) (l : list string) : list string :=
  match l with
  | [] => [x]
  | y :: l' => if String.leb x y then x :: l else y :: insert x l'
  end.

Fixpoint sort (l : list string) : list string :=
  match l with
  | [] => []
  | x :: l' => insert x (sort l')
  end.

Definition is_audio_temp (file : string) : bool :=
  startsWith "audio_" file && endsWith ".wav" file.

(** [for (let i = 5; ...) await FileSystem.deleteAsync(...)]: the file
    system as the loop leaves it, and how the loop ends. *)
Fixpoint delete_each (names : list string) (fs : FileSystem)
  : FileSystem * Completion unit :=
  match names with
  | [] => (fs, Normal tt)
  | name :: rest =>
      match deleteAsync name fs with
      | Normal fs' => delete_each rest fs'
      | Throw e => (fs, Throw e)
      end
  end.

(** The [try] block of [cleanupTempFiles]. *)
Definition sweep (fs : FileSystem) : FileSystem * Completion unit :=
  match readDirectoryAsync fs with
  | Throw e => (fs, Throw e)
  | Normal files =>
      let audioFiles := filter is_audio_temp files in
      if (5 <? length audioFiles)%nat then
        let audioFiles := rev (sort audioFiles) in
        delete_each (skipn 5 audioFiles) fs
      else (fs, Normal tt)
  end.

(** [cleanupTempFiles()]: the file system afterwards, how the returned
    promise settles, and what is printed. *)
Definition cleanupTempFiles (fs : FileSystem)
  : FileSystem * Completion unit * list LogEntry :=
  match sweep fs with
  | (fs', Normal _) => (fs', Normal tt, [])
  | (fs', Throw _) =>
      (fs', Normal tt,
       [Error "AudioOutputService: Error cleaning up temp files:"])
  end.

(* ================================================================== *)
(** ** A base64 decoder and sample inputs, to run the pipeline *)

Definition sextet (c : ascii) : option Z :=
  let n := Z.of_nat (nat_of_ascii c) in
  if (65 <=? n) && (n <=? 90) then Some (n - 65)
  else if (97 <=? n) && (n <=? 122) then Some (n - 71)
  else if (48 <=? n) && (n <=? 57) then Some (n + 4)
  else if (n =? 43) || (n =? 45) then Some 62
  else if (n =? 47) || (n =? 95) then Some 63
  else None.

(** The six-bit values of the characters before the first [=], the
    characters outside the alphabet left out. *)
Fixpoint sextets (s : string) : list Z :=
  match s with
  | EmptyString => []
  | String c s' =>
      if Ascii.eqb c "=" then []
      else match sextet c with
           | Some v => v :: sextets s'
           | None => sextets s'
           end
  end.

Fixpoint octets (l : list Z) : Buffer :=
  match l with
  | a :: b :: c :: d :: rest =>
      let n := a * 262144 + b * 4096 + c * 64 + d in
      to_uint8 (n / 65536) :: to_uint8 (n / 256) :: to_uint8 n :: octets rest
  | [a; b; c] =>
      let n := a * 1024 + b * 16 + c / 4 in
      [to_uint8 (n / 256); to_uint8 n]
  | [a; b] => [to_uint8 (a * 4 + b / 16)]
  | _ => []
  end.

(** A decoder for the standard and the URL-safe alphabet. *)
Definition base64_bytes (s : string) : Buffer := octets (sextets s).

Definition sample_pcm : Buffer := [x01; x02; x03; x04].

Definition raw_chunk : jsval := JUint8Array sample_pcm.

Definition tagged_chunk : jsval :=
  JObject [("type", JStr "audio");
           ("data", JArrayBuffer [x05; x06]);
           ("mimeType", JStr "audio/pcm;rate=16000")].

Definition text_chunk : jsval := JStr "QUJD".

(** A tagged audio object that declares a rate of 0. *)
Definition zero_rate_chunk : jsval :=
  JObject [("type", JStr "audio");
           ("data", JUint8Array sample_pcm);
           ("mimeType", JStr "audio/pcm;rate=0")].

(** An idle queue holding a number and a raw buffer. *)
Definition sample_queue : State :=
  set_audioQueue [JNum 7; raw_chunk] initial.

(** A directory with eight audio temp files and two other files. *)
Definition sample_fs : FileSystem :=
  mkFS ["audio_1700000000005_4.wav"; "notes.txt";
        "audio_1700000000001_0.wav"; "audio_1700000000002_1.wav";
        "audio_1700000000009_7.wav"; "audio_1700000000003_2.wav";
        "audio_1700000000004_3.wav"; "audio_1700000000006_5.wav";
        "audio_1700000000007_6.wav"; "audio_1.mp3"]
    false (fun _ => false).

(* ================================================================== *)
(** ** Pipeline operations *)

Section Pipeline.

(** [Buffer.from(str, "base64")] of the buffer library. *)
Variable base64_decode : string -> Buffer.

(* ------------------------------------------------------------------ *)
(** *** ChunkAggregator *)

(** What a chunk contributes to [pcmDataArray]: nothing unless, after
    unwrapping, it is an [ArrayBuffer] or a [Uint8Array]. *)
Definition as_uint8 (pcmData : jsval) : option Buffer :=
  match pcmData with
  | JArrayBuffer bytes | JUint8Array bytes => Some bytes
  | _ => None
  end.

(** The body of the first [for (const chunk of chunks)] loop. *)
Fixpoint collect (chunks : list jsval) (pcmDataArray : list Buffer)
    (totalLength : nat) (sampleRate : Z)
  : Completion (list Buffer * nat * Z) :=
  match chunks with
  | [] => Normal (pcmDataArray, totalLength, sampleRate)
  | chunk :: rest =>
      unwrapped <-
        (if tagged_audio chunk then
           rate <- declared_rate (get chunk "mimeType") ;;
           Normal (get chunk "data",
                   match rate with Some r => r | None => sampleRate end)
         else
           match chunk with
           | JStr s => Normal (JUint8Array (base64_decode s), sampleRate)
           | _ => Normal (chunk, sampleRate)
           end) ;;
      let '(pcmData, sampleRate) := unwrapped in
      match as_uint8 pcmData with
      | Some bytes =>
          collect rest (pcmDataArray ++ [bytes])
            (totalLength + length bytes) sampleRate
      | None => collect rest pcmDataArray totalLength sampleRate
      end
  end.

(** [combinedBuffer.set(data, offset)] *)
Definition Uint8Array_set (src : Buffer) (off : nat) (dst : Buffer)
  : Completion Buffer :=
  if (length dst <? off + length src)%nat then Throw RangeError
  else Normal (blit src dst off).

(** The second loop: every array copied at the running offset. *)
Fixpoint fill (pcmDataArray : list Buffer) (combinedBuffer : Buffer)
    (offset : nat) : Completion Buffer :=
  match pcmDataArray with
  | [] => Normal combinedBuffer
  | data :: rest =>
      combinedBuffer <- Uint8Array_set data offset combinedBuffer ;;
      fill rest combinedBuffer (offset + length data)
  end.

(** [_combineAudioChunks(chunks)], with what it prints. *)
Definition _combineAudioChunks (chunks : list jsval)
  : option Combined * list LogEntry :=
  match chunks with
  | [] => (None, [])
  | _ =>
      match
        (collected <- collect chunks [] 0 OUTPUT_SAMPLE_RATE ;;
         let '(pcmDataArray, totalLength, sampleRate) := collected in
         combinedBuffer <- fill pcmDataArray (alloc totalLength) 0 ;;
         Normal (mkCombined combinedBuffer sampleRate))
      with
      | Normal combined => (Some combined, [])
      | Throw _ =>
          (None, [Error "AudioOutputService: Error combining audio chunks:"])
      end
  end.

(* ------------------------------------------------------------------ *)
(** *** PlaybackQueue *)

(** [_processQueue] from [audioQueue.shift()] to the first [await]: the
    container built from the item, or what is printed when the item is
    given up. *)
Definition build (queueItem : jsval) : Buffer + list LogEntry :=
  match
    (if tagged_audio queueItem then
       rate <- declared_rate (get queueItem "mimeType") ;;
       Normal (get queueItem "data", rate)
     else Normal (queueItem, None))
  with
  | Throw _ =>
      inr [Error "AudioOutputService: Error processing audio:";
           Error "Stack trace:"]
  | Normal (audioData, sampleRate) =>
      if negb (truthy audioData) then
        inr [Error "AudioOutputService: Received null or empty audio data"]
      else
        let outputSampleRate :=
          match sampleRate with
          | Some r => if r =? 0 then OUTPUT_SAMPLE_RATE else r
          | None => OUTPUT_SAMPLE_RATE
          end in
        let created :=
          match audioData with
          | JStr s =>
              Some (_createWavFromPcm (base64_decode s) outputSampleRate
                      OUTPUT_CHANNELS OUTPUT_BITS_PER_SAMPLE)
          | JArrayBuffer bytes | JUint8Array bytes =>
              Some (_createWavFromPcm bytes outputSampleRate
                      OUTPUT_CHANNELS OUTPUT_BITS_PER_SAMPLE)
          | _ => None
          end in
        match created with
        | None =>
            inr (Error "AudioOutputService: Unsupported audio data format"
                 :: if typeof_object audioData
                    then [Error "Keys available:"] else [])
        | Some (Throw _) =>
            inr [Error "Error creating WAV from PCM:";
                 Error "AudioOutputService: Error creating WAV data:"]
        | Some (Normal wavData) =>
            if (length wavData <? 44)%nat then
              inr [Error "AudioOutputService: Invalid WAV data created"]
            else inl wavData
        end
  end.

(** The calls of [_processQueue] that follow one another without an
    [await], [queue] being [audioQueue]: the head is shifted with
    [isPlaying] set; when it yields a container its decode is started,
    otherwise [isPlaying] is reset and the next call takes the next item.
    On an empty queue the call returns at once. *)
Fixpoint drain (queue : list jsval) (s : State) : State :=
  match queue with
  | [] => s
  | queueItem :: rest =>
      let s := set_audioQueue rest (set_isPlaying true s) in
      match build queueItem with
      | inl wavData => set_decoding (decoding s ++ [wavData]) s
      | inr entries => drain rest (set_isPlaying false (log entries s))
      end
  end.

(** [_processQueue()] *)
Definition _processQueue (s : State) : State :=
  if isPlaying s then s else drain (audioQueue s) s.

(** The wrapper object [_processBufferedChunks] builds for a merge
    result. *)
Definition combinedChunk (combined : Combined) : jsval :=
  JObject [("type", JStr "audio");
           ("data", JUint8Array (data combined));
           ("mimeType",
            JStr ("audio/pcm;rate=" ++ Number_toString (sampleRate combined)));
           ("isAggregated", JBool true)].

(** [_processBufferedChunks()] *)
Definition _processBufferedChunks (s : State) : State :=
  let s := cancel_timer s in
  match bufferAggregator s with
  | [] => s
  | chunks =>
      let '(combined, entries) := _combineAudioChunks chunks in
      let s := set_bufferAggregator [] (log entries s) in
      match combined with
      | Some combined =>
          let item := combinedChunk combined in
          let s := record_flush (mkFlush chunks (Some item)) s in
          _processQueue (set_audioQueue (audioQueue s ++ [item]) s)
      | None => record_flush (mkFlush chunks None) s
      end
  end.

(** [playAudioChunk(audioData)], from the moment [configureAudio()] has
    resolved. *)
Definition playAudioChunk (audioData : jsval) (s : State) : State :=
  if negb (truthy audioData) then
    log [Warn "AudioOutputService: Received null or undefined audio data"] s
  else
    let s := set_bufferAggregator (bufferAggregator s ++ [audioData]) s in
    let s := if (length (bufferAggregator s) =? 1)%nat then arm_timer s
             else s in
    if (BUFFER_CHUNK_THRESHOLD <=? length (bufferAggregator s))%nat
    then _processBufferedChunks s
    else s.

(** [clearPlaybackQueue()] *)
Definition clearPlaybackQueue (s : State) : State :=
  let s := set_audioQueue [] s in
  let s := set_bufferAggregator [] s in
  let s := cancel_timer s in
  set_isPlaying false s.

(** The [onended] listener of a player node. *)
Definition onended (s : State) : State :=
  _processQueue (set_isPlaying false s).

(** The continuation of [_processQueue] after [decodeAudioData] resolves:
    a player node is created and started; when [start] throws,
    [_playSoundObject] answers false and the item is given up. *)
Definition decoded (wavData : Buffer) (started : bool) (s : State) : State :=
  if started then set_rendering (rendering s ++ [wavData]) s
  else
    let s := log [Error "AudioOutputService: Error playing sound:";
                  Error "AudioOutputService: Failed to play audio"] s in
    _processQueue (set_isPlaying false s).

(** The [catch] around decoding and player set-up. *)
Definition decode_failed (s : State) : State :=
  let s := log [Error "AudioOutputService: Error playing audio:"] s in
  _processQueue (set_isPlaying false s).

(* ------------------------------------------------------------------ *)
(** *** Events *)

Inductive Event : Type :=
| Submit (chunk : jsval)                  (* [playAudioChunk(chunk)], past
                                             [await configureAudio()] *)
| TimerFired (t : positive)               (* a pending timeout elapses *)
| DecodeResolved (i : nat) (started : bool)
| DecodeRejected (i : nat)
| RenderEnded (i : nat)
| Clear                                   (* [clearPlaybackQueue()] *)
| Cleanup.                                (* [cleanupAudioResources()]:
                                             [isPlaying = false] *)

(** One event; [None] when the platform cannot produce it in [s] (a timer
    that is not pending, a decode or render that does not exist). *)
Definition step (s : State) (e : Event) : option State :=
  match e with
  | Submit chunk => Some (playAudioChunk chunk s)
  | TimerFired t =>
      if existsb (Pos.eqb t) (timers s) then
        Some (_processBufferedChunks
                (mkState (isPlaying s) (audioQueue s) (bufferAggregator s)
                   (bufferTimer s)
                   (filter (fun t' => negb (Pos.eqb t' t)) (timers s))
                   (nextTimer s) (decoding s) (rendering s) (console s)
                   (flushes s)))
      else None
  | DecodeResolved i started =>
      match nth_error (decoding s) i with
      | Some wavData =>
          Some (decoded wavData started
                  (set_decoding (remove_nth i (decoding s)) s))
      | None => None
      end
  | DecodeRejected i =>
      match nth_error (decoding s) i with
      | Some _ =>
          Some (decode_failed (set_decoding (remove_nth i (decoding s)) s))
      | None => None
      end
  | RenderEnded i =>
      match nth_error (rendering s) i with
      | Some _ => Some (onended (set_rendering (remove_nth i (rendering s)) s))
      | None => None
      end
  | Clear => Some (clearPlaybackQueue s)
  | Cleanup => Some (set_isPlaying false s)
  end.

Fixpoint run (s : State) (events : list Event) : option State :=
  match events with
  | [] => Some s
  | e :: rest =>
      match step s e with
      | Some s' => run s' rest
      | None => None
      end
  end.

(* ------------------------------------------------------------------ *)
(** *** Vocabulary of the specification *)

(** The rate annotation a chunk carries: that of a tagged audio object
    whose mimeType holds [rate=<digits>]. *)
Definition annotation (chunk : jsval) : option Z :=
  if tagged_audio chunk then
    match declared_rate (get chunk "mimeType") with
    | Normal rate => rate
    | Throw _ => None
    end
  else None.

(** A chunk whose mimeType, if any, is a string. *)
Definition mime_ok (chunk : jsval) : bool :=
  match get chunk "mimeType" with
  | JStr _ | JUndefined | JNull => true
  | _ => false
  end.

(** The bytes of a well-formed chunk: of a non-empty base64 string, of a
    raw buffer, or of the binary [data] of a tagged audio object. *)
Definition payload (chunk : jsval) : option Buffer :=
  match chunk with
  | JStr s => if String.eqb s "" then None else Some (base64_decode s)
  | JArrayBuffer bytes | JUint8Array bytes => Some bytes
  | JObject _ =>
      if is_audio (get chunk "type") && mime_ok chunk
      then as_uint8 (get chunk "data") else None
  | _ => None
  end.

Definition well_formed (chunk : jsval) : Prop := payload chunk <> None.

Definition payload_bytes (chunk : jsval) : Buffer :=
  match payload chunk with
  | Some bytes => bytes
  | None => []
  end.

(** A chunk of unsupported shape: neither a string, nor a byte buffer, nor
    an object tagged ["audio"] that carries data. *)
Definition unsupported (chunk : jsval) : bool :=
  match chunk with
  | JStr _ | JArrayBuffer _ | JUint8Array _ => false
  | _ => negb (tagged_audio chunk)
  end.

(** What a chunk adds to [pcmDataArray]: the [data] of a tagged audio
    object, the decoded bytes of a string, the chunk itself otherwise, and
    nothing when that is not a byte buffer. *)
Definition contribution (chunk : jsval) : list Buffer :=
  match
    as_uint8 (if tagged_audio chunk then get chunk "data"
              else match chunk with
                   | JStr s => JUint8Array (base64_decode s)
                   | _ => chunk
                   end)
  with
  | Some bytes => [bytes]
  | None => []
  end.

(** The rate of a window: the annotation of the last chunk that has one. *)
Fixpoint window_rate (chunks : list jsval) (default : Z) : Z :=
  match chunks with
  | [] => default
  | chunk :: rest =>
      window_rate rest
        (match annotation chunk with Some r => r | None => default end)
  end.

(** The fields no call of [_processQueue] writes. *)
Definition same_window (s s' : State) : Prop :=
  bufferAggregator s' = bufferAggregator s /\
  bufferTimer s' = bufferTimer s /\
  timers s' = timers s /\
  nextTimer s' = nextTimer s /\
  rendering s' = rendering s /\
  flushes s' = flushes s.

(** The entry a flush of [chunks] adds to the history. *)
Definition flush_of (chunks : list jsval) : Flush :=
  mkFlush chunks (option_map combinedChunk (fst (_combineAudioChunks chunks))).

(** The chunks the events hand to the aggregator: those [playAudioChunk]
    does not turn away. *)
Fixpoint accepted (events : list Event) : list jsval :=
  match events with
  | [] => []
  | Submit chunk :: rest =>
      if truthy chunk then chunk :: accepted rest else accepted rest
  | _ :: rest => accepted rest
  end.

Definition is_clear (e : Event) : bool :=
  match e with
  | Clear => true
  | _ => false
  end.

(** The window and its deadline timer agree: the only pending timeout is
    the one [bufferTimer] holds, it is armed exactly while chunks wait, and
    fewer chunks wait than the threshold. *)
Definition window_inv (s : State) : Prop :=
  timers s = match bufferTimer s with Some t => [t] | None => [] end /\
  (bufferAggregator s = [] <-> bufferTimer s = None) /\
  (length (bufferAggregator s) < BUFFER_CHUNK_THRESHOLD)%nat.

(** The rate [_processQueue] encodes with when the item declares [r]:
    [sampleRate || OUTPUT_SAMPLE_RATE]. *)
Definition effective_rate (r : Z) : Z :=
  if r =? 0 then OUTPUT_SAMPLE_RATE else r.

Fixpoint all_digits (s : string) : bool :=
  match s with
  | EmptyString => true
  | String c s' => is_digit c && all_digits s'
  end.

(** A container encoded with the module's channel count and bit depth. *)
Definition format_ok (wav : Buffer) : Prop :=
  readUInt16LE wav 22 = OUTPUT_CHANNELS /\
  readUInt16LE wav 34 = OUTPUT_BITS_PER_SAMPLE.

(** The items in flight: containers being decoded or being rendered. *)
Definition in_flight (s : State) : list Buffer := decoding s ++ rendering s.

(** Playing with exactly one item in flight, or idle with nothing in
    flight and nothing queued. *)
Definition queue_inv (s : State) : Prop :=
  (isPlaying s = true /\ length (in_flight s) = 1%nat) \/
  (isPlaying s = false /\ in_flight s = [] /\ audioQueue s = []).

(** An item [_processQueue] gives up before any [await]. *)
Definition gives_up (item : jsval) : Prop :=
  exists entries, build item = inr entries.

(** The files a sweep ranks, newest name first, those it keeps and those
    it deletes. *)
Definition ranked (fs : FileSystem) : list string :=
  rev (sort (filter is_audio_temp (entries fs))).

Definition kept (fs : FileSystem) : list string := firstn 5 (ranked fs).

Definition deleted (fs : FileSystem) : list string := skipn 5 (ranked fs).

(** A name as [_saveWavToTempFile] writes it,
    [audio_<Date.now()>_<counter>.wav], with the thirteen digits
    [Date.now()] has had since 2001. *)
Definition stamped (name : string) : Prop :=
  exists ts rest,
    name = ("audio_" ++ ts ++ String "_" rest)%string /\
    String.length ts = 13%nat /\ all_digits ts = true.

(** The creation time in a stamped name. *)
Definition timestamp (name : string) : Z :=
  parseInt (take_digits (drop 6 name)).

(** Three chunks reach the threshold and the merged item starts to decode;
    the decode resolves and the render runs. *)
Definition one_render : list Event :=
  [Submit raw_chunk; Submit raw_chunk; Submit raw_chunk;
   DecodeResolved 0 true].

(** [clearPlaybackQueue()] while that render runs. *)
Definition clear_mid_render : list Event := one_render ++ [Clear].

(** After it, three more chunks, and their decode resolves too. *)
Definition render_after_clear : list Event :=
  clear_mid_render
  ++ [Submit raw_chunk; Submit raw_chunk; Submit raw_chunk;
      DecodeResolved 0 true].

(** [clearPlaybackQueue()] while the merged item is still being decoded,
    and the decode resolving afterwards. *)
Definition clear_mid_decode : list Event :=
  [Submit raw_chunk; Submit raw_chunk; Submit raw_chunk; Clear;
   DecodeResolved 0 true].

(* ------------------------------------------------------------------ *)
(** *** Further vocabulary *)

(** A mimeType on which [.includes] is not a function: a non-zero number,
    [true], an [ArrayBuffer] or a plain object. *)
Definition bad_mime (mimeType : jsval) : bool :=
  match mimeType with
  | JNum n => negb (n =? 0)
  | JBool b => b
  | JArrayBuffer _ | JObject _ => true
  | _ => false
  end.

(** The operations that reset [isPlaying] while an item may be in
    flight. *)
Definition resets_playing (e : Event) : bool :=
  match e with
  | Clear | Cleanup => true
  | _ => false
  end.

(** The items [_processBufferedChunks] has pushed on [audioQueue] so far,
    in order. *)
Definition pushed (s : State) : list jsval :=
  flat_map (fun f => match merged f with Some item => [item] | None => [] end)
    (flushes s).

(** A window as the aggregator can flush it: between one chunk and the
    threshold, none of them falsy. *)
Definition window_ok (f : Flush) : Prop :=
  (1 <= length (window f) <= BUFFER_CHUNK_THRESHOLD)%nat /\
  Forall (fun c => truthy c = true) (window f).

(** The shape of the object [_processBufferedChunks] pushes on the queue. *)
Definition is_wrapper (item : jsval) : Prop :=
  exists bytes mimeType,
    item = JObject [("type", JStr "audio");
                    ("data", JUint8Array bytes);
                    ("mimeType", JStr mimeType);
                    ("isAggregated", JBool true)].

(** A container whose header agrees with its own length and format. *)
Definition coherent (wav : Buffer) : Prop :=
  (44 <= length wav)%nat /\
  readUInt32LE wav 4 = Z.of_nat (length wav) - 8 /\
  readUInt32LE wav 40 = Z.of_nat (length wav) - 44 /\
  readUInt16LE wav 20 = 1 /\
  readUInt16LE wav 32 = 2 /\
  0 < readUInt32LE wav 24 /\
  readUInt32LE wav 28 = 2 * readUInt32LE wav 24.

(** What the queue did between two states: [new] was pushed at the back
    and [taken] shifted from the front. *)
Definition advances (s s' : State) : Prop :=
  exists new taken,
    pushed s' = pushed s ++ new /\
    audioQueue s ++ new = taken ++ audioQueue s'.

(** The window state the flush history is read against: the window and
    its timer agree and no waiting chunk is falsy. *)
Definition window_truthy (s : State) : Prop :=
  window_inv s /\ Forall (fun c => truthy c = true) (bufferAggregator s).

(** What [_processQueue] prints when the encoder throws. *)
Definition encoder_failure : list LogEntry :=
  [Error "Error creating WAV from PCM:";
   Error "AudioOutputService: Error creating WAV data:"].

(** *** Further sample inputs *)

(** A tagged audio object whose mimeType is a number. *)
Definition numeric_mime_chunk : jsval :=
  JObject [("type", JStr "audio");
           ("data", JUint8Array sample_pcm);
           ("mimeType", JNum 24000)].

(** A window in which a good chunk stands on either side of it. *)
Definition poisoned_window : State :=
  set_bufferAggregator [raw_chunk; numeric_mime_chunk; text_chunk] initial.

(** A window of a number and an untagged object. *)
Definition unsupported_window : State :=
  set_bufferAggregator [JNum 5; JObject []] initial.

(** Two windows of three chunks: the first is being decoded when the
    second is pushed. *)
Definition two_windows : list Event :=
  [Submit raw_chunk; Submit tagged_chunk; Submit text_chunk;
   Submit text_chunk; Submit raw_chunk; Submit raw_chunk].

(** A tagged audio chunk whose mimeType makes the rate test throw. *)
Definition poisoned (chunk : jsval) : bool :=
  tagged_audio chunk && bad_mime (get chunk "mimeType").

(* ------------------------------------------------------------------ *)
(** *** The temp-file writer *)

(** [audio_${Date.now()}_${tempFileCounter++}.wav] *)
Definition temp_name (now counter : Z) : string :=
  "audio_" ++ Number_toString now ++ "_" ++ Number_toString counter ++ ".wav".

(** [FileSystem.writeAsStringAsync(path, ...)]: the file is created, or
    replaced when it exists. *)
Definition writeAsStringAsync (fails : bool) (name : string) (fs : FileSystem)
  : Completion FileSystem :=
  if fails then Throw PlatformError
  else Normal (mkFS (if existsb (String.eqb name) (entries fs)
                     then entries fs else entries fs ++ [name])
                 (readFails fs) (deleteFails fs)).

(** [_saveWavToTempFile(wavData)] at clock value [now]: the counter and
    the file system afterwards, how the promise settles (with the path
    written), and what is printed. *)
Definition _saveWavToTempFile (cacheDirectory : string) (now : Z)
    (writeFails : bool) (tempFileCounter : Z) (fs : FileSystem)
  : Z * FileSystem * Completion string * list LogEntry :=
  let name := temp_name now tempFileCounter in
  let tempFilePath := (cacheDirectory ++ name)%string in
  let tempFileCounter := tempFileCounter + 1 in
  match writeAsStringAsync writeFails name fs with
  | Normal fs' => (tempFileCounter, fs', Normal tempFilePath, [])
  | Throw e =>
      (tempFileCounter, fs, Throw e, [Error "Error saving WAV to temp file:"])
  end.

(** A clock value of thirteen digits, as [Date.now()] has been since
    September 2001 and will be until 2286. *)
Definition thirteen_digits (now : Z) : Prop :=
  10 ^ 12 <= now < 10 ^ 13.

(** A directory with five audio temp files and one other file. *)
Definition small_fs : FileSystem :=
  mkFS ["audio_1700000000005_4.wav"; "notes.txt";
        "audio_1700000000001_0.wav"; "audio_1700000000002_1.wav";
        "audio_1700000000009_7.wav"; "audio_1700000000003_2.wav"]
    false (fun _ => false).

(** The sample directory on a device where the second delete fails. *)
Definition failing_fs : FileSystem :=
  mkFS (entries sample_fs) false
    (fun name => String.eqb name "audio_1700000000002_1.wav").

(* ------------------------------------------------------------------ *)
(** *** OutputRouter *)

(** The flags imported from [../config]. *)
Variables AEC_ENABLED AGC_ENABLED NS_ENABLED : bool.

(** What the module finds on the device: whether the imported
    [InCallManager] is truthy, whether [typeof InCallManager.start] and
    [typeof InCallManager.setForceSpeakerphoneOn] are ["function"], and
    [Platform.OS]. *)
Record Native : Type := mkNative {
  InCallManager : bool;
  typeof_start : bool;
  typeof_setForceSpeakerphoneOn : bool;
  Platform_OS : string
}.

Variable native : Native.

(** The calls the module makes on [InCallManager]. *)
Inductive Call : Type :=
| Start (forceSpeakerOn enableAEC enableAGC enableNS : bool)
| SetForceSpeakerphoneOn (flag : bool)
| SetAudioVolume
| Stop.

(** The router's module variables, the calls of [initializeInCallManager]
    suspended at its first and at its second [await], the calls made on
    [InCallManager] so far (a call that throws is a call made), and what
    [console.warn] and [console.error] printed. *)
Record Router : Type := mkRouter {
  isSpeakerOn : bool;
  isInCallManagerInitialized : bool;
  first_delay : nat;
  second_delay : nat;
  requests : list Call;
  notices : list LogEntry
}.

Definition router_initial : Router := mkRouter true false 0 0 [] [].

Definition request (c : Call) (r : Router) : Router :=
  mkRouter (isSpeakerOn r) (isInCallManagerInitialized r) (first_delay r)
    (second_delay r) (requests r ++ [c]) (notices r).

Definition notice (entries : list LogEntry) (r : Router) : Router :=
  mkRouter (isSpeakerOn r) (isInCallManagerInitialized r) (first_delay r)
    (second_delay r) (requests r) (notices r ++ entries).

Definition set_isSpeakerOn (b : bool) (r : Router) : Router :=
  mkRouter b (isInCallManagerInitialized r) (first_delay r) (second_delay r)
    (requests r) (notices r).

Definition set_isInCallManagerInitialized (b : bool) (r : Router) : Router :=
  mkRouter (isSpeakerOn r) b (first_delay r) (second_delay r) (requests r)
    (notices r).

Definition set_first_delay (n : nat) (r : Router) : Router :=
  mkRouter (isSpeakerOn r) (isInCallManagerInitialized r) n (second_delay r)
    (requests r) (notices r).

Definition set_second_delay (n : nat) (r : Router) : Router :=
  mkRouter (isSpeakerOn r) (isInCallManagerInitialized r) (first_delay r) n
    (requests r) (notices r).

(** [configureAudio] once [initializeInCallManager] has settled: the
    volume is set on Android when the manager is initialized. [throws]
    tells which calls on [InCallManager] throw. *)
Definition set_volume (throws : Call -> bool) (r : Router) : Router :=
  if String.eqb (Platform_OS native) "android" && isInCallManagerInitialized r
  then
    let r := request SetAudioVolume r in
    if throws SetAudioVolume
    then notice [Warn "AudioOutputService: Error setting audio volume:"] r
    else r
  else r.

(** [configureAudio()] up to the first [await] that suspends it:
    [new AudioContext()], then [initializeInCallManager()], which answers
    at once when the manager is initialized or missing and otherwise
    waits for its first delay. *)
Definition configureAudio (contextThrows : bool) (throws : Call -> bool)
    (r : Router) : Router :=
  if contextThrows
  then notice [Error "AudioOutputService: Error configuring audio:"] r
  else if isInCallManagerInitialized r then set_volume throws r
  else if negb (InCallManager native) then set_volume throws r
  else set_first_delay (S (first_delay r)) r.

(** [initializeInCallManager] between its first and its second delay, for
    one of the calls suspended there. *)
Definition first_delay_elapsed (throws : Call -> bool) (r : Router)
  : option Router :=
  match first_delay r with
  | O => None
  | S n =>
      let r := set_first_delay n r in
      Some
        (if negb (InCallManager native) || negb (typeof_start native) then
           set_volume throws
             (notice
                [Warn "AudioOutputService: InCallManager not available after delay"]
                r)
         else
           let c := Start (isSpeakerOn r) AEC_ENABLED AGC_ENABLED NS_ENABLED in
           let r := request c r in
           if throws c then
             set_volume throws
               (notice
                  [Error "AudioOutputService: Error initializing InCallManager:"]
                  r)
           else set_second_delay (S (second_delay r)) r)
  end.

(** [initializeInCallManager] after its second delay, and the rest of the
    [configureAudio] that awaited it. *)
Definition second_delay_elapsed (throws : Call -> bool) (r : Router)
  : option Router :=
  match second_delay r with
  | O => None
  | S n =>
      let r := set_second_delay n r in
      Some
        (if InCallManager native && typeof_setForceSpeakerphoneOn native then
           let c := SetForceSpeakerphoneOn (isSpeakerOn r) in
           let r := request c r in
           if throws c then
             set_volume throws
               (notice
                  [Error "AudioOutputService: Error initializing InCallManager:"]
                  r)
           else set_volume throws (set_isInCallManagerInitialized true r)
         else
           set_volume throws
             (set_isInCallManagerInitialized true
                (notice
                   [Warn "AudioOutputService: Could not force speaker mode - method not available"]
                   r)))
  end.

(** [toggleSpeakerMode(isOn)]; an exception of the manager escapes. *)
Definition toggleSpeakerMode (isOn : bool) (throws : Call -> bool)
    (r : Router) : Router * Completion unit :=
  if isInCallManagerInitialized r && InCallManager native
     && typeof_setForceSpeakerphoneOn native
  then
    let r := set_isSpeakerOn isOn r in
    let c := SetForceSpeakerphoneOn (isSpeakerOn r) in
    let r := request c r in
    (r, if throws c then Throw PlatformError else Normal tt)
  else
    (notice
       [Warn "AudioOutputService: Cannot toggle speaker mode, InCallManager not ready."]
       r,
     Normal tt).

(** [_playSoundObject(playerNode)]: the route is forced again, then the
    node is started; the answer tells whether it started. *)
Definition _playSoundObject (throws : Call -> bool) (startThrows : bool)
    (r : Router) : Router * bool :=
  let r :=
    if isInCallManagerInitialized r && InCallManager native
       && typeof_setForceSpeakerphoneOn native
    then
      let c := SetForceSpeakerphoneOn (isSpeakerOn r) in
      let r := request c r in
      if throws c
      then notice
             [Warn "AudioOutputService: Error re-activating audio session:"] r
      else r
    else r in
  if startThrows
  then (notice [Error "AudioOutputService: Error playing sound:"] r, false)
  else (r, true).

(** The inner [try] of [cleanupAudioResources]: the manager is stopped
    unless echo cancellation is enabled; calling [stop] on a missing
    manager throws. *)
Definition stop_manager (throws : Call -> bool) (r : Router) : Router :=
  if negb AEC_ENABLED then
    if InCallManager native then
      let r := request Stop r in
      if throws Stop
      then notice [Warn "AudioOutputService: Error managing InCallManager:"] r
      else r
    else notice [Warn "AudioOutputService: Error managing InCallManager:"] r
  else r.

(** [cleanupAudioResources()], on the router and on the pipeline. *)
Definition cleanupAudioResources (throws : Call -> bool)
    (rs : Router * State) : Router * State :=
  (stop_manager throws (fst rs), set_isPlaying false (snd rs)).

Inductive RouterEvent : Type :=
| ConfigureAudio (contextThrows : bool) (throws : Call -> bool)
| FirstDelayElapsed (throws : Call -> bool)
| SecondDelayElapsed (throws : Call -> bool)
| ToggleSpeakerMode (isOn : bool) (throws : Call -> bool)
| PlaySoundObject (throws : Call -> bool) (startThrows : bool)
| CleanupAudioResources (throws : Call -> bool).

(** One event of the router; [None] when no call is suspended at the
    delay that elapses. *)
Definition route (r : Router) (e : RouterEvent) : option Router :=
  match e with
  | ConfigureAudio contextThrows throws =>
      Some (configureAudio contextThrows throws r)
  | FirstDelayElapsed throws => first_delay_elapsed throws r
  | SecondDelayElapsed throws => second_delay_elapsed throws r
  | ToggleSpeakerMode isOn throws => Some (fst (toggleSpeakerMode isOn throws r))
  | PlaySoundObject throws startThrows =>
      Some (fst (_playSoundObject throws startThrows r))
  | CleanupAudioResources throws => Some (stop_manager throws r)
  end.

Fixpoint route_all (r : Router) (events : list RouterEvent) : option Router :=
  match events with
  | [] => Some r
  | e :: rest =>
      match route r e with
      | Some r' => route_all r' rest
      | None => None
      end
  end.

(** The speaker setting of the last call that carried one. *)
Fixpoint last_route (calls : list Call) : option bool :=
  match calls with
  | [] => None
  | c :: rest =>
      match last_route rest with
      | Some flag => Some flag
      | None =>
          match c with
          | Start flag _ _ _ | SetForceSpeakerphoneOn flag => Some flag
          | _ => None
          end
      end
  end.

Definition is_start (c : Call) : bool :=
  match c with
  | Start _ _ _ _ => true
  | _ => false
  end.

(** A platform on which no call throws. *)
Definition quiet (c : Call) : bool := false.

(** What the router's variables and suspended calls imply about the
    device and about the calls made. *)
Definition router_inv (r : Router) : Prop :=
  (last_route (requests r) = None \/
   last_route (requests r) = Some (isSpeakerOn r)) /\
  (isSpeakerOn r = false -> isInCallManagerInitialized r = true) /\
  ((0 < first_delay r)%nat -> InCallManager native = true) /\
  ((0 < second_delay r)%nat \/ isInCallManagerInitialized r = true ->
   InCallManager native = true /\ typeof_start native = true) /\
  (requests r <> [] -> InCallManager native = true).

(** The manager is initialized and no call is waiting to start it. *)
Definition settled (r : Router) : Prop :=
  isInCallManagerInitialized r = true /\ first_delay r = 0%nat.

(** A device with a working manager. *)
Definition android : Native := mkNative true true true "android".

(** The module is loaded and initializes; the session is cleaned up; then
    audio is configured, routed and played again. *)
Definition start_up : list RouterEvent :=
  [ConfigureAudio false quiet; FirstDelayElapsed quiet;
   SecondDelayElapsed quiet].

Definition after_cleanup : list RouterEvent :=
  [CleanupAudioResources quiet; ConfigureAudio false quiet;
   ToggleSpeakerMode false quiet; PlaySoundObject quiet false].

(* ------------------------------------------------------------------ *)
(** *** Calls of [playAudioChunk] and the [await] they pass *)

(** [playAudioChunk] pushes its chunk only after [await configureAudio()],
    and so does nothing until the [initializeInCallManager] that call runs
    has settled. A session is the router, the pipeline, and the calls of
    [configureAudio] suspended at the first and at the second delay of
    [initializeInCallManager], oldest first: each is the call the module
    makes when it loads ([None]) or the call a [playAudioChunk] awaits,
    with the chunk that call will push. *)
Record Session : Type := mkSession {
  router : Router;
  playback : State;
  at_first_delay : list (option jsval);
  at_second_delay : list (option jsval)
}.

Definition session_initial : Session :=
  mkSession router_initial initial [] [].

(** Whether a call of [configureAudio] has to wait for the first delay:
    the context is created, the manager is there and is not initialized. *)
Definition suspends (contextThrows : bool) (r : Router) : bool :=
  negb contextThrows && negb (isInCallManagerInitialized r)
  && InCallManager native.

(** Whether [initializeInCallManager] goes on to its second delay: the
    manager is there with a [start] that does not throw. *)
Definition proceeds (throws : Call -> bool) (r : Router) : bool :=
  InCallManager native && typeof_start native
  && negb (throws (Start (isSpeakerOn r) AEC_ENABLED AGC_ENABLED NS_ENABLED)).

(** What follows [await configureAudio()] in the caller. *)
Definition resume (waiter : option jsval) (s : State) : State :=
  match waiter with
  | Some audioData => playAudioChunk audioData s
  | None => s
  end.

(** A call of [configureAudio], by the module itself or by
    [playAudioChunk]. A call that does not have to wait for a delay is
    resumed before any other event (its [await]s take microtasks only),
    which is here at once. *)
Definition enter (waiter : option jsval) (contextThrows : bool)
    (throws : Call -> bool) (ss : Session) : Session :=
  let r := configureAudio contextThrows throws (router ss) in
  if suspends contextThrows (router ss)
  then mkSession r (playback ss) (at_first_delay ss ++ [waiter])
         (at_second_delay ss)
  else mkSession r (resume waiter (playback ss)) (at_first_delay ss)
         (at_second_delay ss).

Inductive SessionEvent : Type :=
| Load (contextThrows : bool) (throws : Call -> bool)
    (* [configureAudio()] when the module loads *)
| Play (audioData : jsval) (contextThrows : bool) (throws : Call -> bool)
    (* [playAudioChunk(audioData)] *)
| FirstDelay (throws : Call -> bool)      (* the oldest 500 ms delay ends *)
| SecondDelay (throws : Call -> bool)     (* the oldest 300 ms delay ends *)
| Platform (e : Event)                    (* an event of the pipeline other
                                             than a push *)
| Routed (e : RouterEvent).               (* an event of the router other
                                             than [configureAudio] *)

(** One event of the session; [None] when it cannot happen. A falsy chunk
    is turned away before the [await]. *)
Definition session_step (ss : Session) (e : SessionEvent) : option Session :=
  match e with
  | Load contextThrows throws => Some (enter None contextThrows throws ss)
  | Play audioData contextThrows throws =>
      if truthy audioData
      then Some (enter (Some audioData) contextThrows throws ss)
      else Some (mkSession (router ss)
                   (playAudioChunk audioData (playback ss))
                   (at_first_delay ss) (at_second_delay ss))
  | FirstDelay throws =>
      match at_first_delay ss, first_delay_elapsed throws (router ss) with
      | waiter :: rest, Some r =>
          if proceeds throws (router ss)
          then Some (mkSession r (playback ss) rest
                       (at_second_delay ss ++ [waiter]))
          else Some (mkSession r (resume waiter (playback ss)) rest
                       (at_second_delay ss))
      | _, _ => None
      end
  | SecondDelay throws =>
      match at_second_delay ss, second_delay_elapsed throws (router ss) with
      | waiter :: rest, Some r =>
          Some (mkSession r (resume waiter (playback ss))
                  (at_first_delay ss) rest)
      | _, _ => None
      end
  | Platform e =>
      match e with
      | Submit _ => None
      | _ =>
          match step (playback ss) e with
          | Some s =>
              Some (mkSession (router ss) s (at_first_delay ss)
                      (at_second_delay ss))
          | None => None
          end
      end
  | Routed e =>
      match e with
      | ConfigureAudio _ _ | FirstDelayElapsed _ | SecondDelayElapsed _ =>
          None
      | _ =>
          match route (router ss) e with
          | Some r =>
              Some (mkSession r (playback ss) (at_first_delay ss)
                      (at_second_delay ss))
          | None => None
          end
      end
  end.

Fixpoint session_run (ss : Session) (events : list SessionEvent)
  : option Session :=
  match events with
  | [] => Some ss
  | e :: rest =>
      match session_step ss e with
      | Some ss' => session_run ss' rest
      | None => None
      end
  end.

(** The item a flush of well-formed [chunks] pushes. *)
Definition merged_item (chunks : list jsval) : jsval :=
  combinedChunk
    (mkCombined (concat (map payload_bytes chunks))
       (window_rate chunks OUTPUT_SAMPLE_RATE)).

(** What pushing [item] and calling [_processQueue] does to the queue
    between [s] and [s']: while an item plays it waits at the back; with
    nothing playing and nothing waiting its container is handed to the
    decoder at once; in every case it went on the queue behind what
    waited there. *)
Definition enqueued (item : jsval) (s s' : State) : Prop :=
  (isPlaying s = true ->
   isPlaying s' = true /\ audioQueue s' = audioQueue s ++ [item] /\
   decoding s' = decoding s) /\
  (isPlaying s = false -> audioQueue s = [] ->
   forall wav, build item = inl wav ->
     isPlaying s' = true /\ audioQueue s' = [] /\
     decoding s' = decoding s ++ [wav]) /\
  (exists taken, audioQueue s ++ [item] = taken ++ audioQueue s').

(** The module loads and starts to initialize the manager; a first chunk
    is submitted while it does, and a second one right after it has
    finished. The window of the second chunk reaches its deadline before
    the first call has passed its own two delays. *)
Definition early_call : list SessionEvent :=
  [Load false quiet; FirstDelay quiet;
   Play raw_chunk false quiet;
   SecondDelay quiet;
   Play text_chunk false quiet;
   Platform (TimerFired 1);
   FirstDelay quiet; SecondDelay quiet;
   Platform (TimerFired 2)].

(** The module loads and the manager initializes before any chunk comes. *)
Definition loaded : list SessionEvent :=
  [Load false quiet; FirstDelay quiet; SecondDelay quiet].

(* ================================================================== *)
(** * Properties *)

(** ** Bytes *)

Lemma byte_val_to_uint8 (z : Z) : byte_val (to_uint8 z) = z mod 256.
Proof.
  unfold byte_val, to_uint8.
  assert (Hr : 0 <= z mod 256 < 256) by (apply Z.mod_pos_bound; lia).
  destruct (Byte.of_N (Z.to_N (z mod 256))) as [b|] eqn:E.
  - apply Byte.to_of_N in E. rewrite E. lia.
  - apply Byte.of_N_None_iff in E. lia.
Qed.

Lemma land_255 (v : Z) : Z.land v 255 = v mod 256.
Proof. change 255 with (Z.ones 8). rewrite Z.land_ones by lia. reflexivity. Qed.

Lemma ushr_div (v n : Z) :
  0 <= v < 2 ^ 32 -> 0 <= n -> ushr v n = v / 2 ^ n.
Proof.
  intros Hv Hn. unfold ushr. rewrite Z.mod_small by lia.
  apply Z.shiftr_div_pow2; lia.
Qed.

Lemma le16_value (v : Z) :
  0 <= v < 65536 -> v mod 256 + 256 * ((v / 256) mod 256) = v.
Proof.
  intros Hv. rewrite (Z.mod_small (v / 256)).
  - pose proof (Z.div_mod v 256). lia.
  - split; [apply Z.div_pos; lia | apply Z.div_lt_upper_bound; lia].
Qed.

Lemma le32_value (v : Z) :
  0 <= v < 4294967296 ->
  v mod 256 + 256 * ((v / 256) mod 256) + 65536 * ((v / 65536) mod 256)
  + 16777216 * ((v / 16777216) mod 256) = v.
Proof.
  intros Hv.
  pose proof (Z.div_mod v 256 ltac:(lia)).
  pose proof (Z.div_mod (v / 256) 256 ltac:(lia)).
  pose proof (Z.div_mod (v / 256 / 256) 256 ltac:(lia)).
  rewrite Z.div_div in * by lia.
  change (256 * 256) with 65536 in *.
  rewrite Z.div_div in * by lia.
  change (65536 * 256) with 16777216 in *.
  assert (0 <= v / 16777216 < 256).
  { split; [apply Z.div_pos; lia | apply Z.div_lt_upper_bound; lia]. }
  rewrite (Z.mod_small (v / 16777216)) by lia.
  pose proof (Z.mod_pos_bound v 256 ltac:(lia)).
  pose proof (Z.mod_pos_bound (v / 256) 256 ltac:(lia)).
  pose proof (Z.mod_pos_bound (v / 65536) 256 ltac:(lia)).
  lia.
Qed.

(** ** Container encoder *)

Lemma checkInt_ok (buf : Buffer) (n : Z) (d : positive) (off ext : nat)
    (max min : Z) :
  min * Zpos d <= n <= max * Zpos d ->
  (off + ext <= length buf)%nat ->
  checkInt buf (Qmake n d) off ext max min = Normal tt.
Proof.
  intros Hn Hlen. unfold checkInt, Qle_bool, inject_Z. cbn [Qnum Qden].
  replace (n * 1 <=? max * Zpos d) with true by (symmetry; apply Z.leb_le; lia).
  replace (min * Zpos d <=? n * 1) with true by (symmetry; apply Z.leb_le; lia).
  cbn [negb orb].
  replace (length buf <? off + ext)%nat with false
    by (symmetry; apply Nat.ltb_ge; lia).
  reflexivity.
Qed.

Lemma trunc_nonneg (n : Z) (d : positive) :
  0 <= n -> trunc (Qmake n d) = n / Zpos d.
Proof.
  intros Hn. unfold trunc. cbn [Qnum Qden]. apply Z.quot_div_nonneg; lia.
Qed.

(** The four bytes of a 32-bit field and the two bytes of a 16-bit field,
    least significant first. *)
Lemma writeUInt32LE_ok (n : Z) (d : positive) (off : nat) (buf : Buffer) :
  0 <= n <= 4294967295 * Zpos d ->
  (off + 4 <= length buf)%nat ->
  writeUInt32LE (Qmake n d) off buf =
  Normal (blit [to_uint8 (n / Zpos d); to_uint8 (n / Zpos d / 2 ^ 8);
                to_uint8 (n / Zpos d / 2 ^ 16); to_uint8 (n / Zpos d / 2 ^ 24)]
            buf off).
Proof.
  intros Hn Hlen. unfold writeUInt32LE.
  rewrite checkInt_ok by lia. cbn [bind].
  rewrite trunc_nonneg by lia.
  assert (Hv : 0 <= n / Zpos d < 2 ^ 32).
  { split; [apply Z.div_pos; lia | apply Z.div_lt_upper_bound; lia]. }
  rewrite !ushr_div by lia.
  do 2 f_equal. unfold to_uint8. rewrite land_255, Z.mod_mod by lia.
  reflexivity.
Qed.

Lemma writeUInt16LE_ok (n : Z) (d : positive) (off : nat) (buf : Buffer) :
  0 <= n <= 65535 * Zpos d ->
  (off + 2 <= length buf)%nat ->
  writeUInt16LE (Qmake n d) off buf =
  Normal (blit [to_uint8 (n / Zpos d); to_uint8 (n / Zpos d / 2 ^ 8)] buf off).
Proof.
  intros Hn Hlen. unfold writeUInt16LE.
  rewrite checkInt_ok by lia. cbn [bind].
  rewrite trunc_nonneg by lia.
  assert (Hv : 0 <= n / Zpos d < 2 ^ 32).
  { split; [apply Z.div_pos; lia | apply Z.div_lt_upper_bound; lia]. }
  rewrite !ushr_div by lia.
  do 2 f_equal. unfold to_uint8. rewrite land_255, Z.mod_mod by lia.
  reflexivity.
Qed.

(** One field write of the header, with the buffer written so far
    brought to an explicit list of bytes. *)
Ltac norm_buffer :=
  match goal with
  | |- context [writeUInt32LE _ _ ?buf] =>
      let v := eval cbn -[to_uint8 Z.div Z.mul Z.add Z.pow] in buf in
      change buf with v
  | |- context [writeUInt16LE _ _ ?buf] =>
      let v := eval cbn -[to_uint8 Z.div Z.mul Z.add Z.pow] in buf in
      change buf with v
  end.

Ltac write_field :=
  norm_buffer;
  first [rewrite writeUInt32LE_ok | rewrite writeUInt16LE_ok];
  [cbn [bind] | lia | cbn [length Nat.add]; lia].

Lemma header_bytes (r b c L : Z) :
  fits_header L r c b ->
  _createWavHeader r b c L =
  Normal (list_byte_of_string "RIFF" ++ le32 (36 + L)
          ++ list_byte_of_string "WAVE" ++ list_byte_of_string "fmt "
          ++ le32 16 ++ le16 1 ++ le16 c ++ le32 r
          ++ le32 (r * c * b / 8) ++ le16 (c * b / 8) ++ le16 b
          ++ list_byte_of_string "data" ++ le32 L).
Proof.
  intros (HL & Hr & Hc & Hb & Hbr & Hba).
  unfold _createWavHeader, inject_Z.
  do 9 write_field.
  rewrite !Z.div_1_r.
  cbn -[to_uint8 Z.div Z.mul Z.add Z.pow].
  reflexivity.
Qed.

Lemma combine_header_payload (header pcm : Buffer) :
  _combineWavData header pcm = Normal (header ++ pcm).
Proof.
  unfold _combineWavData, blit, alloc. f_equal.
  cbn [firstn Nat.add app].
  rewrite firstn_app, firstn_all, Nat.sub_diag. cbn [firstn].
  rewrite app_nil_r.
  rewrite (skipn_all2 (n := length header + length pcm)).
  - rewrite app_nil_r. reflexivity.
  - rewrite length_app, length_skipn, repeat_length. lia.
Qed.

Lemma byte_at_app (pre l : Buffer) (k : nat) :
  byte_at (pre ++ l) (length pre + k) = byte_at l k.
Proof. unfold byte_at. rewrite app_nth2_plus. reflexivity. Qed.

Lemma byte_at_app0 (pre l : Buffer) :
  byte_at (pre ++ l) (length pre) = byte_at l 0.
Proof.
  pose proof (byte_at_app pre l 0) as H. rewrite Nat.add_0_r in H. exact H.
Qed.

Lemma read_le16 (v : Z) (pre post : Buffer) (off : nat) :
  0 <= v <= 65535 -> length pre = off ->
  readUInt16LE (pre ++ le16 v ++ post) off = v.
Proof.
  intros Hv <-. unfold readUInt16LE.
  rewrite byte_at_app0, byte_at_app.
  unfold byte_at. cbn [le16 app nth]. rewrite !byte_val_to_uint8.
  change (2 ^ 8) with 256. apply le16_value. lia.
Qed.

Lemma read_le32 (v : Z) (pre post : Buffer) (off : nat) :
  0 <= v <= 4294967295 -> length pre = off ->
  readUInt32LE (pre ++ le32 v ++ post) off = v.
Proof.
  intros Hv <-. unfold readUInt32LE.
  rewrite byte_at_app0, !byte_at_app.
  unfold byte_at. cbn [le32 app nth]. rewrite !byte_val_to_uint8.
  change (2 ^ 8) with 256. change (2 ^ 16) with 65536.
  change (2 ^ 24) with 16777216. apply le32_value. lia.
Qed.

Lemma read_le16_in (wav pre post : Buffer) (off : nat) (v : Z) :
  0 <= v <= 65535 ->
  wav = pre ++ le16 v ++ post ->
  length pre = off ->
  readUInt16LE wav off = v.
Proof. intros Hv -> Hlen. apply read_le16; assumption. Qed.

Lemma read_le32_in (wav pre post : Buffer) (off : nat) (v : Z) :
  0 <= v <= 4294967295 ->
  wav = pre ++ le32 v ++ post ->
  length pre = off ->
  readUInt32LE wav off = v.
Proof. intros Hv -> Hlen. apply read_le32; assumption. Qed.

Ltac read_field :=
  match goal with
  | |- readUInt32LE ?w ?off = ?v =>
      apply (read_le32_in w (firstn off w) (skipn (off + 4) w) off v)
  | |- readUInt16LE ?w ?off = ?v =>
      apply (read_le16_in w (firstn off w) (skipn (off + 2) w) off v)
  end; [lia | reflexivity | reflexivity].

(** The layout of an encoded container. *)
Lemma encode_layout (pcm : Buffer) (r c b : Z) :
  fits_header (Z.of_nat (length pcm)) r c b ->
  exists wav,
    _createWavFromPcm pcm r c b = Normal wav /\
    length wav = (44 + length pcm)%nat /\
    skipn 44 wav = pcm /\
    readAscii wav 0 4 = "RIFF" /\
    readUInt32LE wav 4 = 36 + Z.of_nat (length pcm) /\
    readAscii wav 8 4 = "WAVE" /\
    readAscii wav 12 4 = "fmt " /\
    readUInt32LE wav 16 = 16 /\
    readUInt16LE wav 20 = 1 /\
    readUInt16LE wav 22 = c /\
    readUInt32LE wav 24 = r /\
    readUInt32LE wav 28 = r * c * b / 8 /\
    readUInt16LE wav 32 = c * b / 8 /\
    readUInt16LE wav 34 = b /\
    readAscii wav 36 4 = "data" /\
    readUInt32LE wav 40 = Z.of_nat (length pcm).
Proof.
  intros Hfit.
  pose proof Hfit as (HL & Hr & Hc & Hb & Hbr & Hba).
  unfold _createWavFromPcm.
  rewrite (header_bytes _ _ _ _ Hfit). cbn [bind].
  rewrite combine_header_payload. cbn [bind].
  eexists. split; [reflexivity |].
  assert (Hbr' : 0 <= r * c * b / 8 <= 4294967295).
  { split; [apply Z.div_pos; nia | apply Z.div_le_upper_bound; lia]. }
  assert (Hba' : 0 <= c * b / 8 <= 65535).
  { split; [apply Z.div_pos; nia | apply Z.div_le_upper_bound; lia]. }
  generalize dependent (Z.of_nat (length pcm)). intros L _ HL.
  generalize dependent (r * c * b / 8). intros br Hbr'.
  generalize dependent (c * b / 8). intros ba Hba'.
  split; [rewrite length_app; reflexivity |].
  split; [reflexivity |].
  split; [reflexivity |].
  split; [read_field |].
  split; [reflexivity |].
  split; [reflexivity |].
  split; [read_field |].
  split; [read_field |].
  split; [read_field |].
  split; [read_field |].
  split; [read_field |].
  split; [read_field |].
  split; [read_field |].
  split; [reflexivity |].
  read_field.
Qed.

(** C1. For a payload of length L, rate r, c channels and b bits per sample
    whose header fields fit their widths, the encoder returns the 44-byte
    header followed immediately by the payload, and a reader finds at the
    fixed offsets: "RIFF"@0, 36 + L @4, "WAVE"@8, "fmt "@12, 16 @16,
    1 (linear PCM) @20, c @22, r @24, r*c*b/8 @28, c*b/8 @32, b @34,
    "data"@36 and L @40, the numbers little-endian. *)
Theorem wav_container_layout (pcm : Buffer) (r c b : Z) :
  fits_header (Z.of_nat (length pcm)) r c b ->
  exists wav,
    _createWavFromPcm pcm r c b = Normal wav /\
    length wav = (44 + length pcm)%nat /\
    skipn 44 wav = pcm /\
    readAscii wav 0 4 = "RIFF" /\
    readUInt32LE wav 4 = 36 + Z.of_nat (length pcm) /\
    readAscii wav 8 4 = "WAVE" /\
    readAscii wav 12 4 = "fmt " /\
    readUInt32LE wav 16 = 16 /\
    readUInt16LE wav 20 = 1 /\
    readUInt16LE wav 22 = c /\
    readUInt32LE wav 24 = r /\
    readUInt32LE wav 28 = r * c * b / 8 /\
    readUInt16LE wav 32 = c * b / 8 /\
    readUInt16LE wav 34 = b /\
    readAscii wav 36 4 = "data" /\
    readUInt32LE wav 40 = Z.of_nat (length pcm).
Proof. exact (encode_layout pcm r c b). Qed.

(** ** Chunk aggregator *)

Lemma fill_concat (arrays : list Buffer) (done : Buffer) :
  fill arrays (done ++ alloc (length (concat arrays))) (length done) =
  Normal (done ++ concat arrays).
Proof.
  revert done. induction arrays as [|a arrays IH]; intros done.
  - cbn. rewrite app_nil_r. reflexivity.
  - cbn [fill concat]. unfold Uint8Array_set, alloc.
    rewrite !length_app, repeat_length.
    replace (length done + (length a + length (concat arrays))
             <? length done + length a)%nat with false
      by (symmetry; apply Nat.ltb_ge; lia).
    cbn [bind]. unfold blit.
    rewrite firstn_app, firstn_all, Nat.sub_diag. cbn [firstn].
    rewrite app_nil_r.
    rewrite skipn_app, skipn_all2 by lia. cbn [app].
    replace (length done + length a - length done)%nat with (length a) by lia.
    rewrite repeat_app, skipn_app, repeat_length, Nat.sub_diag.
    rewrite skipn_all2 by (rewrite repeat_length; lia).
    cbn [skipn app].
    specialize (IH (done ++ a)).
    rewrite length_app, <- app_assoc in IH.
    rewrite app_assoc. unfold alloc in IH.
    rewrite <- app_assoc. rewrite IH. rewrite app_assoc. reflexivity.
Qed.

Lemma mime_ok_declared (chunk : jsval) :
  mime_ok chunk = true ->
  exists rate, declared_rate (get chunk "mimeType") = Normal rate.
Proof.
  unfold mime_ok, declared_rate.
  destruct (get chunk "mimeType") as [| |b|n|m|bs|bs|fs]; try discriminate;
    intros _; cbn [truthy]; try (eexists; reflexivity).
  destruct (negb (String.eqb m "")); [|eexists; reflexivity].
  destruct (includes "rate=" m); [|eexists; reflexivity].
  destruct (match_rate m); eexists; reflexivity.
Qed.

Lemma collect_cons (c : jsval) (rest : list jsval) (arrays : list Buffer)
    (total : nat) (rate : Z) :
  mime_ok c = true ->
  collect (c :: rest) arrays total rate =
  collect rest (arrays ++ contribution c)
    (total + length (concat (contribution c)))
    (match annotation c with Some r => r | None => rate end).
Proof.
  intros Hc. destruct (mime_ok_declared c Hc) as [r Hr].
  cbn [collect]. unfold contribution, annotation.
  destruct (tagged_audio c) eqn:Htag.
  - rewrite Hr. cbn [bind].
    destruct (as_uint8 (get c "data")) as [bytes|]; cbn [concat length app].
    + rewrite app_nil_r. reflexivity.
    + rewrite app_nil_r, Nat.add_0_r. reflexivity.
  - destruct c; cbn [bind as_uint8 concat length app];
      rewrite ?app_nil_r, ?Nat.add_0_r; reflexivity.
Qed.

Lemma collect_spec (chunks : list jsval) :
  Forall (fun c => mime_ok c = true) chunks ->
  forall (arrays : list Buffer) (total : nat) (rate : Z),
    collect chunks arrays total rate =
    Normal (arrays ++ flat_map contribution chunks,
            (total + length (concat (flat_map contribution chunks)))%nat,
            window_rate chunks rate).
Proof.
  induction 1 as [|c chunks Hc _ IH]; intros arrays total rate.
  - cbn. rewrite app_nil_r, Nat.add_0_r. reflexivity.
  - rewrite collect_cons by assumption. rewrite IH.
    cbn [flat_map window_rate].
    rewrite concat_app, length_app, <- app_assoc, Nat.add_assoc.
    reflexivity.
Qed.

Lemma combine_spec (chunks : list jsval) :
  chunks <> [] ->
  Forall (fun c => mime_ok c = true) chunks ->
  _combineAudioChunks chunks =
  (Some (mkCombined (concat (flat_map contribution chunks))
           (window_rate chunks OUTPUT_SAMPLE_RATE)), []).
Proof.
  intros Hne Hok. unfold _combineAudioChunks.
  destruct chunks as [|c chunks]; [contradiction|].
  rewrite (collect_spec _ Hok). cbn [bind app Nat.add].
  pose proof (fill_concat (flat_map contribution (c :: chunks)) []) as Hfill.
  cbn [app length] in Hfill. rewrite Hfill. reflexivity.
Qed.

Lemma collect_skips_unsupported (pre post : list jsval) (bad : jsval) :
  unsupported bad = true ->
  forall (arrays : list Buffer) (total : nat) (rate : Z),
    collect (pre ++ bad :: post) arrays total rate =
    collect (pre ++ post) arrays total rate.
Proof.
  intros Hbad. induction pre as [|c pre IH]; intros arrays total rate.
  - cbn [app collect].
    assert (Htag : tagged_audio bad = false).
    { destruct bad; cbn in Hbad; try reflexivity; try discriminate;
        now apply negb_true_iff in Hbad. }
    rewrite Htag.
    destruct bad; cbn in Hbad; try discriminate; reflexivity.
  - cbn [app collect].
    destruct (if tagged_audio c then _ else _) as [[pcmData rate']|e];
      cbn [bind]; [|reflexivity].
    destruct (as_uint8 pcmData); apply IH.
Qed.

(** ** What the queue leaves untouched *)

Lemma same_window_refl (s : State) : same_window s s.
Proof. repeat split. Qed.

Lemma same_window_trans (s1 s2 s3 : State) :
  same_window s1 s2 -> same_window s2 s3 -> same_window s1 s3.
Proof.
  unfold same_window. intros (A1 & A2 & A3 & A4 & A5 & A6)
    (B1 & B2 & B3 & B4 & B5 & B6).
  repeat split; congruence.
Qed.

Lemma drain_same_window (queue : list jsval) (s : State) :
  same_window s (drain queue s).
Proof.
  revert s. induction queue as [|item rest IH]; intros s.
  - apply same_window_refl.
  - cbn [drain]. destruct (build item) as [wav|entries].
    + repeat split.
    + eapply same_window_trans; [|apply IH]. repeat split.
Qed.

Lemma processQueue_same_window (s : State) : same_window s (_processQueue s).
Proof.
  unfold _processQueue. destruct (isPlaying s).
  - apply same_window_refl.
  - apply drain_same_window.
Qed.

(** ** Flushing the window *)

Lemma flush_fields (s : State) :
  let s' := _processBufferedChunks s in
  bufferAggregator s' = [] /\
  bufferTimer s' = None /\
  timers s' = timers (cancel_timer s) /\
  nextTimer s' = nextTimer s /\
  rendering s' = rendering s /\
  flushes s' =
    flushes s ++ match bufferAggregator s with
                 | [] => []
                 | chunks => [flush_of chunks]
                 end.
Proof.
  cbv zeta. unfold _processBufferedChunks.
  assert (Hc : bufferAggregator (cancel_timer s) = bufferAggregator s
               /\ bufferTimer (cancel_timer s) = None
               /\ nextTimer (cancel_timer s) = nextTimer s
               /\ rendering (cancel_timer s) = rendering s
               /\ flushes (cancel_timer s) = flushes s).
  { unfold cancel_timer. destruct (bufferTimer s) eqn:E; cbn; auto. }
  destruct Hc as (Ha & Ht & Hn & Hr & Hf).
  rewrite Ha.
  destruct (bufferAggregator s) as [|c chunks] eqn:Hagg.
  - rewrite app_nil_r. repeat split; congruence.
  - unfold flush_of.
    destruct (_combineAudioChunks (c :: chunks)) as [[combined|] entries];
      cbn [fst option_map].
    + match goal with
      | |- context [_processQueue ?x] =>
          destruct (processQueue_same_window x) as (A1 & A2 & A3 & A4 & A5 & A6)
      end.
      rewrite A1, A2, A3, A4, A5, A6. cbn.
      repeat split; congruence.
    + cbn. repeat split; congruence.
Qed.

(** ** The window and its timer *)

Lemma cancel_timer_inv (s : State) :
  timers s = match bufferTimer s with Some t => [t] | None => [] end ->
  timers (cancel_timer s) = [].
Proof.
  unfold cancel_timer. destruct (bufferTimer s) as [t|]; intros H.
  - cbn. rewrite H. cbn. rewrite Pos.eqb_refl. reflexivity.
  - exact H.
Qed.

Lemma flush_inv (s : State) :
  timers s = match bufferTimer s with Some t => [t] | None => [] end ->
  window_inv (_processBufferedChunks s).
Proof.
  intros Ht. destruct (flush_fields s) as (Ha & Hb & Hc & _).
  unfold window_inv. rewrite Ha, Hb, Hc, (cancel_timer_inv s Ht).
  cbn. repeat split; auto. unfold BUFFER_CHUNK_THRESHOLD. lia.
Qed.

Lemma playAudioChunk_unfold (chunk : jsval) (s : State) :
  truthy chunk = true ->
  playAudioChunk chunk s =
  let s1 := set_bufferAggregator (bufferAggregator s ++ [chunk]) s in
  let s2 := if (length (bufferAggregator s ++ [chunk]) =? 1)%nat
            then arm_timer s1 else s1 in
  if (BUFFER_CHUNK_THRESHOLD <=? length (bufferAggregator s ++ [chunk]))%nat
  then _processBufferedChunks s2 else s2.
Proof.
  intros Ht. unfold playAudioChunk. rewrite Ht. cbn [negb].
  cbn [bufferAggregator set_bufferAggregator].
  destruct (length (bufferAggregator s ++ [chunk]) =? 1)%nat; reflexivity.
Qed.

Lemma playAudioChunk_inv (chunk : jsval) (s : State) :
  window_inv s -> window_inv (playAudioChunk chunk s).
Proof.
  intros (Ht & Hiff & Hlen).
  destruct (truthy chunk) eqn:Htr.
  2:{ unfold playAudioChunk. rewrite Htr. exact (conj Ht (conj Hiff Hlen)). }
  rewrite playAudioChunk_unfold by assumption. cbv zeta.
  unfold BUFFER_CHUNK_THRESHOLD in *.
  destruct (bufferAggregator s) as [|a [|b [|c rest]]] eqn:Hagg;
    cbn [length app Nat.eqb Nat.leb] in *; try lia.
  - (* first chunk of a window: the timer is armed *)
    assert (Hnone : bufferTimer s = None) by (apply Hiff; reflexivity).
    rewrite Hnone in Ht.
    unfold window_inv. cbn. rewrite Ht. cbn.
    repeat split; try discriminate; unfold BUFFER_CHUNK_THRESHOLD; lia.
  - (* second chunk: it only waits *)
    unfold window_inv. cbn. split; [exact Ht|].
    split; [|unfold BUFFER_CHUNK_THRESHOLD; lia].
    split; [discriminate|]. intros Hn. apply Hiff in Hn. discriminate.
  - (* third chunk: the threshold is reached *)
    apply flush_inv. exact Ht.
Qed.

Lemma clear_fields (s : State) :
  let s' := clearPlaybackQueue s in
  audioQueue s' = [] /\
  bufferAggregator s' = [] /\
  bufferTimer s' = None /\
  isPlaying s' = false /\
  timers s' = timers (cancel_timer s) /\
  nextTimer s' = nextTimer s /\
  decoding s' = decoding s /\
  rendering s' = rendering s /\
  flushes s' = flushes s.
Proof.
  unfold clearPlaybackQueue, cancel_timer. cbn.
  destruct (bufferTimer s) eqn:E; cbn; rewrite ?E; repeat split; reflexivity.
Qed.

Lemma step_inv (s s' : State) (e : Event) :
  window_inv s -> step s e = Some s' -> window_inv s'.
Proof.
  intros Hinv Hstep. pose proof Hinv as (Ht & Hiff & Hlen).
  destruct e as [chunk|t|i started|i|i| |]; cbn [step] in Hstep.
  - injection Hstep as <-. apply playAudioChunk_inv, Hinv.
  - destruct (existsb (Pos.eqb t) (timers s)) eqn:Hex; [|discriminate].
    injection Hstep as <-.
    destruct (bufferTimer s) as [t0|] eqn:Hbt; rewrite Ht in Hex;
      cbn in Hex; [|discriminate].
    rewrite orb_false_r in Hex. apply Pos.eqb_eq in Hex. subst t0.
    match goal with |- window_inv (_processBufferedChunks ?x) =>
      destruct (flush_fields x) as (Ha & Hb & Hc & _) end.
    unfold window_inv. rewrite Ha, Hb, Hc.
    unfold cancel_timer. cbn [bufferTimer timers].
    rewrite Ht. cbn. rewrite Pos.eqb_refl. cbn.
    repeat split; auto. unfold BUFFER_CHUNK_THRESHOLD. lia.
  - destruct (nth_error (decoding s) i) as [wav|]; [|discriminate].
    injection Hstep as <-. unfold decoded. destruct started.
    + exact Hinv.
    + match goal with |- window_inv (_processQueue ?x) =>
        destruct (processQueue_same_window x) as (A1 & A2 & A3 & _) end.
      unfold window_inv. rewrite A1, A2, A3. exact Hinv.
  - destruct (nth_error (decoding s) i) as [wav|]; [|discriminate].
    injection Hstep as <-. unfold decode_failed.
    match goal with |- window_inv (_processQueue ?x) =>
      destruct (processQueue_same_window x) as (A1 & A2 & A3 & _) end.
    unfold window_inv. rewrite A1, A2, A3. exact Hinv.
  - destruct (nth_error (rendering s) i) as [wav|]; [|discriminate].
    injection Hstep as <-. unfold onended.
    match goal with |- window_inv (_processQueue ?x) =>
      destruct (processQueue_same_window x) as (A1 & A2 & A3 & _) end.
    unfold window_inv. rewrite A1, A2, A3. exact Hinv.
  - injection Hstep as <-.
    destruct (clear_fields s) as (_ & Ha & Hb & _ & Hc & _).
    unfold window_inv. rewrite Ha, Hb, Hc, (cancel_timer_inv s Ht).
    split; [reflexivity|]. split; [split; reflexivity|].
    cbn. unfold BUFFER_CHUNK_THRESHOLD. lia.
  - injection Hstep as <-. exact Hinv.
Qed.

Lemma run_inv (events : list Event) (s s' : State) :
  window_inv s -> run s events = Some s' -> window_inv s'.
Proof.
  revert s. induction events as [|e events IH]; intros s Hinv Hrun.
  - injection Hrun as <-. exact Hinv.
  - cbn [run] in Hrun. destruct (step s e) as [s1|] eqn:Hstep; [|discriminate].
    eapply IH; [|exact Hrun]. eapply step_inv; eassumption.
Qed.

Lemma initial_inv : window_inv initial.
Proof.
  unfold window_inv, initial, BUFFER_CHUNK_THRESHOLD. cbn.
  repeat split; auto.
Qed.

Lemma flushed_snoc (fl : list Flush) (chunks : list jsval) :
  concat (map window (fl ++ [flush_of chunks])) =
  concat (map window fl) ++ chunks.
Proof.
  rewrite map_app, concat_app. cbn. rewrite app_nil_r. reflexivity.
Qed.

(** The first chunk of a window arms the deadline timer. *)
Lemma submit_first (chunk : jsval) (s : State) :
  window_inv s -> truthy chunk = true -> bufferAggregator s = [] ->
  let s' := playAudioChunk chunk s in
  bufferAggregator s' = [chunk] /\
  bufferTimer s' = Some (nextTimer s) /\
  timers s' = [nextTimer s] /\
  flushes s' = flushes s.
Proof.
  intros (Ht & Hiff & _) Htr Hagg. cbv zeta.
  rewrite playAudioChunk_unfold by assumption. rewrite Hagg. cbn.
  assert (Hnone : bufferTimer s = None) by (apply Hiff; exact Hagg).
  rewrite Hnone in Ht. rewrite Ht. auto.
Qed.

(** The chunk that reaches the threshold flushes the window at once and
    leaves no timer behind. *)
Lemma submit_threshold (chunk : jsval) (s : State) :
  window_inv s -> truthy chunk = true ->
  S (length (bufferAggregator s)) = BUFFER_CHUNK_THRESHOLD ->
  let s' := playAudioChunk chunk s in
  flushes s' = flushes s ++ [flush_of (bufferAggregator s ++ [chunk])] /\
  bufferAggregator s' = [] /\
  bufferTimer s' = None /\
  timers s' = [] /\
  forall t, step s' (TimerFired t) = None.
Proof.
  intros (Ht & Hiff & _) Htr Hlen. cbv zeta.
  rewrite playAudioChunk_unfold by assumption. cbv zeta.
  unfold BUFFER_CHUNK_THRESHOLD in *.
  destruct (bufferAggregator s) as [|a [|b [|c rest]]] eqn:Hagg;
    cbn [length] in Hlen; try lia.
  cbn [length app Nat.eqb Nat.leb].
  match goal with |- context [_processBufferedChunks ?x] =>
    destruct (flush_fields x) as (Ha & Hb & Hc & _ & _ & Hf);
    pose proof (cancel_timer_inv x Ht) as Hcancel
  end.
  rewrite Ha, Hb, Hc, Hf, Hcancel. cbn [bufferAggregator flushes
    set_bufferAggregator].
  repeat split; try reflexivity.
  intros t. cbn [step]. rewrite Hc, Hcancel. reflexivity.
Qed.

(** The deadline flushes whatever waits, once. *)
Lemma deadline_flush (t : positive) (s : State) :
  window_inv s -> bufferTimer s = Some t ->
  exists s',
    step s (TimerFired t) = Some s' /\
    flushes s' = flushes s ++ [flush_of (bufferAggregator s)] /\
    bufferAggregator s' = [] /\
    bufferTimer s' = None /\
    timers s' = [] /\
    forall t', step s' (TimerFired t') = None.
Proof.
  intros (Ht & Hiff & _) Hbt. rewrite Hbt in Ht.
  cbn [step]. rewrite Ht. cbn [existsb]. rewrite Pos.eqb_refl. cbn [orb].
  eexists. split; [reflexivity|].
  match goal with |- context [_processBufferedChunks ?x] =>
    destruct (flush_fields x) as (Ha & Hb & Hc & _ & _ & Hf)
  end.
  rewrite Ha, Hb, Hc, Hf.
  assert (Hcancel : forall x, timers (cancel_timer
            (mkState (isPlaying s) (audioQueue s) (bufferAggregator s)
               (bufferTimer s) (filter (fun t' => negb (Pos.eqb t' t)) [t])
               (nextTimer s) (decoding s) (rendering s) (console s) x)) = []).
  { intros x. unfold cancel_timer. cbn. rewrite Hbt. cbn.
    rewrite Pos.eqb_refl. reflexivity. }
  rewrite Hcancel. cbn [bufferAggregator flushes].
  destruct (bufferAggregator s) as [|c chunks] eqn:Hagg.
  { assert (bufferTimer s = None) by (apply Hiff; reflexivity). congruence. }
  repeat split; reflexivity.
Qed.

Lemma step_conserves (s s' : State) (e : Event) :
  window_inv s -> is_clear e = false -> step s e = Some s' ->
  concat (map window (flushes s')) ++ bufferAggregator s' =
  (concat (map window (flushes s)) ++ bufferAggregator s) ++ accepted [e].
Proof.
  intros Hinv Hnc Hstep. pose proof Hinv as (Ht & Hiff & Hlen).
  destruct e as [chunk|t|i started|i|i| |]; cbn [step accepted] in *;
    try discriminate.
  - injection Hstep as <-.
    destruct (truthy chunk) eqn:Htr.
    2:{ unfold playAudioChunk. rewrite Htr. cbn. rewrite app_nil_r.
        reflexivity. }
    rewrite playAudioChunk_unfold by assumption. cbv zeta.
    unfold BUFFER_CHUNK_THRESHOLD in *.
    destruct (bufferAggregator s) as [|a [|b [|c rest]]] eqn:Hagg;
      cbn [length app Nat.eqb Nat.leb] in *; try lia.
    + cbn. rewrite app_nil_r. reflexivity.
    + cbn. rewrite <- app_assoc. reflexivity.
    + match goal with |- context [_processBufferedChunks ?x] =>
        destruct (flush_fields x) as (Ha & _ & _ & _ & _ & Hf) end.
      rewrite Ha, Hf. cbn [bufferAggregator flushes set_bufferAggregator].
      rewrite flushed_snoc, app_nil_r, <- app_assoc. reflexivity.
  - destruct (existsb (Pos.eqb t) (timers s)); [|discriminate].
    injection Hstep as <-.
    match goal with |- context [_processBufferedChunks ?x] =>
      destruct (flush_fields x) as (Ha & _ & _ & _ & _ & Hf) end.
    rewrite Ha, Hf. cbn [bufferAggregator flushes].
    rewrite !app_nil_r.
    destruct (bufferAggregator s).
    + rewrite !app_nil_r. reflexivity.
    + apply flushed_snoc.
  - destruct (nth_error (decoding s) i) as [wav|]; [|discriminate].
    injection Hstep as <-. rewrite app_nil_r. unfold decoded.
    destruct started; [reflexivity|].
    match goal with |- context [_processQueue ?x] =>
      destruct (processQueue_same_window x) as (A1 & _ & _ & _ & _ & A6) end.
    rewrite A1, A6. reflexivity.
  - destruct (nth_error (decoding s) i) as [wav|]; [|discriminate].
    injection Hstep as <-. rewrite app_nil_r. unfold decode_failed.
    match goal with |- context [_processQueue ?x] =>
      destruct (processQueue_same_window x) as (A1 & _ & _ & _ & _ & A6) end.
    rewrite A1, A6. reflexivity.
  - destruct (nth_error (rendering s) i) as [wav|]; [|discriminate].
    injection Hstep as <-. rewrite app_nil_r. unfold onended.
    match goal with |- context [_processQueue ?x] =>
      destruct (processQueue_same_window x) as (A1 & _ & _ & _ & _ & A6) end.
    rewrite A1, A6. reflexivity.
  - injection Hstep as <-. rewrite app_nil_r. reflexivity.
Qed.

Lemma accepted_app (l1 l2 : list Event) :
  accepted (l1 ++ l2) = accepted l1 ++ accepted l2.
Proof.
  induction l1 as [|e l1 IH]; [reflexivity|].
  destruct e; cbn [app accepted]; try exact IH.
  destruct (truthy chunk); cbn [app]; congruence.
Qed.

Lemma run_conserves (events : list Event) (s s' : State) :
  window_inv s ->
  forallb (fun e => negb (is_clear e)) events = true ->
  run s events = Some s' ->
  concat (map window (flushes s')) ++ bufferAggregator s' =
  (concat (map window (flushes s)) ++ bufferAggregator s) ++ accepted events.
Proof.
  revert s. induction events as [|e events IH]; intros s Hinv Hnc Hrun.
  - injection Hrun as <-. cbn. rewrite app_nil_r. reflexivity.
  - cbn [run forallb] in *. apply andb_true_iff in Hnc as [Hnc1 Hnc2].
    apply negb_true_iff in Hnc1.
    destruct (step s e) as [s1|] eqn:Hstep; [|discriminate].
    rewrite (IH s1 (step_inv _ _ _ Hinv Hstep) Hnc2 Hrun).
    rewrite (step_conserves _ _ _ Hinv Hnc1 Hstep).
    change (e :: events) with ([e] ++ events).
    rewrite accepted_app, app_assoc. reflexivity.
Qed.

(** C7. In every state the events can lead to, the deadline timer is
    pending exactly while chunks wait and it is the only pending timeout;
    without a clear, every accepted chunk lies in exactly one flushed
    window or still waits; the first chunk of a window arms the timer; the
    chunk that reaches the threshold flushes at once and cancels the timer,
    which can then no longer fire; and the deadline, when it comes first,
    flushes what waits and leaves no timer either. *)
Theorem window_flushed_once (events : list Event) (s : State) :
  run initial events = Some s ->
  window_inv s /\
  (forallb (fun e => negb (is_clear e)) events = true ->
   concat (map window (flushes s)) ++ bufferAggregator s = accepted events) /\
  (forall chunk, truthy chunk = true -> bufferAggregator s = [] ->
     let s' := playAudioChunk chunk s in
     bufferAggregator s' = [chunk] /\
     bufferTimer s' = Some (nextTimer s) /\
     timers s' = [nextTimer s] /\
     flushes s' = flushes s) /\
  (forall chunk, truthy chunk = true ->
     S (length (bufferAggregator s)) = BUFFER_CHUNK_THRESHOLD ->
     let s' := playAudioChunk chunk s in
     flushes s' = flushes s ++ [flush_of (bufferAggregator s ++ [chunk])] /\
     bufferAggregator s' = [] /\
     bufferTimer s' = None /\
     timers s' = [] /\
     forall t, step s' (TimerFired t) = None) /\
  (forall t, bufferTimer s = Some t ->
     exists s',
       step s (TimerFired t) = Some s' /\
       flushes s' = flushes s ++ [flush_of (bufferAggregator s)] /\
       bufferAggregator s' = [] /\
       bufferTimer s' = None /\
       timers s' = [] /\
       forall t', step s' (TimerFired t') = None).
Proof.
  intros Hrun.
  assert (Hinv : window_inv s) by (eapply run_inv; [apply initial_inv|exact Hrun]).
  split; [exact Hinv|]. split.
  - intros Hnc.
    rewrite (run_conserves _ _ _ initial_inv Hnc Hrun). reflexivity.
  - split; [|split].
    + intros chunk Htr Hagg. apply submit_first; assumption.
    + intros chunk Htr Hlen. apply submit_threshold; assumption.
    + intros t Hbt. apply deadline_flush; assumption.
Qed.

(** ** Well-formed chunks *)

Lemma well_formed_truthy (c : jsval) : well_formed c -> truthy c = true.
Proof.
  unfold well_formed, payload.
  destruct c; try congruence; try reflexivity.
  cbn [truthy]. destruct (String.eqb s ""); [congruence | reflexivity].
Qed.

Lemma well_formed_mime_ok (c : jsval) : well_formed c -> mime_ok c = true.
Proof.
  unfold well_formed, payload.
  destruct c; try congruence; try reflexivity.
  destruct (is_audio _); [|cbn; congruence].
  destruct (mime_ok _); [reflexivity | cbn; congruence].
Qed.

Lemma tagged_audio_string (s : string) : tagged_audio (JStr s) = false.
Proof.
  unfold tagged_audio. cbn. rewrite andb_false_r. reflexivity.
Qed.

Lemma well_formed_contribution (c : jsval) :
  well_formed c -> contribution c = [payload_bytes c].
Proof.
  unfold well_formed, payload_bytes, payload, contribution.
  destruct c as [| |b|n|s|bs|bs|fs]; try congruence; try reflexivity.
  - rewrite tagged_audio_string. cbn.
    destruct (String.eqb s ""); [congruence | reflexivity].
  - unfold tagged_audio. cbn [truthy typeof_object andb].
    destruct (is_audio (get (JObject fs) "type")); cbn [andb]; [|congruence].
    destruct (mime_ok (JObject fs)); [|congruence].
    destruct (get (JObject fs) "data"); cbn; congruence.
Qed.

Lemma well_formed_contributions (chunks : list jsval) :
  Forall well_formed chunks ->
  flat_map contribution chunks = map payload_bytes chunks.
Proof.
  induction 1 as [|c chunks Hc _ IH]; [reflexivity|].
  cbn [flat_map map]. rewrite IH, well_formed_contribution by assumption.
  reflexivity.
Qed.

Lemma flush_of_well_formed (chunks : list jsval) :
  chunks <> [] -> Forall well_formed chunks ->
  flush_of chunks =
  mkFlush chunks
    (Some (combinedChunk
             (mkCombined (concat (map payload_bytes chunks))
                (window_rate chunks OUTPUT_SAMPLE_RATE)))).
Proof.
  intros Hne Hwf. unfold flush_of.
  rewrite combine_spec; [| exact Hne |].
  - cbn [fst option_map]. rewrite well_formed_contributions by assumption.
    reflexivity.
  - eapply Forall_impl; [|exact Hwf]. apply well_formed_mime_ok.
Qed.

(** A chunk that neither opens the window nor fills it only waits. *)
Lemma submit_waits (chunk : jsval) (s : State) :
  truthy chunk = true -> length (bufferAggregator s) = 1%nat ->
  playAudioChunk chunk s =
  set_bufferAggregator (bufferAggregator s ++ [chunk]) s.
Proof.
  intros Htr Hlen. rewrite playAudioChunk_unfold by assumption. cbv zeta.
  rewrite length_app, Hlen. reflexivity.
Qed.

Lemma run_submit (chunk : jsval) (events : list Event) (s : State) :
  run s (Submit chunk :: events) = run (playAudioChunk chunk s) events.
Proof. reflexivity. Qed.

Lemma run_last (e : Event) (s s' : State) :
  step s e = Some s' -> run s [e] = Some s'.
Proof. intros H. cbn [run]. rewrite H. reflexivity. Qed.


(** ** Numbers and their decimal digits *)

Lemma digit_char_is_digit (d : Z) :
  0 <= d < 10 -> is_digit (digit_char d) = true.
Proof.
  intros Hd. unfold is_digit, digit_char.
  rewrite nat_ascii_embedding by lia.
  apply andb_true_iff. split; apply Nat.leb_le; lia.
Qed.

Lemma digit_val_char (d : Z) : 0 <= d < 10 -> digit_val (digit_char d) = d.
Proof.
  intros Hd. unfold digit_val, digit_char.
  rewrite nat_ascii_embedding by lia. lia.
Qed.

Lemma digit_val_range (c : ascii) : is_digit c = true -> 0 <= digit_val c < 10.
Proof.
  unfold is_digit, digit_val. intros H.
  apply andb_true_iff in H as [H1 H2].
  apply Nat.leb_le in H1, H2. lia.
Qed.

Lemma parse_digits_nonneg (s : string) (acc : Z) :
  all_digits s = true -> 0 <= acc -> 0 <= parse_digits acc s.
Proof.
  revert acc. induction s as [|c s IH]; intros acc Hs Hacc;
    cbn [all_digits parse_digits] in *.
  - exact Hacc.
  - apply andb_true_iff in Hs as [Hc Hs].
    apply IH; [exact Hs|]. pose proof (digit_val_range c Hc). lia.
Qed.

Lemma take_digits_all (s : string) : all_digits (take_digits s) = true.
Proof.
  induction s as [|c s IH]; cbn; [reflexivity|].
  destruct (is_digit c) eqn:Hc; cbn; [|reflexivity].
  rewrite Hc, IH. reflexivity.
Qed.

Lemma take_digits_id (s : string) : all_digits s = true -> take_digits s = s.
Proof.
  induction s as [|c s IH]; cbn; [reflexivity|].
  intros H. apply andb_true_iff in H as [Hc Hs].
  rewrite Hc, IH by assumption. reflexivity.
Qed.

Lemma digits_all (fuel : nat) (n : Z) (acc : string) :
  0 <= n -> all_digits acc = true -> all_digits (digits fuel n acc) = true.
Proof.
  revert n acc. induction fuel as [|fuel IH]; intros n acc Hn Hacc; cbn.
  - exact Hacc.
  - assert (Hd : all_digits (String (digit_char (n mod 10)) acc) = true).
    { cbn. rewrite Hacc, digit_char_is_digit; [reflexivity|].
      apply Z.mod_pos_bound. lia. }
    destruct (n / 10 =? 0); [exact Hd|].
    apply IH; [apply Z.div_pos; lia | exact Hd].
Qed.

Lemma digits_nonempty (fuel : nat) (n : Z) (acc : string) :
  digits (S fuel) n acc <> EmptyString.
Proof.
  revert n acc. induction fuel as [|fuel IH]; intros n acc.
  - cbn. destruct (n / 10 =? 0); discriminate.
  - cbn [digits]. destruct (n / 10 =? 0); [discriminate|]. apply IH.
Qed.

Lemma parse_digits_digits (fuel : nat) (n : Z) (rest : string) :
  0 <= n < 10 ^ Z.of_nat fuel ->
  exists k, forall acc,
    parse_digits acc (digits fuel n rest) = parse_digits (acc * k + n) rest.
Proof.
  revert n rest. induction fuel as [|fuel IH]; intros n rest Hn.
  - cbn in Hn. exists 1. intros acc. cbn. f_equal. lia.
  - cbn [digits].
    assert (Hm : 0 <= n mod 10 < 10) by (apply Z.mod_pos_bound; lia).
    pose proof (Z.div_mod n 10 ltac:(lia)) as Hdm.
    destruct (n / 10 =? 0) eqn:Hq.
    + apply Z.eqb_eq in Hq. exists 10. intros acc. cbn [parse_digits].
      rewrite digit_val_char by exact Hm. f_equal. lia.
    + assert (Hn' : 0 <= n / 10 < 10 ^ Z.of_nat fuel).
      { split; [apply Z.div_pos; lia|].
        apply Z.div_lt_upper_bound; [lia|].
        rewrite Nat2Z.inj_succ, Z.pow_succ_r in Hn by lia. lia. }
      destruct (IH (n / 10) (String (digit_char (n mod 10)) rest) Hn')
        as [k Hk].
      exists (10 * k). intros acc. rewrite Hk. cbn [parse_digits].
      rewrite digit_val_char by exact Hm. f_equal. lia.
Qed.

Lemma log2_fuel (n : Z) : 0 <= n -> n < 10 ^ Z.of_nat (S (Z.to_nat (Z.log2 n))).
Proof.
  intros Hn. rewrite Nat2Z.inj_succ, Z2Nat.id by apply Z.log2_nonneg.
  destruct (Z.eq_dec n 0) as [->|Hne].
  - cbn. lia.
  - pose proof (Z.log2_spec n ltac:(lia)) as [_ Hlt].
    eapply Z.lt_le_trans; [exact Hlt|].
    apply Z.pow_le_mono_l. lia.
Qed.

(** Printing a number and reading it back. *)
Lemma parseInt_toString (n : Z) : 0 <= n -> parseInt (Number_toString n) = n.
Proof.
  intros Hn. unfold parseInt, Number_toString.
  destruct (parse_digits_digits (S (Z.to_nat (Z.log2 n))) n EmptyString)
    as [k Hk].
  - split; [exact Hn | apply log2_fuel; exact Hn].
  - rewrite Hk. cbn. reflexivity.
Qed.

Lemma toString_digits (n : Z) :
  0 <= n ->
  all_digits (Number_toString n) = true /\ Number_toString n <> EmptyString.
Proof.
  intros Hn. unfold Number_toString. split.
  - apply digits_all; [exact Hn | reflexivity].
  - apply digits_nonempty.
Qed.

Lemma declared_rate_wrapper (n : Z) :
  0 <= n ->
  declared_rate (JStr ("audio/pcm;rate=" ++ Number_toString n)) =
  Normal (Some n).
Proof.
  intros Hn. destruct (toString_digits n Hn) as [Hall Hne].
  unfold declared_rate. cbn -[Number_toString].
  rewrite take_digits_id by exact Hall.
  replace (String.prefix "" (Number_toString n)) with true
    by (destruct (Number_toString n); reflexivity).
  cbn [orb].
  destruct (Number_toString n) eqn:E; [congruence|].
  rewrite <- E, parseInt_toString by exact Hn. reflexivity.
Qed.

(** ** When the encoder throws *)

Lemma checkInt_inv (buf : Buffer) (n : Z) (d : positive) (off ext : nat)
    (max min : Z) :
  checkInt buf (Qmake n d) off ext max min = Normal tt ->
  min * Zpos d <= n <= max * Zpos d.
Proof.
  unfold checkInt, Qle_bool, inject_Z. cbn [Qnum Qden].
  destruct (n * 1 <=? max * Zpos d) eqn:E1; [|discriminate].
  destruct (min * Zpos d <=? n * 1) eqn:E2; [|discriminate].
  intros _. apply Z.leb_le in E1, E2. lia.
Qed.

Lemma writeUInt32LE_inv (n : Z) (d : positive) (off : nat) (buf b' : Buffer) :
  writeUInt32LE (Qmake n d) off buf = Normal b' ->
  0 <= n <= 4294967295 * Zpos d.
Proof.
  unfold writeUInt32LE.
  destruct (checkInt buf (Qmake n d) off 4 4294967295 0) as [[]|] eqn:E;
    [|discriminate].
  intros _. apply checkInt_inv in E. lia.
Qed.

Lemma writeUInt16LE_inv (n : Z) (d : positive) (off : nat) (buf b' : Buffer) :
  writeUInt16LE (Qmake n d) off buf = Normal b' ->
  0 <= n <= 65535 * Zpos d.
Proof.
  unfold writeUInt16LE.
  destruct (checkInt buf (Qmake n d) off 2 65535 0) as [[]|] eqn:E;
    [|discriminate].
  intros _. apply checkInt_inv in E. lia.
Qed.

Ltac bind_inv H :=
  match type of H with
  | bind ?m _ = Normal _ =>
      let E := fresh "E" in
      destruct m eqn:E; cbn [bind] in H; [|discriminate H]
  end.

Lemma header_fits (r b c L : Z) (h : Buffer) :
  _createWavHeader r b c L = Normal h -> fits_header L r c b.
Proof.
  unfold _createWavHeader, inject_Z. intros H.
  do 9 bind_inv H.
  repeat match goal with
         | E : writeUInt32LE _ _ _ = Normal _ |- _ =>
             apply writeUInt32LE_inv in E
         | E : writeUInt16LE _ _ _ = Normal _ |- _ =>
             apply writeUInt16LE_inv in E
         end.
  unfold fits_header. lia.
Qed.

(** The encoder answers exactly when the fields fit. *)
Lemma encoder_total_iff (pcm : Buffer) (r c b : Z) :
  (exists wav, _createWavFromPcm pcm r c b = Normal wav) <->
  fits_header (Z.of_nat (length pcm)) r c b.
Proof.
  split.
  - intros [wav H]. unfold _createWavFromPcm in H.
    bind_inv H. eapply header_fits. eassumption.
  - intros Hfit. destruct (encode_layout pcm r c b Hfit) as (wav & H & _).
    exists wav. exact H.
Qed.

(** ** Playback queue *)

(** Every container [build] returns comes from the encoder, called with
    the module's channel count and bit depth. *)
Lemma build_inv (item : jsval) (wav : Buffer) :
  build item = inl wav ->
  exists pcm r,
    _createWavFromPcm pcm r OUTPUT_CHANNELS OUTPUT_BITS_PER_SAMPLE = Normal wav.
Proof.
  unfold build. intros H.
  destruct (if tagged_audio item then _ else _) as [[audioData rate]|e];
    [|discriminate].
  destruct (negb (truthy audioData)); [discriminate|].
  destruct audioData; try discriminate;
    match type of H with
    | context [_createWavFromPcm ?pcm ?r _ _] =>
        destruct (_createWavFromPcm pcm r OUTPUT_CHANNELS
                    OUTPUT_BITS_PER_SAMPLE) as [w|] eqn:E;
        [|discriminate];
        destruct (length w <? 44)%nat; [discriminate|];
        injection H as <-; exists pcm, r; exact E
    end.
Qed.

Lemma built_format (item : jsval) (wav : Buffer) :
  build item = inl wav ->
  readUInt16LE wav 22 = OUTPUT_CHANNELS /\
  readUInt16LE wav 34 = OUTPUT_BITS_PER_SAMPLE.
Proof.
  intros H. destruct (build_inv item wav H) as (pcm & r & E).
  assert (Hfit : fits_header (Z.of_nat (length pcm)) r OUTPUT_CHANNELS
                   OUTPUT_BITS_PER_SAMPLE).
  { apply encoder_total_iff. exists wav. exact E. }
  destruct (encode_layout pcm r _ _ Hfit) as (wav' & E' & L).
  rewrite E in E'. injection E' as <-.
  split; apply L.
Qed.

(** What [build] makes of the wrapper object of a merge result. *)
Lemma build_wrapper (combined : Combined) :
  0 <= sampleRate combined ->
  fits_header (Z.of_nat (length (data combined)))
    (effective_rate (sampleRate combined))
    OUTPUT_CHANNELS OUTPUT_BITS_PER_SAMPLE ->
  exists wav,
    build (combinedChunk combined) = inl wav /\
    skipn 44 wav = data combined /\
    readUInt32LE wav 24 = effective_rate (sampleRate combined).
Proof.
  intros Hr Hfit.
  destruct (encode_layout _ _ _ _ Hfit) as (wav & E & Hlen & Hpay & L).
  exists wav. split; [|split; [exact Hpay | apply L]].
  unfold build.
  replace (tagged_audio (combinedChunk combined)) with true by reflexivity.
  change (get (combinedChunk combined) "mimeType")
    with (JStr ("audio/pcm;rate=" ++ Number_toString (sampleRate combined))).
  rewrite declared_rate_wrapper by exact Hr. cbn [bind].
  change (get (combinedChunk combined) "data")
    with (JUint8Array (data combined)).
  cbn [truthy negb]. fold (effective_rate (sampleRate combined)).
  rewrite E, Hlen. reflexivity.
Qed.

Lemma cancel_timer_queue (s : State) :
  isPlaying (cancel_timer s) = isPlaying s /\
  audioQueue (cancel_timer s) = audioQueue s /\
  decoding (cancel_timer s) = decoding s /\
  rendering (cancel_timer s) = rendering s /\
  console (cancel_timer s) = console s /\
  bufferAggregator (cancel_timer s) = bufferAggregator s.
Proof.
  unfold cancel_timer. destruct (bufferTimer s); repeat split; reflexivity.
Qed.

(** What a flush hands to the queue: nothing, or one more item followed by
    a call of [_processQueue]. *)
Lemma flush_queue (s : State) :
  exists s0,
    isPlaying s0 = isPlaying s /\
    decoding s0 = decoding s /\
    rendering s0 = rendering s /\
    ((audioQueue s0 = audioQueue s /\ _processBufferedChunks s = s0) \/
     (exists item, audioQueue s0 = audioQueue s ++ [item] /\
                   _processBufferedChunks s = _processQueue s0)).
Proof.
  destruct (cancel_timer_queue s) as (Hp & Hq & Hd & Hr & _ & _).
  unfold _processBufferedChunks.
  destruct (bufferAggregator (cancel_timer s)) as [|c chunks].
  - exists (cancel_timer s). repeat split; auto.
  - destruct (_combineAudioChunks (c :: chunks)) as [[combined|] entries].
    + eexists. split; [|split; [|split; [|right; eexists; split;
        [|reflexivity]]]]; cbn; auto. rewrite Hq. reflexivity.
    + eexists. split; [|split; [|split; [|left; split; [|reflexivity]]]];
        cbn; auto.
Qed.

Lemma playAudioChunk_queue (chunk : jsval) (s : State) :
  exists s0,
    isPlaying s0 = isPlaying s /\
    decoding s0 = decoding s /\
    rendering s0 = rendering s /\
    ((audioQueue s0 = audioQueue s /\ playAudioChunk chunk s = s0) \/
     (exists item, audioQueue s0 = audioQueue s ++ [item] /\
                   playAudioChunk chunk s = _processQueue s0)).
Proof.
  unfold playAudioChunk.
  destruct (negb (truthy chunk)).
  { eexists. split; [|split; [|split; [|left; split; [|reflexivity]]]];
      reflexivity. }
  cbv zeta.
  set (x := if (length _ =? 1)%nat then _ else _).
  assert (Hx : isPlaying x = isPlaying s /\ decoding x = decoding s /\
               rendering x = rendering s /\ audioQueue x = audioQueue s)
    by (subst x; destruct (length _ =? 1)%nat; repeat split; reflexivity).
  clearbody x. destruct Hx as (Hp & Hd & Hr & Hq).
  destruct (BUFFER_CHUNK_THRESHOLD <=? _)%nat.
  - destruct (flush_queue x) as (s0 & A & B & C & D).
    exists s0. rewrite A, B, C, <- Hq. repeat split; auto.
  - exists x. repeat split; auto.
Qed.

Lemma drain_queue_inv (queue : list jsval) (s : State) :
  isPlaying s = false -> in_flight s = [] -> audioQueue s = queue ->
  queue_inv (drain queue s).
Proof.
  revert s. induction queue as [|item rest IH]; intros s Hp Hf Hq.
  - right. auto.
  - cbn [drain]. destruct (build item) as [wav|entries].
    + left. split; [reflexivity|].
      unfold in_flight in *. apply app_eq_nil in Hf as [Hd Hr].
      cbn. rewrite Hd, Hr. reflexivity.
    + apply IH; auto.
Qed.

Lemma processQueue_queue_inv (s : State) :
  (isPlaying s = true /\ length (in_flight s) = 1%nat) \/
  (isPlaying s = false /\ in_flight s = []) ->
  queue_inv (_processQueue s).
Proof.
  unfold _processQueue. intros [[Hp Hf]|[Hp Hf]]; rewrite Hp.
  - left. auto.
  - apply drain_queue_inv; auto.
Qed.

Lemma remove_nth_single {A : Type} (i : nat) (x y : A) :
  nth_error [x] i = Some y -> remove_nth i [x] = [].
Proof.
  destruct i as [|[|i]]; cbn; intros H; [reflexivity | discriminate..].
Qed.

Lemma in_flight_single (s : State) :
  length (in_flight s) = 1%nat ->
  (exists wav, decoding s = [wav] /\ rendering s = []) \/
  (exists wav, decoding s = [] /\ rendering s = [wav]).
Proof.
  unfold in_flight. rewrite length_app.
  destruct (decoding s) as [|w1 [|w2 d]], (rendering s) as [|r1 [|r2 r]];
    cbn; intros H; try lia; eauto.
Qed.

(** Without [clear], the queue keeps to one item in flight. *)
Lemma step_queue_inv (s s' : State) (e : Event) :
  queue_inv s -> resets_playing e = false -> step s e = Some s' ->
  queue_inv s'.
Proof.
  intros Hinv Hnc Hstep.
  assert (Hsub : forall s0, isPlaying s0 = isPlaying s ->
            decoding s0 = decoding s -> rendering s0 = rendering s ->
            (audioQueue s0 = audioQueue s ->  queue_inv s0) /\
            (forall item, audioQueue s0 = audioQueue s ++ [item] ->
                          queue_inv (_processQueue s0))).
  { intros s0 Hp Hd Hr. unfold queue_inv, in_flight in *. split.
    - intros Hq. rewrite Hp, Hd, Hr, Hq. exact Hinv.
    - intros item Hq. apply processQueue_queue_inv. unfold in_flight.
      rewrite Hp, Hd, Hr. destruct Hinv as [[A B]|[A [B C]]]; auto. }
  destruct e as [chunk|t|i started|i|i| |]; cbn [step] in Hstep;
    try discriminate.
  - injection Hstep as <-.
    destruct (playAudioChunk_queue chunk s)
      as (s0 & Hp & Hd & Hr & [[Hq ->]|[item [Hq ->]]]);
      destruct (Hsub s0 Hp Hd Hr) as [H1 H2]; eauto.
  - destruct (existsb (Pos.eqb t) (timers s)); [|discriminate].
    injection Hstep as <-.
    match goal with |- queue_inv (_processBufferedChunks ?x) =>
      destruct (flush_queue x)
        as (s0 & Hp & Hd & Hr & [[Hq ->]|[item [Hq ->]]]) end;
      destruct (Hsub s0 Hp Hd Hr) as [H1 H2]; eauto.
  - destruct (nth_error (decoding s) i) as [wav|] eqn:Hn; [|discriminate].
    injection Hstep as <-.
    destruct Hinv as [[Hp Hf]|[Hp [Hf Hq]]].
    2:{ unfold in_flight in Hf. apply app_eq_nil in Hf as [Hd _].
        rewrite Hd in Hn. destruct i; discriminate. }
    destruct (in_flight_single s Hf) as [(w & Hd & Hr)|(w & Hd & Hr)].
    2:{ rewrite Hd in Hn. destruct i; discriminate. }
    rewrite Hd in *. rewrite (remove_nth_single _ _ _ Hn).
    unfold decoded. destruct started.
    + left. unfold in_flight. cbn. rewrite Hr. auto.
    + apply processQueue_queue_inv. right. unfold in_flight. cbn.
      rewrite Hr. auto.
  - destruct (nth_error (decoding s) i) as [wav|] eqn:Hn; [|discriminate].
    injection Hstep as <-.
    destruct Hinv as [[Hp Hf]|[Hp [Hf Hq]]].
    2:{ unfold in_flight in Hf. apply app_eq_nil in Hf as [Hd _].
        rewrite Hd in Hn. destruct i; discriminate. }
    destruct (in_flight_single s Hf) as [(w & Hd & Hr)|(w & Hd & Hr)].
    2:{ rewrite Hd in Hn. destruct i; discriminate. }
    rewrite Hd in *. rewrite (remove_nth_single _ _ _ Hn).
    unfold decode_failed.
    apply processQueue_queue_inv. right. unfold in_flight. cbn.
    rewrite Hr. auto.
  - destruct (nth_error (rendering s) i) as [wav|] eqn:Hn; [|discriminate].
    injection Hstep as <-.
    destruct Hinv as [[Hp Hf]|[Hp [Hf Hq]]].
    2:{ unfold in_flight in Hf. apply app_eq_nil in Hf as [_ Hr].
        rewrite Hr in Hn. destruct i; discriminate. }
    destruct (in_flight_single s Hf) as [(w & Hd & Hr)|(w & Hd & Hr)].
    1:{ rewrite Hr in Hn. destruct i; discriminate. }
    rewrite Hr in *. rewrite (remove_nth_single _ _ _ Hn).
    unfold onended.
    apply processQueue_queue_inv. right. unfold in_flight. cbn.
    rewrite Hd. auto.
Qed.

Lemma run_queue_inv (events : list Event) (s s' : State) :
  queue_inv s ->
  forallb (fun e => negb (resets_playing e)) events = true ->
  run s events = Some s' -> queue_inv s'.
Proof.
  revert s. induction events as [|e events IH]; intros s Hinv Hnc Hrun.
  - injection Hrun as <-. exact Hinv.
  - cbn [run forallb] in *. apply andb_true_iff in Hnc as [Hnc1 Hnc2].
    apply negb_true_iff in Hnc1.
    destruct (step s e) as [s1|] eqn:Hstep; [|discriminate].
    eapply IH; [|exact Hnc2|exact Hrun].
    eapply step_queue_inv; eassumption.
Qed.

(** ** The format of every container *)

Lemma remove_nth_incl {A : Type} (i : nat) (l : list A) (x : A) :
  In x (remove_nth i l) -> In x l.
Proof.
  unfold remove_nth. revert i. induction l as [|y l IH]; intros i H.
  - destruct i; cbn in H; contradiction.
  - destruct i as [|i]; cbn in H.
    + right. exact H.
    + destruct H as [H|H]; [left; exact H | right; eapply IH; exact H].
Qed.

Lemma drain_formats (queue : list jsval) (s : State) :
  Forall format_ok (decoding s) -> Forall format_ok (decoding (drain queue s)).
Proof.
  revert s. induction queue as [|item rest IH]; intros s H.
  - exact H.
  - cbn [drain]. destruct (build item) as [wav|entries] eqn:E.
    + cbn. apply Forall_app. split; [exact H|].
      constructor; [|constructor]. eapply built_format; exact E.
    + apply IH. exact H.
Qed.

Lemma processQueue_formats (s : State) :
  Forall format_ok (in_flight s) -> Forall format_ok (in_flight (_processQueue s)).
Proof.
  unfold in_flight. intros H. apply Forall_app in H as [Hd Hr].
  destruct (processQueue_same_window s) as (_ & _ & _ & _ & Hr' & _).
  apply Forall_app. split; [|rewrite Hr'; exact Hr].
  unfold _processQueue. destruct (isPlaying s); [exact Hd|].
  apply drain_formats. exact Hd.
Qed.

Lemma step_formats (s s' : State) (e : Event) :
  Forall format_ok (in_flight s) -> step s e = Some s' ->
  Forall format_ok (in_flight s').
Proof.
  intros H Hstep.
  assert (Hsame : forall s0, decoding s0 = decoding s ->
            rendering s0 = rendering s -> Forall format_ok (in_flight s0)).
  { intros s0 Hd Hr. unfold in_flight. rewrite Hd, Hr. exact H. }
  destruct e as [chunk|t|i started|i|i| |]; cbn [step] in Hstep.
  - injection Hstep as <-.
    destruct (playAudioChunk_queue chunk s)
      as (s0 & _ & Hd & Hr & [[_ ->]|[item [_ ->]]]);
      [|apply processQueue_formats]; apply Hsame; assumption.
  - destruct (existsb (Pos.eqb t) (timers s)); [|discriminate].
    injection Hstep as <-.
    match goal with |- context [_processBufferedChunks ?x] =>
      destruct (flush_queue x)
        as (s0 & _ & Hd & Hr & [[_ ->]|[item [_ ->]]]) end;
      [|apply processQueue_formats]; apply Hsame; assumption.
  - destruct (nth_error (decoding s) i) as [wav|] eqn:Hn; [|discriminate].
    injection Hstep as <-.
    unfold in_flight in H. apply Forall_app in H as [Hd Hr].
    assert (Hwav : format_ok wav).
    { eapply Forall_forall; [exact Hd|]. eapply nth_error_In; exact Hn. }
    assert (Hd' : Forall format_ok (remove_nth i (decoding s))).
    { apply Forall_forall. intros x Hx. eapply Forall_forall; [exact Hd|].
      eapply remove_nth_incl; exact Hx. }
    unfold decoded. destruct started.
    + unfold in_flight. cbn. apply Forall_app. split; [exact Hd'|].
      apply Forall_app. split; [exact Hr|]. constructor; auto.
    + apply processQueue_formats. unfold in_flight. cbn.
      apply Forall_app. auto.
  - destruct (nth_error (decoding s) i) as [wav|] eqn:Hn; [|discriminate].
    injection Hstep as <-.
    unfold in_flight in H. apply Forall_app in H as [Hd Hr].
    unfold decode_failed. apply processQueue_formats. unfold in_flight. cbn.
    apply Forall_app. split; [|exact Hr].
    apply Forall_forall. intros x Hx. eapply Forall_forall; [exact Hd|].
    eapply remove_nth_incl; exact Hx.
  - destruct (nth_error (rendering s) i) as [wav|] eqn:Hn; [|discriminate].
    injection Hstep as <-.
    unfold in_flight in H. apply Forall_app in H as [Hd Hr].
    unfold onended. apply processQueue_formats. unfold in_flight. cbn.
    apply Forall_app. split; [exact Hd|].
    apply Forall_forall. intros x Hx. eapply Forall_forall; [exact Hr|].
    eapply remove_nth_incl; exact Hx.
  - injection Hstep as <-.
    destruct (clear_fields s) as (_ & _ & _ & _ & _ & _ & Hd & Hr & _).
    apply Hsame; assumption.
  - injection Hstep as <-. apply Hsame; reflexivity.
Qed.

Lemma run_formats (events : list Event) (s s' : State) :
  Forall format_ok (in_flight s) -> run s events = Some s' ->
  Forall format_ok (in_flight s').
Proof.
  revert s. induction events as [|e events IH]; intros s H Hrun.
  - injection Hrun as <-. exact H.
  - cbn [run] in Hrun.
    destruct (step s e) as [s1|] eqn:Hstep; [|discriminate].
    eapply IH; [|exact Hrun]. eapply step_formats; eassumption.
Qed.

(** C10. Whatever is submitted and whatever the platform answers, every
    container the queue has built, in decoding or in rendering, declares
    one channel and sixteen bits per sample in its header; and so does
    any container [build] returns, whatever the item. *)
Theorem containers_mono_16bit (events : list Event) (s : State) :
  run initial events = Some s ->
  (forall wav, In wav (in_flight s) ->
     readUInt16LE wav 22 = 1 /\ readUInt16LE wav 34 = 16) /\
  (forall item wav, build item = inl wav ->
     readUInt16LE wav 22 = 1 /\ readUInt16LE wav 34 = 16).
Proof.
  intros Hrun. split; [|intros item wav; apply built_format].
  assert (H : Forall format_ok (in_flight s)).
  { eapply run_formats; [|exact Hrun]. constructor. }
  intros wav Hin. eapply Forall_forall in H; [exact H | exact Hin].
Qed.

(** ** Failures advance the queue *)

Lemma drain_progress (queue : list jsval) (s : State) :
  isPlaying s = false -> audioQueue s = queue ->
  let s' := drain queue s in
  (isPlaying s' = false /\ audioQueue s' = [] /\ decoding s' = decoding s /\
   Forall gives_up queue) \/
  (isPlaying s' = true /\
   exists skipped item wav,
     queue = skipped ++ item :: audioQueue s' /\
     Forall gives_up skipped /\
     build item = inl wav /\
     decoding s' = decoding s ++ [wav]).
Proof.
  revert s. induction queue as [|item rest IH]; intros s Hp Hq; cbv zeta.
  - left. cbn. auto.
  - cbn [drain]. destruct (build item) as [wav|entries] eqn:E.
    + right. split; [reflexivity|]. exists [], item, wav. cbn. auto.
    + match goal with |- context [drain rest ?x] =>
        destruct (IH x eq_refl eq_refl)
          as [(A & B & C & D)|(A & sk & it & w & B & C & D & F)] end.
      * left. repeat split; auto. constructor; [eexists; exact E | exact D].
      * right. split; [exact A|]. exists (item :: sk), it, w.
        repeat split; auto.
        -- cbn. f_equal. exact B.
        -- constructor; [eexists; exact E | exact C].
Qed.

Lemma give_up_next (s : State) (item : jsval) (rest : list jsval)
    (entries : list LogEntry) :
  isPlaying s = false -> audioQueue s = item :: rest ->
  build item = inr entries ->
  _processQueue s = _processQueue (log entries (set_audioQueue rest s)).
Proof.
  intros Hp Hq Hb. unfold _processQueue. rewrite Hp. cbn [isPlaying log
    set_audioQueue]. rewrite Hp, Hq. cbn [drain audioQueue log set_audioQueue].
  rewrite Hb. f_equal.
  destruct s; cbn in *; subst; reflexivity.
Qed.

(** C5. An item whose render fails is given up like one whose render
    completed: a rejected decode and a player that cannot start run the
    completion handler (after printing); an item that yields no container
    (null data, unsupported shape, encoder failure) is dropped within the
    call and the call goes on with the rest of the queue; and after the
    handler the queue is either idle and empty, or playing with the decode
    of the first item that does yield a container newly started. *)
Theorem failure_advances_queue (s : State) :
  decode_failed s =
    onended (log [Error "AudioOutputService: Error playing audio:"] s) /\
  (forall wav,
     decoded wav false s =
       onended (log [Error "AudioOutputService: Error playing sound:";
                     Error "AudioOutputService: Failed to play audio"] s)) /\
  (forall i wav, nth_error (decoding s) i = Some wav ->
     step s (DecodeRejected i) =
       Some (onended
               (log [Error "AudioOutputService: Error playing audio:"]
                  (set_decoding (remove_nth i (decoding s)) s)))) /\
  (forall item rest entries,
     isPlaying s = false -> audioQueue s = item :: rest ->
     build item = inr entries ->
     _processQueue s = _processQueue (log entries (set_audioQueue rest s))) /\
  (let s' := onended s in
   (isPlaying s' = false /\ audioQueue s' = [] /\ decoding s' = decoding s /\
    Forall gives_up (audioQueue s)) \/
   (isPlaying s' = true /\
    exists skipped item wav,
      audioQueue s = skipped ++ item :: audioQueue s' /\
      Forall gives_up skipped /\
      build item = inl wav /\
      decoding s' = decoding s ++ [wav])).
Proof.
  split; [reflexivity|]. split; [reflexivity|]. split.
  - intros i wav Hn. cbn [step]. rewrite Hn. reflexivity.
  - split.
    + intros item rest entries. apply give_up_next.
    + cbv zeta. unfold onended, _processQueue.
      cbn [isPlaying set_isPlaying audioQueue].
      apply (drain_progress (audioQueue s) (set_isPlaying false s));
        reflexivity.
Qed.

(** ** The rate of a window *)

Lemma window_rate_none (chunks : list jsval) (default : Z) :
  Forall (fun c => annotation c = None) chunks ->
  window_rate chunks default = default.
Proof.
  induction 1 as [|c chunks Hc _ IH]; [reflexivity|].
  cbn [window_rate]. rewrite Hc. exact IH.
Qed.

Lemma window_rate_last (pre post : list jsval) (c : jsval) (r default : Z) :
  annotation c = Some r ->
  Forall (fun c' => annotation c' = None) post ->
  window_rate (pre ++ c :: post) default = r.
Proof.
  intros Hc Hpost. revert default.
  induction pre as [|p pre IH]; intros default; cbn [app window_rate].
  - rewrite Hc. apply window_rate_none. exact Hpost.
  - apply IH.
Qed.

Lemma match_rate_digits (m ds : string) :
  match_rate m = Some ds -> all_digits ds = true.
Proof.
  induction m as [|c m IH]; cbn [match_rate]; [discriminate|].
  destruct (String.prefix "rate=" (String c m)); [|exact IH].
  destruct (take_digits (drop 5 (String c m))) eqn:E; [exact IH|].
  intros H. injection H as <-. rewrite <- E. apply take_digits_all.
Qed.

Lemma annotation_nonneg (c : jsval) (r : Z) : annotation c = Some r -> 0 <= r.
Proof.
  unfold annotation, declared_rate.
  destruct (tagged_audio c); [|discriminate].
  destruct (truthy (get c "mimeType")); [|discriminate].
  destruct (get c "mimeType"); try discriminate.
  destruct (includes "rate=" s); [|discriminate].
  destruct (match_rate s) as [ds|] eqn:E; [|discriminate].
  intros H. injection H as <-.
  apply parse_digits_nonneg; [|lia]. eapply match_rate_digits. exact E.
Qed.

Lemma window_rate_nonneg (chunks : list jsval) (default : Z) :
  0 <= default -> 0 <= window_rate chunks default.
Proof.
  revert default. induction chunks as [|c chunks IH]; intros default Hd.
  - exact Hd.
  - cbn [window_rate]. apply IH.
    destruct (annotation c) as [r|] eqn:E; [|exact Hd].
    eapply annotation_nonneg. exact E.
Qed.

(** C6, as the code has it. A flushed window whose mimeTypes are strings
    or absent yields a merge result whose rate is the annotation of the
    last chunk that carries one, and 24000 when none does; the container
    built from it, when its header fields fit, carries the payload and
    that rate, except that a rate of 0 gives way to the default 24000. *)
Theorem window_rate_last_wins (chunks : list jsval) :
  chunks <> [] ->
  Forall (fun c => mime_ok c = true) chunks ->
  exists combined,
    _combineAudioChunks chunks = (Some combined, []) /\
    (forall pre c post r,
       chunks = pre ++ c :: post -> annotation c = Some r ->
       Forall (fun c' => annotation c' = None) post ->
       sampleRate combined = r) /\
    (Forall (fun c => annotation c = None) chunks ->
     sampleRate combined = OUTPUT_SAMPLE_RATE) /\
    (fits_header (Z.of_nat (length (data combined)))
       (effective_rate (sampleRate combined))
       OUTPUT_CHANNELS OUTPUT_BITS_PER_SAMPLE ->
     exists wav,
       build (combinedChunk combined) = inl wav /\
       skipn 44 wav = data combined /\
       readUInt32LE wav 24 =
         if sampleRate combined =? 0 then OUTPUT_SAMPLE_RATE
         else sampleRate combined).
Proof.
  intros Hne Hok. eexists. split; [apply combine_spec; assumption|].
  cbn [sampleRate data]. split; [|split].
  - intros pre c post r -> Hc Hpost. apply window_rate_last; assumption.
  - apply window_rate_none.
  - intros Hfit.
    apply (build_wrapper (mkCombined _ _)); [|exact Hfit].
    cbn [sampleRate]. apply window_rate_nonneg. unfold OUTPUT_SAMPLE_RATE. lia.
Qed.

(** ** Chunks of unsupported shape *)

(** C8, as the code has it. A chunk of unsupported shape changes neither
    the merge result of its window nor what the merge prints: it is
    dropped without a word, and when the other chunks are well formed the
    result is the concatenation of their payloads and nothing is
    printed. *)
Theorem unsupported_chunk_dropped (pre post : list jsval) (bad : jsval) :
  unsupported bad = true ->
  pre ++ post <> [] ->
  _combineAudioChunks (pre ++ bad :: post) = _combineAudioChunks (pre ++ post) /\
  (Forall well_formed (pre ++ post) ->
   _combineAudioChunks (pre ++ bad :: post) =
   (Some (mkCombined (concat (map payload_bytes (pre ++ post)))
            (window_rate (pre ++ post) OUTPUT_SAMPLE_RATE)), [])).
Proof.
  intros Hbad Hne.
  assert (Heq : _combineAudioChunks (pre ++ bad :: post)
                = _combineAudioChunks (pre ++ post)).
  { unfold _combineAudioChunks.
    rewrite (collect_skips_unsupported pre post bad Hbad).
    destruct (pre ++ post) eqn:E1; [contradiction|].
    destruct (pre ++ bad :: post) eqn:E2; [|reflexivity].
    destruct pre; discriminate. }
  split; [exact Heq|].
  intros Hwf. rewrite Heq, combine_spec.
  - rewrite well_formed_contributions by exact Hwf. reflexivity.
  - exact Hne.
  - eapply Forall_impl; [|exact Hwf]. apply well_formed_mime_ok.
Qed.

(** ** Temp-file sweep *)

Lemma leb_trans (a b c : string) :
  String.leb a b = true -> String.leb b c = true -> String.leb a c = true.
Proof.
  unfold String.leb. revert b c.
  induction a as [|ca a IH]; intros [|cb b] [|cc c]; cbn [String.compare];
    try reflexivity; try discriminate.
  destruct (Ascii.compare ca cb) eqn:E1; try discriminate;
    destruct (Ascii.compare cb cc) eqn:E2; try discriminate.
  - apply Ascii.compare_eq_iff in E1, E2. subst.
    replace (Ascii.compare cc cc) with Eq
      by (symmetry; unfold Ascii.compare; apply N.compare_refl).
    apply IH.
  - apply Ascii.compare_eq_iff in E1. subst. rewrite E2. reflexivity.
  - apply Ascii.compare_eq_iff in E2. subst. rewrite E1. reflexivity.
  - unfold Ascii.compare in *. rewrite N.compare_lt_iff in E1, E2.
    replace (N_of_ascii ca ?= N_of_ascii cc)%N with Lt; [reflexivity|].
    symmetry. apply N.compare_lt_iff. lia.
Qed.

Lemma insert_perm (x : string) (l : list string) :
  Permutation (insert x l) (x :: l).
Proof.
  induction l as [|y l IH]; cbn; [reflexivity|].
  destruct (String.leb x y); [reflexivity|].
  rewrite IH. apply perm_swap.
Qed.

Lemma sort_perm (l : list string) : Permutation (sort l) l.
Proof.
  induction l as [|x l IH]; cbn; [reflexivity|].
  rewrite insert_perm, IH. reflexivity.
Qed.

Lemma insert_sorted (x : string) (l : list string) :
  StronglySorted (fun a b => String.leb a b = true) l ->
  StronglySorted (fun a b => String.leb a b = true) (insert x l).
Proof.
  induction 1 as [|y l Hs IH Hy]; cbn.
  - constructor; constructor.
  - destruct (String.leb x y) eqn:E.
    + constructor; [constructor; assumption|].
      constructor; [exact E|].
      eapply Forall_impl; [|exact Hy]. intros z Hz.
      eapply leb_trans; eassumption.
    + constructor; [exact IH|].
      apply Forall_forall. intros z Hz.
      apply (Permutation_in _ (insert_perm x l)) in Hz.
      destruct Hz as [<-|Hz].
      * destruct (String.leb_total x y) as [H|H]; congruence.
      * eapply Forall_forall in Hy; eassumption.
Qed.

Lemma sort_sorted (l : list string) :
  StronglySorted (fun a b => String.leb a b = true) (sort l).
Proof.
  induction l as [|x l IH]; cbn; [constructor|].
  apply insert_sorted. exact IH.
Qed.

Lemma sorted_app {A : Type} (R : A -> A -> Prop) (l1 l2 : list A) :
  StronglySorted R l1 -> StronglySorted R l2 ->
  (forall x y, In x l1 -> In y l2 -> R x y) ->
  StronglySorted R (l1 ++ l2).
Proof.
  induction 1 as [|a l1 Hs IH Ha]; intros H2 Hx; cbn; [exact H2|].
  constructor.
  - apply IH; [exact H2|]. intros x y Hx1 Hy. apply Hx; [right|]; assumption.
  - apply Forall_app. split; [exact Ha|].
    apply Forall_forall. intros y Hy. apply Hx; [left; reflexivity | exact Hy].
Qed.

Lemma sorted_rev {A : Type} (R : A -> A -> Prop) (l : list A) :
  StronglySorted R l -> StronglySorted (fun a b => R b a) (rev l).
Proof.
  induction 1 as [|a l Hs IH Ha]; cbn; [constructor|].
  apply sorted_app; [exact IH | constructor; constructor |].
  intros x y Hx [<-|[]]. apply in_rev in Hx.
  eapply Forall_forall in Ha; eassumption.
Qed.

Lemma in_skipn {A : Type} (n : nat) (l : list A) (y : A) :
  In y (skipn n l) -> In y l.
Proof.
  revert n. induction l as [|a l IH]; intros n H.
  - destruct n; exact H.
  - destruct n as [|n]; [exact H | right; eapply IH; exact H].
Qed.

Lemma sorted_split {A : Type} (R : A -> A -> Prop) (n : nat) (l : list A) :
  StronglySorted R l ->
  forall x y, In x (firstn n l) -> In y (skipn n l) -> R x y.
Proof.
  intros Hs. revert n. induction Hs as [|a l Hs IH Ha]; intros n x y Hx Hy.
  - destruct n; cbn in Hx; contradiction.
  - destruct n as [|n]; cbn in Hx, Hy; [contradiction|].
    destruct Hx as [<-|Hx].
    + eapply Forall_forall in Ha; [exact Ha|].
      eapply in_skipn. exact Hy.
    + eapply IH; eassumption.
Qed.

Lemma nodup_disjoint {A : Type} (l1 l2 : list A) (a : A) :
  NoDup (l1 ++ l2) -> In a l1 -> In a l2 -> False.
Proof.
  intros Hnd H1 H2. apply in_split in H2 as (x & y & ->).
  rewrite app_assoc in Hnd. apply NoDup_remove_2 in Hnd.
  apply Hnd. apply in_or_app. left. apply in_or_app. left. exact H1.
Qed.

Lemma existsb_eqb_in (name : string) (names : list string) :
  existsb (String.eqb name) names = true <-> In name names.
Proof.
  rewrite existsb_exists. split.
  - intros (x & Hx & E). apply String.eqb_eq in E. subst. exact Hx.
  - intros H. exists name. split; [exact H | apply String.eqb_refl].
Qed.

(** With a file system that lets every deletion through, the loop removes
    exactly the names it is given. *)
Lemma delete_each_ok (names : list string) (fs : FileSystem) :
  NoDup names -> incl names (entries fs) ->
  (forall n, In n names -> deleteFails fs n = false) ->
  exists fs',
    delete_each names fs = (fs', Normal tt) /\
    entries fs' =
      filter (fun n => negb (existsb (String.eqb n) names)) (entries fs).
Proof.
  revert fs. induction names as [|name rest IH]; intros fs Hnd Hincl Hdel.
  - exists fs. split; [reflexivity|]. cbn. rewrite filter_true. reflexivity.
  - cbn [delete_each]. unfold deleteAsync.
    rewrite (Hdel name) by (left; reflexivity).
    assert (Hin : existsb (String.eqb name) (entries fs) = true)
      by (apply existsb_eqb_in, Hincl; left; reflexivity).
    rewrite Hin. cbn [negb orb].
    inversion Hnd as [|? ? Hnotin Hnd']; subst.
    match goal with |- context [delete_each rest ?x] =>
      destruct (IH x Hnd') as (fs' & Hrun & Hent) end.
    + intros n Hn. cbn [entries]. apply filter_In. split.
      * apply Hincl. right. exact Hn.
      * apply negb_true_iff. apply String.eqb_neq. intros ->. contradiction.
    + intros n Hn. cbn [deleteFails]. apply Hdel. right. exact Hn.
    + exists fs'. split; [exact Hrun|]. rewrite Hent. cbn [entries].
      clear. induction (entries fs) as [|e es IHes]; [reflexivity|].
      cbn [filter existsb].
      destruct (String.eqb e name) eqn:E; cbn [negb orb].
      * exact IHes.
      * cbn [filter]. destruct (negb (existsb (String.eqb e) rest));
          [f_equal|]; exact IHes.
Qed.

Lemma ranked_perm (fs : FileSystem) :
  Permutation (ranked fs) (filter is_audio_temp (entries fs)).
Proof.
  unfold ranked. rewrite <- Permutation_rev. apply sort_perm.
Qed.

Lemma ranked_descending (fs : FileSystem) :
  StronglySorted (fun a b => String.leb b a = true) (ranked fs).
Proof. unfold ranked. apply sorted_rev, sort_sorted. Qed.

Lemma cleanup_ok (fs : FileSystem) :
  readFails fs = false ->
  (forall n, deleteFails fs n = false) ->
  NoDup (entries fs) ->
  exists fs',
    cleanupTempFiles fs = (fs', Normal tt, []) /\
    entries fs' =
      filter (fun n => negb (existsb (String.eqb n) (deleted fs))) (entries fs).
Proof.
  intros Hread Hdel Hnd.
  unfold cleanupTempFiles, sweep, readDirectoryAsync. rewrite Hread.
  cbv zeta. fold (ranked fs). fold (deleted fs).
  destruct (5 <? length (filter is_audio_temp (entries fs)))%nat eqn:Hlen.
  - destruct (delete_each_ok (deleted fs) fs) as (fs' & Hrun & Hent).
    + assert (NoDup (ranked fs)).
      { eapply Permutation_NoDup; [symmetry; apply ranked_perm|].
        apply NoDup_filter. exact Hnd. }
      unfold deleted. rewrite <- (firstn_skipn 5 (ranked fs)) in H.
      apply NoDup_app_remove_l in H. exact H.
    + intros n Hn. unfold deleted in Hn. apply in_skipn in Hn.
      apply (Permutation_in _ (ranked_perm fs)) in Hn.
      apply filter_In in Hn. apply Hn.
    + intros n _. apply Hdel.
    + rewrite Hrun. exists fs'. split; [reflexivity | exact Hent].
  - exists fs. split; [reflexivity|].
    assert (Hnone : deleted fs = []).
    { unfold deleted. apply skipn_all2. apply Nat.ltb_ge in Hlen.
      rewrite (Permutation_length (ranked_perm fs)). exact Hlen. }
    rewrite Hnone. cbn. rewrite filter_true. reflexivity.
Qed.

(** *** Names and creation times *)

Lemma digit_lt (a b : ascii) :
  Ascii.compare a b = Lt -> digit_val a < digit_val b.
Proof.
  unfold Ascii.compare, digit_val, nat_of_ascii.
  rewrite N.compare_lt_iff. lia.
Qed.

Lemma num_lt (a b : string) :
  String.length a = String.length b ->
  all_digits a = true -> all_digits b = true ->
  forall acc1 acc2, acc1 < acc2 -> parse_digits acc1 a < parse_digits acc2 b.
Proof.
  revert b. induction a as [|ca a IH]; intros [|cb b] Hlen Ha Hb acc1 acc2 Hacc;
    cbn in Hlen; try discriminate; cbn [parse_digits all_digits] in *.
  - exact Hacc.
  - apply andb_true_iff in Ha as [Hca Ha], Hb as [Hcb Hb].
    apply IH; auto.
    pose proof (digit_val_range ca Hca). pose proof (digit_val_range cb Hcb).
    lia.
Qed.

Lemma num_le (a b x y : string) :
  String.length a = String.length b ->
  all_digits a = true -> all_digits b = true ->
  String.leb (a ++ x) (b ++ y) = true ->
  forall acc, parse_digits acc a <= parse_digits acc b.
Proof.
  revert b. induction a as [|ca a IH]; intros [|cb b] Hlen Ha Hb Hle acc;
    cbn in Hlen; try discriminate; cbn [parse_digits all_digits] in *.
  - lia.
  - apply andb_true_iff in Ha as [Hca Ha], Hb as [Hcb Hb].
    unfold String.leb in Hle. cbn [String.append String.compare] in Hle.
    destruct (Ascii.compare ca cb) eqn:E; [| |discriminate].
    + apply Ascii.compare_eq_iff in E. subst cb.
      apply IH; auto.
    + apply Z.lt_le_incl. apply num_lt; auto.
      pose proof (digit_lt _ _ E). lia.
Qed.

Lemma take_digits_stamp (ts rest : string) :
  all_digits ts = true -> take_digits (ts ++ String "_" rest) = ts.
Proof.
  induction ts as [|c ts IH]; cbn; [reflexivity|].
  intros H. apply andb_true_iff in H as [Hc Hts].
  rewrite Hc, IH by exact Hts. reflexivity.
Qed.

(** Among stamped names the order of the sort is the order of creation. *)
Lemma stamped_order (d k : string) :
  stamped d -> stamped k -> String.leb d k = true ->
  timestamp d <= timestamp k.
Proof.
  intros (td & rd & -> & Hld & Hd) (tk & rk & -> & Hlk & Hk) Hle.
  unfold timestamp. cbn [String.append drop].
  rewrite !take_digits_stamp by assumption.
  unfold parseInt. eapply num_le; try eassumption; [congruence|].
  unfold String.leb in *. cbn in Hle. exact Hle.
Qed.

(** C9. A sweep never fails towards its caller: the promise is fulfilled
    whatever the file system does, and a failure of the file system is
    printed. When the file system works, the sweep deletes all matching
    audio temp files but the five greatest names and nothing else; the
    names it keeps sort at or above every name it deletes, so that among
    names stamped by the encoder the kept files are the most recent. *)
Theorem sweep_keeps_five_newest (fs : FileSystem) :
  (exists fs' printed,
     cleanupTempFiles fs = (fs', Normal tt, printed) /\
     (forall e, snd (sweep fs) = Throw e ->
        printed =
        [Error "AudioOutputService: Error cleaning up temp files:"])) /\
  (readFails fs = false ->
   (forall n, deleteFails fs n = false) ->
   NoDup (entries fs) ->
   exists fs',
     cleanupTempFiles fs = (fs', Normal tt, []) /\
     (forall n, In n (entries fs') <->
                In n (entries fs) /\ (is_audio_temp n = false \/ In n (kept fs))) /\
     Permutation (kept fs ++ deleted fs) (filter is_audio_temp (entries fs)) /\
     length (kept fs) = Nat.min 5 (length (filter is_audio_temp (entries fs))) /\
     (forall k d, In k (kept fs) -> In d (deleted fs) ->
        String.leb d k = true /\
        (stamped k -> stamped d -> timestamp d <= timestamp k))).
Proof.
  split.
  - unfold cleanupTempFiles. destruct (sweep fs) as [fs' [[]|e]]; cbn [snd].
    + exists fs', []. split; [reflexivity | discriminate].
    + eexists fs', _. split; [reflexivity | reflexivity].
  - intros Hread Hdel Hnd.
    destruct (cleanup_ok fs Hread Hdel Hnd) as (fs' & Hrun & Hent).
    exists fs'. split; [exact Hrun|].
    assert (Hperm : Permutation (kept fs ++ deleted fs)
                      (filter is_audio_temp (entries fs))).
    { unfold kept, deleted. rewrite firstn_skipn. apply ranked_perm. }
    assert (Hndr : NoDup (kept fs ++ deleted fs)).
    { eapply Permutation_NoDup; [symmetry; exact Hperm|].
      apply NoDup_filter. exact Hnd. }
    split; [|split; [exact Hperm|split]].
    + intros n. rewrite Hent, filter_In, negb_true_iff.
      split.
      * intros [Hin Hnot]. split; [exact Hin|].
        destruct (is_audio_temp n) eqn:Ha; [right | left; reflexivity].
        assert (Hn : In n (kept fs ++ deleted fs)).
        { apply (Permutation_in _ (Permutation_sym Hperm)).
          apply filter_In. auto. }
        apply in_app_or in Hn as [Hn|Hn]; [exact Hn|].
        apply existsb_eqb_in in Hn. congruence.
      * intros [Hin Hor]. split; [exact Hin|].
        destruct (existsb (String.eqb n) (deleted fs)) eqn:E; [|reflexivity].
        apply existsb_eqb_in in E. destruct Hor as [Hna|Hk].
        -- unfold deleted in E. apply in_skipn in E.
           apply (Permutation_in _ (ranked_perm fs)) in E.
           apply filter_In in E. destruct E. congruence.
        -- exfalso. eapply nodup_disjoint; eassumption.
    + unfold kept. rewrite length_firstn.
      rewrite (Permutation_length (ranked_perm fs)). reflexivity.
    + intros k d Hk Hd.
      assert (Hle : String.leb d k = true).
      { unfold kept, deleted in *.
        apply (sorted_split _ 5 (ranked fs) (ranked_descending fs) k d Hk Hd). }
      split; [exact Hle|]. intros Sk Sd. apply stamped_order; assumption.
Qed.

(** ** [clearPlaybackQueue] *)

Lemma clear_idempotent (s : State) :
  clearPlaybackQueue (clearPlaybackQueue s) = clearPlaybackQueue s.
Proof.
  destruct s as [p q a [t|] ts n d r c f];
    unfold clearPlaybackQueue, cancel_timer; reflexivity.
Qed.

(** After a clear the next item pushed is taken at once and nothing stays
    queued behind it. *)
Lemma enqueue_after_clear (s : State) (item : jsval) (wav : Buffer) :
  build item = inl wav ->
  let s1 := clearPlaybackQueue s in
  let s2 := _processQueue (set_audioQueue (audioQueue s1 ++ [item]) s1) in
  isPlaying s2 = true /\ audioQueue s2 = [] /\
  decoding s2 = decoding s ++ [wav].
Proof.
  intros Hb. cbv zeta.
  destruct (clear_fields s) as (Hq & _ & _ & Hp & _ & _ & Hd & _).
  unfold _processQueue. cbn [isPlaying set_audioQueue audioQueue].
  rewrite Hp, Hq. cbn [app drain]. rewrite Hb.
  cbn [isPlaying audioQueue decoding set_decoding set_audioQueue
       set_isPlaying]. rewrite Hd. auto.
Qed.

(** On a trace in which nothing resets [isPlaying] from outside (neither
    [clearPlaybackQueue] nor [cleanupAudioResources]) the queue is playing
    with exactly one item in flight, or idle with nothing in flight and
    nothing queued. *)
Lemma single_render_without_clear (events : list Event) (s : State) :
  forallb (fun e => negb (resets_playing e)) events = true ->
  run initial events = Some s ->
  queue_inv s.
Proof.
  intros Hnc Hrun. eapply run_queue_inv; [|exact Hnc|exact Hrun].
  right. repeat split.
Qed.

(** C3, on the code. [clearPlaybackQueue] resets [isPlaying] and leaves the
    running render alone: after a clear in mid-render the queue is idle
    with a render active, and the next window then starts a second render
    beside it. *)
Theorem clear_leaves_render_running :
  (exists s,
     run initial clear_mid_render = Some s /\
     isPlaying s = false /\ length (rendering s) = 1%nat) /\
  (exists s,
     run initial render_after_clear = Some s /\
     isPlaying s = true /\ length (rendering s) = 2%nat).
Proof.
  split; eexists; (split; [vm_compute; reflexivity|]); split; reflexivity.
Qed.

(** C4, on the code. A clear in mid-render empties the queue and resets
    [isPlaying] but the item in flight stays with the platform, still
    rendering; a clear while the item is being decoded does not stop it
    either: its render starts after the clear, with the queue idle. *)
Theorem clear_keeps_item_in_flight :
  (exists s wav,
     run initial one_render = Some s /\
     rendering s = [wav] /\
     rendering (clearPlaybackQueue s) = [wav] /\
     isPlaying (clearPlaybackQueue s) = false /\
     audioQueue (clearPlaybackQueue s) = []) /\
  (exists s wav,
     run initial clear_mid_decode = Some s /\
     isPlaying s = false /\ rendering s = [wav]).
Proof.
  split; eexists; eexists; (split; [vm_compute; reflexivity|]);
    repeat split; reflexivity.
Qed.

(* ================================================================== *)
(** * Further properties of the code *)

(** ** The encoder and its errors *)

Lemma checkInt_range_error (buf : Buffer) (value : Q) (off ext : nat)
    (max min : Z) (e : JsError) :
  checkInt buf value off ext max min = Throw e -> e = RangeError.
Proof.
  unfold checkInt.
  destruct (negb _ || negb _); [intros H; injection H as <-; reflexivity|].
  destruct (length buf <? off + ext)%nat; [|discriminate].
  intros H. injection H as <-. reflexivity.
Qed.

Lemma write32_range_error (value : Q) (off : nat) (buf : Buffer) (e : JsError) :
  writeUInt32LE value off buf = Throw e -> e = RangeError.
Proof.
  unfold writeUInt32LE.
  destruct (checkInt buf value off 4 4294967295 0) as [[]|e'] eqn:E;
    cbn [bind]; [discriminate|].
  intros H. injection H as <-. eapply checkInt_range_error. exact E.
Qed.

Lemma write16_range_error (value : Q) (off : nat) (buf : Buffer) (e : JsError) :
  writeUInt16LE value off buf = Throw e -> e = RangeError.
Proof.
  unfold writeUInt16LE.
  destruct (checkInt buf value off 2 65535 0) as [[]|e'] eqn:E;
    cbn [bind]; [discriminate|].
  intros H. injection H as <-. eapply checkInt_range_error. exact E.
Qed.

Ltac bind_throw H :=
  match type of H with
  | bind ?m _ = Throw _ =>
      let E := fresh "E" in
      destruct m eqn:E; cbn [bind] in H;
      [| injection H as <-;
         first [eapply write32_range_error; exact E
               | eapply write16_range_error; exact E]]
  end.

Lemma header_range_error (r b c L : Z) (e : JsError) :
  _createWavHeader r b c L = Throw e -> e = RangeError.
Proof.
  unfold _createWavHeader. intros H.
  do 9 bind_throw H. discriminate H.
Qed.

(** The encoder returns a container exactly when every header field fits
    its width, and throws a [RangeError] exactly when one does not. *)
Theorem encoder_throws_range_error (pcm : Buffer) (r c b : Z) :
  ((exists wav, _createWavFromPcm pcm r c b = Normal wav) <->
   fits_header (Z.of_nat (length pcm)) r c b) /\
  (_createWavFromPcm pcm r c b = Throw RangeError <->
   ~ fits_header (Z.of_nat (length pcm)) r c b).
Proof.
  split; [apply encoder_total_iff|]. split.
  - intros H Hfit. apply encoder_total_iff in Hfit as [wav Hw]. congruence.
  - intros Hnot.
    destruct (_createWavFromPcm pcm r c b) as [wav|e] eqn:E.
    + exfalso. apply Hnot, encoder_total_iff. exists wav. exact E.
    + f_equal. unfold _createWavFromPcm in E.
      destruct (_createWavHeader r b c (Z.of_nat (length pcm))) as [h|e'] eqn:Eh;
        cbn [bind] in E.
      * rewrite combine_header_payload in E. discriminate E.
      * injection E as <-. eapply header_range_error. exact Eh.
Qed.

(** ** What every container in flight looks like *)

Lemma build_rate (item : jsval) (wav : Buffer) :
  build item = inl wav ->
  exists pcm r,
    r <> 0 /\
    _createWavFromPcm pcm r OUTPUT_CHANNELS OUTPUT_BITS_PER_SAMPLE = Normal wav.
Proof.
  unfold build. intros H.
  destruct (if tagged_audio item then _ else _) as [[audioData rate]|e];
    [|discriminate].
  destruct (negb (truthy audioData)); [discriminate|].
  set (out := match rate with
              | Some r => if r =? 0 then OUTPUT_SAMPLE_RATE else r
              | None => OUTPUT_SAMPLE_RATE
              end) in H.
  assert (Hout : out <> 0).
  { subst out. destruct rate as [r|]; [|discriminate].
    destruct (r =? 0) eqn:E; [discriminate|]. apply Z.eqb_neq. exact E. }
  clearbody out.
  destruct audioData; try discriminate;
    match type of H with
    | context [_createWavFromPcm ?pcm out _ _] =>
        destruct (_createWavFromPcm pcm out OUTPUT_CHANNELS
                    OUTPUT_BITS_PER_SAMPLE) as [w|] eqn:E;
        [|discriminate];
        destruct (length w <? 44)%nat; [discriminate|];
        injection H as <-; exists pcm, out; split; [exact Hout | exact E]
    end.
Qed.

Lemma built_coherent (item : jsval) (wav : Buffer) :
  build item = inl wav -> coherent wav.
Proof.
  intros H. destruct (build_rate item wav H) as (pcm & r & Hr & E).
  assert (Hfit : fits_header (Z.of_nat (length pcm)) r OUTPUT_CHANNELS
                   OUTPUT_BITS_PER_SAMPLE).
  { apply encoder_total_iff. exists wav. exact E. }
  destruct (encode_layout pcm r _ _ Hfit)
    as (wav' & E' & Hlen & _ & _ & H4 & _ & _ & _ & H20 & _ & H24 & H28
        & H32 & _ & _ & H40).
  rewrite E in E'. injection E' as <-.
  destruct Hfit as (_ & Hr0 & _).
  unfold coherent, OUTPUT_CHANNELS, OUTPUT_BITS_PER_SAMPLE in *.
  rewrite H4, H40, H20, H32, H24, H28, Hlen.
  repeat split; try lia.
  replace (r * 1 * 16) with (2 * r * 8) by lia. apply Z.div_mul. lia.
Qed.

(** Whatever holds of every container [build] returns holds of every
    container in flight, in every state the events lead to. *)
Lemma drain_in_flight (P : Buffer -> Prop) (queue : list jsval) (s : State) :
  (forall item wav, build item = inl wav -> P wav) ->
  Forall P (decoding s) -> Forall P (decoding (drain queue s)).
Proof.
  intros HP. revert s. induction queue as [|item rest IH]; intros s H.
  - exact H.
  - cbn [drain]. destruct (build item) as [wav|entries] eqn:E.
    + cbn. apply Forall_app. split; [exact H|].
      constructor; [|constructor]. eapply HP; exact E.
    + apply IH. exact H.
Qed.

Lemma processQueue_in_flight (P : Buffer -> Prop) (s : State) :
  (forall item wav, build item = inl wav -> P wav) ->
  Forall P (in_flight s) -> Forall P (in_flight (_processQueue s)).
Proof.
  intros HP. unfold in_flight. intros H. apply Forall_app in H as [Hd Hr].
  destruct (processQueue_same_window s) as (_ & _ & _ & _ & Hr' & _).
  apply Forall_app. split; [|rewrite Hr'; exact Hr].
  unfold _processQueue. destruct (isPlaying s); [exact Hd|].
  apply drain_in_flight; assumption.
Qed.

Lemma step_in_flight (P : Buffer -> Prop) (s s' : State) (e : Event) :
  (forall item wav, build item = inl wav -> P wav) ->
  Forall P (in_flight s) -> step s e = Some s' -> Forall P (in_flight s').
Proof.
  intros HP H Hstep.
  assert (Hsame : forall s0, decoding s0 = decoding s ->
            rendering s0 = rendering s -> Forall P (in_flight s0)).
  { intros s0 Hd Hr. unfold in_flight. rewrite Hd, Hr. exact H. }
  assert (Hrm : forall l i, Forall P l -> Forall P (remove_nth i l)).
  { intros l i Hl. apply Forall_forall. intros x Hx.
    eapply Forall_forall; [exact Hl|]. eapply remove_nth_incl; exact Hx. }
  destruct e as [chunk|t|i started|i|i| |]; cbn [step] in Hstep.
  - injection Hstep as <-.
    destruct (playAudioChunk_queue chunk s)
      as (s0 & _ & Hd & Hr & [[_ ->]|[item [_ ->]]]);
      [|apply processQueue_in_flight; [exact HP|]]; apply Hsame; assumption.
  - destruct (existsb (Pos.eqb t) (timers s)); [|discriminate].
    injection Hstep as <-.
    match goal with |- context [_processBufferedChunks ?x] =>
      destruct (flush_queue x)
        as (s0 & _ & Hd & Hr & [[_ ->]|[item [_ ->]]]) end;
      [|apply processQueue_in_flight; [exact HP|]]; apply Hsame; assumption.
  - destruct (nth_error (decoding s) i) as [wav|] eqn:Hn; [|discriminate].
    injection Hstep as <-.
    unfold in_flight in H. apply Forall_app in H as [Hd Hr].
    assert (Hwav : P wav).
    { eapply Forall_forall; [exact Hd|]. eapply nth_error_In; exact Hn. }
    unfold decoded. destruct started.
    + unfold in_flight. cbn. apply Forall_app. split; [apply Hrm, Hd|].
      apply Forall_app. split; [exact Hr|]. constructor; auto.
    + apply processQueue_in_flight; [exact HP|]. unfold in_flight. cbn.
      apply Forall_app. split; [apply Hrm, Hd | exact Hr].
  - destruct (nth_error (decoding s) i) as [wav|] eqn:Hn; [|discriminate].
    injection Hstep as <-.
    unfold in_flight in H. apply Forall_app in H as [Hd Hr].
    unfold decode_failed. apply processQueue_in_flight; [exact HP|].
    unfold in_flight. cbn. apply Forall_app. split; [apply Hrm, Hd | exact Hr].
  - destruct (nth_error (rendering s) i) as [wav|] eqn:Hn; [|discriminate].
    injection Hstep as <-.
    unfold in_flight in H. apply Forall_app in H as [Hd Hr].
    unfold onended. apply processQueue_in_flight; [exact HP|].
    unfold in_flight. cbn. apply Forall_app. split; [exact Hd | apply Hrm, Hr].
  - injection Hstep as <-.
    destruct (clear_fields s) as (_ & _ & _ & _ & _ & _ & Hd & Hr & _).
    apply Hsame; assumption.
  - injection Hstep as <-. apply Hsame; reflexivity.
Qed.

Lemma run_in_flight (P : Buffer -> Prop) (events : list Event) (s s' : State) :
  (forall item wav, build item = inl wav -> P wav) ->
  Forall P (in_flight s) -> run s events = Some s' -> Forall P (in_flight s').
Proof.
  intros HP. revert s. induction events as [|e events IH]; intros s H Hrun.
  - injection Hrun as <-. exact H.
  - cbn [run] in Hrun.
    destruct (step s e) as [s1|] eqn:Hstep; [|discriminate].
    eapply IH; [|exact Hrun]. eapply step_in_flight; eassumption.
Qed.

(** Every container being decoded or rendered, in every state the events
    lead to, has a header that agrees with itself: ChunkSize is the length
    less 8, Subchunk2Size the length less 44, the format linear PCM,
    BlockAlign 2, ByteRate twice the SampleRate, and the SampleRate is
    positive (a rate of 0 never reaches the encoder). *)
Theorem containers_coherent (events : list Event) (s : State) (wav : Buffer) :
  run initial events = Some s ->
  In wav (in_flight s) ->
  coherent wav.
Proof.
  intros Hrun Hin.
  assert (H : Forall coherent (in_flight s)).
  { apply (run_in_flight coherent events initial s built_coherent);
      [apply Forall_nil | exact Hrun]. }
  eapply Forall_forall in H; [exact H | exact Hin].
Qed.

(** ** A mimeType that is not a string *)

Lemma declared_rate_type_error (mimeType : jsval) (e : JsError) :
  declared_rate mimeType = Throw e -> e = TypeError.
Proof.
  unfold declared_rate. destruct (truthy mimeType); [|discriminate].
  destruct mimeType as [| |b|n|m|bytes|bytes|fields]; try discriminate;
    try (intros H; injection H as <-; reflexivity).
  destruct (includes "rate=" m); [|discriminate].
  destruct (match_rate m); discriminate.
Qed.

Lemma declared_rate_bad_mime (mimeType : jsval) :
  declared_rate mimeType = Throw TypeError <-> bad_mime mimeType = true.
Proof.
  unfold declared_rate, bad_mime, truthy.
  destruct mimeType as [| |b|n|m|bytes|bytes|fields]; cbn;
    try (split; [discriminate | discriminate]);
    try (split; reflexivity).
  - destruct b; split; try reflexivity; discriminate.
  - destruct (n =? 0); cbn; split; try reflexivity; discriminate.
  - destruct (negb (m =? "")%string); [|split; discriminate].
    destruct (includes "rate=" m); [|split; discriminate].
    destruct (match_rate m); split; discriminate.
Qed.

Lemma collect_type_error (pre post : list jsval) (chunk : jsval) :
  tagged_audio chunk = true ->
  bad_mime (get chunk "mimeType") = true ->
  forall (arrays : list Buffer) (total : nat) (rate : Z),
    collect (pre ++ chunk :: post) arrays total rate = Throw TypeError.
Proof.
  intros Htag Hbad. apply declared_rate_bad_mime in Hbad.
  induction pre as [|p pre IH]; intros arrays total rate.
  - cbn [app collect]. rewrite Htag, Hbad. reflexivity.
  - cbn [app collect].
    destruct (tagged_audio p).
    + destruct (declared_rate (get p "mimeType")) as [r|e] eqn:E; cbn [bind].
      * destruct (as_uint8 (get p "data")); apply IH.
      * f_equal. eapply declared_rate_type_error. exact E.
    + destruct p as [| |b|n|m|bytes|bytes|fields]; cbn [bind as_uint8];
        apply IH.
Qed.

(** One tagged audio chunk whose mimeType is truthy and neither a string
    nor a typed array is enough to lose the whole window: wherever it
    stands among the waiting chunks, the flush prints the merge error,
    empties the window, and puts nothing on the queue; what is queued and
    what is in flight stay as they were. *)
Theorem type_error_loses_window (s : State) (pre post : list jsval)
    (chunk : jsval) :
  bufferAggregator s = pre ++ chunk :: post ->
  tagged_audio chunk = true ->
  bad_mime (get chunk "mimeType") = true ->
  let s' := _processBufferedChunks s in
  bufferAggregator s' = [] /\
  audioQueue s' = audioQueue s /\
  isPlaying s' = isPlaying s /\
  in_flight s' = in_flight s /\
  console s' =
    console s ++ [Error "AudioOutputService: Error combining audio chunks:"] /\
  flushes s' = flushes s ++ [mkFlush (pre ++ chunk :: post) None].
Proof.
  intros Hwin Htag Hbad.
  assert (Hc : _combineAudioChunks (pre ++ chunk :: post) =
               (None, [Error "AudioOutputService: Error combining audio chunks:"])).
  { unfold _combineAudioChunks.
    rewrite (collect_type_error pre post chunk Htag Hbad). cbn [bind].
    destruct (pre ++ chunk :: post) eqn:E; [|reflexivity].
    destruct pre; discriminate E. }
  destruct (cancel_timer_queue s) as (Hp & Hq & Hd & Hr & Hl & Ha).
  assert (Hf : flushes (cancel_timer s) = flushes s).
  { unfold cancel_timer. destruct (bufferTimer s); reflexivity. }
  unfold _processBufferedChunks. cbv zeta.
  rewrite Ha, Hwin.
  destruct (pre ++ chunk :: post) as [|c0 l0] eqn:E;
    [destruct pre; discriminate E|].
  rewrite Hc. unfold in_flight. cbn.
  rewrite Hp, Hq, Hd, Hr, Hl, Hf. repeat split; reflexivity.
Qed.

(** ** A window of chunks of unsupported shape *)

Lemma collect_all_unsupported (chunks : list jsval) :
  forallb unsupported chunks = true ->
  forall (arrays : list Buffer) (total : nat) (rate : Z),
    collect chunks arrays total rate = Normal (arrays, total, rate).
Proof.
  induction chunks as [|c rest IH]; intros H arrays total rate.
  - reflexivity.
  - cbn [forallb] in H. apply andb_prop in H as [Hc Hrest].
    rewrite (collect_skips_unsupported [] rest c Hc). cbn [app].
    apply IH. exact Hrest.
Qed.

(** A window in which every chunk is of an unsupported shape is not
    dropped: the merge answers an empty buffer at the default rate, and
    with nothing playing the flush sends the decoder a container of the 44
    header bytes alone, with nothing printed. *)
Theorem unsupported_window_sends_empty_container (s : State) :
  bufferAggregator s <> [] ->
  forallb unsupported (bufferAggregator s) = true ->
  isPlaying s = false ->
  audioQueue s = [] ->
  let s' := _processBufferedChunks s in
  exists wav,
    decoding s' = decoding s ++ [wav] /\
    length wav = 44%nat /\
    readUInt32LE wav 24 = OUTPUT_SAMPLE_RATE /\
    readUInt32LE wav 40 = 0 /\
    isPlaying s' = true /\
    audioQueue s' = [] /\
    console s' = console s.
Proof.
  intros Hne Hall Hidle Hq.
  destruct (cancel_timer_queue s) as (Hp & Hq' & Hd & Hr & Hl & Ha).
  set (combined := mkCombined [] OUTPUT_SAMPLE_RATE).
  assert (Hc : _combineAudioChunks (bufferAggregator s) = (Some combined, [])).
  { unfold _combineAudioChunks.
    rewrite (collect_all_unsupported _ Hall). cbn.
    destruct (bufferAggregator s); [congruence | reflexivity]. }
  assert (Hfit : fits_header (Z.of_nat (length (data combined)))
                   (effective_rate (sampleRate combined))
                   OUTPUT_CHANNELS OUTPUT_BITS_PER_SAMPLE).
  { subst combined.
    unfold fits_header, effective_rate, OUTPUT_CHANNELS,
      OUTPUT_BITS_PER_SAMPLE, OUTPUT_SAMPLE_RATE. cbn. lia. }
  destruct (encode_layout _ _ _ _ Hfit)
    as (wav & E & Hlen & _ & _ & _ & _ & _ & _ & _ & _ & H24 & _ & _ & _ & _
        & H40).
  destruct (build_wrapper combined) as (wav' & Hb & _);
    [cbn; unfold OUTPUT_SAMPLE_RATE; lia | exact Hfit |].
  assert (wav' = wav).
  { unfold build in Hb. revert Hb.
    replace (tagged_audio (combinedChunk combined)) with true by reflexivity.
    change (get (combinedChunk combined) "mimeType")
      with (JStr ("audio/pcm;rate=" ++ Number_toString (sampleRate combined))).
    rewrite declared_rate_wrapper by (cbn; unfold OUTPUT_SAMPLE_RATE; lia).
    cbn [bind].
    change (get (combinedChunk combined) "data")
      with (JUint8Array (data combined)).
    cbn [truthy negb]. fold (effective_rate (sampleRate combined)).
    rewrite E, Hlen. cbn. intros H. injection H as <-. reflexivity. }
  subst wav'.
  exists wav. unfold _processBufferedChunks. cbv zeta.
  rewrite Ha. destruct (bufferAggregator s) as [|c0 l0] eqn:Eagg;
    [congruence|].
  rewrite Hc. unfold _processQueue, record_flush, set_audioQueue,
    set_bufferAggregator, log. cbn [isPlaying audioQueue].
  rewrite Hp, Hidle, Hq', Hq. cbn [app drain].
  rewrite Hb. cbn. rewrite Hd, Hl, app_nil_r.
  repeat split; try reflexivity; [exact Hlen | exact H24 | exact H40].
Qed.

(** ** The history of flushes *)

Lemma processQueue_window (s : State) :
  bufferAggregator (_processQueue s) = bufferAggregator s /\
  flushes (_processQueue s) = flushes s.
Proof.
  destruct (processQueue_same_window s) as (Ha & _ & _ & _ & _ & Hf).
  split; assumption.
Qed.

Lemma playAudioChunk_falsy (chunk : jsval) (s : State) :
  truthy chunk = false ->
  playAudioChunk chunk s =
  log [Warn "AudioOutputService: Received null or undefined audio data"] s.
Proof. intros H. unfold playAudioChunk. rewrite H. reflexivity. Qed.

Section FlushHistory.

Variable P : Flush -> Prop.

Hypothesis flush_of_P :
  forall chunks,
    (1 <= length chunks <= BUFFER_CHUNK_THRESHOLD)%nat ->
    Forall (fun c => truthy c = true) chunks ->
    P (flush_of chunks).

Lemma flush_history (s : State) :
  (length (bufferAggregator s) <= BUFFER_CHUNK_THRESHOLD)%nat ->
  Forall (fun c => truthy c = true) (bufferAggregator s) ->
  Forall P (flushes s) ->
  Forall P (flushes (_processBufferedChunks s)).
Proof.
  intros Hlen Ht Hf.
  destruct (flush_fields s) as (_ & _ & _ & _ & _ & ->).
  apply Forall_app. split; [exact Hf|].
  destruct (bufferAggregator s) as [|c rest] eqn:E; [constructor|].
  constructor; [|constructor]. apply flush_of_P; [|exact Ht].
  cbn [length] in *. lia.
Qed.

Lemma step_flush_history (s s' : State) (e : Event) :
  window_truthy s -> Forall P (flushes s) -> step s e = Some s' ->
  window_truthy s' /\ Forall P (flushes s').
Proof.
  intros [Hinv Ht] Hf Hstep.
  split; [split; [eapply step_inv; eassumption|]|].
  all: destruct Hinv as (_ & _ & Hlen).
  all: destruct e as [chunk|t|i started|i|i| |]; cbn [step] in Hstep.
  all: try (destruct (existsb (Pos.eqb t) (timers s)); [|discriminate]).
  all: try (destruct (nth_error (decoding s) i) as [wav|]; [|discriminate]).
  all: try (destruct (nth_error (rendering s) i) as [wav|]; [|discriminate]).
  all: injection Hstep as <-.
  (* the chunks that wait *)
  - destruct (truthy chunk) eqn:Hc.
    + rewrite playAudioChunk_unfold by exact Hc. cbv zeta.
      destruct (_ <=? _)%nat.
      * match goal with |- context [_processBufferedChunks ?x] =>
          destruct (flush_fields x) as (-> & _) end. constructor.
      * destruct (_ =? _)%nat; cbn; apply Forall_app; split;
          try exact Ht; constructor; auto.
    + rewrite playAudioChunk_falsy by exact Hc. exact Ht.
  - match goal with |- context [_processBufferedChunks ?x] =>
      destruct (flush_fields x) as (-> & _) end. constructor.
  - unfold decoded. destruct started; [exact Ht|].
    rewrite (proj1 (processQueue_window _)). exact Ht.
  - unfold decode_failed. rewrite (proj1 (processQueue_window _)). exact Ht.
  - unfold onended. rewrite (proj1 (processQueue_window _)). exact Ht.
  - destruct (clear_fields s) as (_ & -> & _). constructor.
  - exact Ht.
  (* the history *)
  - destruct (truthy chunk) eqn:Hc.
    + rewrite playAudioChunk_unfold by exact Hc. cbv zeta.
      destruct (_ <=? _)%nat.
      * apply flush_history.
        -- destruct (_ =? _)%nat; cbn; rewrite length_app; cbn [length];
             lia.
        -- destruct (_ =? _)%nat; cbn; apply Forall_app; split;
             try exact Ht; constructor; auto.
        -- destruct (_ =? _)%nat; exact Hf.
      * destruct (_ =? _)%nat; exact Hf.
    + rewrite playAudioChunk_falsy by exact Hc. exact Hf.
  - apply flush_history; cbn; [lia | exact Ht | exact Hf].
  - unfold decoded. destruct started; [exact Hf|].
    rewrite (proj2 (processQueue_window _)). exact Hf.
  - unfold decode_failed. rewrite (proj2 (processQueue_window _)). exact Hf.
  - unfold onended. rewrite (proj2 (processQueue_window _)). exact Hf.
  - destruct (clear_fields s) as (_ & _ & _ & _ & _ & _ & _ & _ & ->).
    exact Hf.
  - exact Hf.
Qed.

Lemma run_flush_history (events : list Event) (s s' : State) :
  window_truthy s -> Forall P (flushes s) -> run s events = Some s' ->
  window_truthy s' /\ Forall P (flushes s').
Proof.
  revert s. induction events as [|e events IH]; intros s Hw Hf Hrun.
  - injection Hrun as <-. split; assumption.
  - cbn [run] in Hrun.
    destruct (step s e) as [s1|] eqn:Hstep; [|discriminate].
    destruct (step_flush_history s s1 e Hw Hf Hstep) as [Hw1 Hf1].
    exact (IH s1 Hw1 Hf1 Hrun).
Qed.

End FlushHistory.

Lemma initial_window_truthy : window_truthy initial.
Proof. split; [apply initial_inv | constructor]. Qed.

(** The aggregator never holds a falsy chunk, and every flush the history
    records took a window of one to three chunks, none of them falsy, and
    pushed what [_combineAudioChunks] made of exactly that window, or
    nothing when the merge failed. *)
Theorem flushes_take_bounded_windows (events : list Event) (s : State) :
  run initial events = Some s ->
  Forall (fun c => truthy c = true) (bufferAggregator s) /\
  forall f, In f (flushes s) ->
    window_ok f /\
    merged f =
      option_map combinedChunk (fst (_combineAudioChunks (window f))).
Proof.
  intros Hrun.
  destruct (run_flush_history
              (fun f => window_ok f /\
                 merged f =
                   option_map combinedChunk
                     (fst (_combineAudioChunks (window f))))
              (fun chunks Hlen Ht => conj (conj Hlen Ht) eq_refl)
              events initial s initial_window_truthy (Forall_nil _) Hrun)
    as [[_ Ht] Hf].
  split; [exact Ht|]. intros f Hin.
  eapply Forall_forall in Hf; [exact Hf | exact Hin].
Qed.

(** ** First in, first out *)

Lemma drain_suffix (queue : list jsval) (s : State) :
  audioQueue s = queue ->
  exists taken, queue = taken ++ audioQueue (drain queue s).
Proof.
  revert s. induction queue as [|item rest IH]; intros s Hq.
  - exists []. cbn. symmetry. exact Hq.
  - cbn [drain]. destruct (build item) as [wav|entries].
    + exists [item]. reflexivity.
    + destruct (IH (set_isPlaying false
                      (log entries
                         (set_audioQueue rest (set_isPlaying true s)))))
        as [taken Ht]; [reflexivity|].
      exists (item :: taken). cbn [app]. f_equal. exact Ht.
Qed.

Lemma processQueue_suffix (s : State) :
  exists taken, audioQueue s = taken ++ audioQueue (_processQueue s).
Proof.
  unfold _processQueue. destruct (isPlaying s).
  - exists []. reflexivity.
  - apply drain_suffix. reflexivity.
Qed.

Lemma processQueue_pushed (s : State) : pushed (_processQueue s) = pushed s.
Proof.
  unfold pushed. rewrite (proj2 (processQueue_window s)). reflexivity.
Qed.

Lemma advances_refl (s s' : State) :
  pushed s' = pushed s -> audioQueue s' = audioQueue s -> advances s s'.
Proof.
  intros Hp Hq. exists [], []. rewrite Hp, Hq, !app_nil_r. split; reflexivity.
Qed.

Lemma advances_processQueue (s s0 : State) :
  pushed s0 = pushed s -> audioQueue s0 = audioQueue s ->
  advances s (_processQueue s0).
Proof.
  intros Hp Hq. destruct (processQueue_suffix s0) as [taken Ht].
  exists [], taken. rewrite processQueue_pushed, Hp, !app_nil_r, <- Hq.
  split; [reflexivity | exact Ht].
Qed.

Lemma advances_flush (s s0 : State) :
  pushed s0 = pushed s -> audioQueue s0 = audioQueue s ->
  advances s (_processBufferedChunks s0).
Proof.
  intros Hp Hq.
  destruct (cancel_timer_queue s0) as (_ & Hq' & _ & _ & _ & Ha).
  assert (Hf : flushes (cancel_timer s0) = flushes s0).
  { unfold cancel_timer. destruct (bufferTimer s0); reflexivity. }
  unfold _processBufferedChunks. cbv zeta.
  destruct (bufferAggregator (cancel_timer s0)) as [|c rest].
  - apply advances_refl; [unfold pushed; rewrite Hf; exact Hp|].
    rewrite Hq'. exact Hq.
  - destruct (_combineAudioChunks (c :: rest)) as [[combined|] entries].
    + destruct (processQueue_suffix
                  (set_audioQueue
                     (audioQueue
                        (record_flush
                           (mkFlush (c :: rest)
                              (Some (combinedChunk combined)))
                           (set_bufferAggregator []
                              (log entries (cancel_timer s0))))
                      ++ [combinedChunk combined])
                     (record_flush
                        (mkFlush (c :: rest) (Some (combinedChunk combined)))
                        (set_bufferAggregator []
                           (log entries (cancel_timer s0))))))
        as [taken Ht].
      exists [combinedChunk combined], taken.
      rewrite processQueue_pushed. split.
      * unfold pushed. cbn. rewrite Hf, flat_map_app. cbn.
        unfold pushed in Hp. rewrite Hp. reflexivity.
      * rewrite <- Ht. cbn. rewrite Hq', Hq. reflexivity.
    + apply advances_refl.
      * unfold pushed. cbn. rewrite Hf, flat_map_app. cbn.
        unfold pushed in Hp. rewrite Hp, app_nil_r. reflexivity.
      * cbn. rewrite Hq'. exact Hq.
Qed.

Lemma step_advances (s s' : State) (e : Event) :
  step s e = Some s' -> advances s s'.
Proof.
  intros Hstep.
  destruct e as [chunk|t|i started|i|i| |]; cbn [step] in Hstep.
  all: try (destruct (existsb (Pos.eqb t) (timers s)); [|discriminate]).
  all: try (destruct (nth_error (decoding s) i) as [wav|]; [|discriminate]).
  all: try (destruct (nth_error (rendering s) i) as [wav|]; [|discriminate]).
  all: injection Hstep as <-.
  - destruct (truthy chunk) eqn:Hc.
    + rewrite playAudioChunk_unfold by exact Hc. cbv zeta.
      destruct (_ <=? _)%nat.
      * apply advances_flush; destruct (_ =? _)%nat; reflexivity.
      * apply advances_refl; destruct (_ =? _)%nat; reflexivity.
    + rewrite playAudioChunk_falsy by exact Hc.
      apply advances_refl; reflexivity.
  - apply advances_flush; reflexivity.
  - unfold decoded. destruct started.
    + apply advances_refl; reflexivity.
    + apply advances_processQueue; reflexivity.
  - unfold decode_failed. apply advances_processQueue; reflexivity.
  - unfold onended. apply advances_processQueue; reflexivity.
  - destruct (clear_fields s) as (Hq & _ & _ & _ & _ & _ & _ & _ & Hf).
    exists [], (audioQueue s). unfold pushed. rewrite Hq, Hf, !app_nil_r.
    split; reflexivity.
  - apply advances_refl; reflexivity.
Qed.

Lemma run_queue_suffix (events : list Event) (s s' : State) :
  (exists earlier, pushed s = earlier ++ audioQueue s) ->
  run s events = Some s' ->
  exists earlier, pushed s' = earlier ++ audioQueue s'.
Proof.
  revert s. induction events as [|e events IH]; intros s H Hrun.
  - injection Hrun as <-. exact H.
  - cbn [run] in Hrun.
    destruct (step s e) as [s1|] eqn:Hstep; [|discriminate].
    apply (IH s1); [|exact Hrun].
    destruct H as [earlier He].
    destruct (step_advances s s1 e Hstep) as (new & taken & Hp & Hq).
    exists (earlier ++ taken).
    rewrite Hp, He, <- !app_assoc, Hq. reflexivity.
Qed.

(** The queue is first in, first out: every event pushes at the back what
    a flush merged and shifts from the front, and nothing else touches the
    queue, so the items waiting are always the most recent of the items
    the flushes pushed, in the order they were pushed. *)
Theorem queue_is_fifo (events : list Event) (s : State) :
  run initial events = Some s ->
  (exists earlier, pushed s = earlier ++ audioQueue s) /\
  (forall e s', step s e = Some s' ->
     exists new taken,
       pushed s' = pushed s ++ new /\
       audioQueue s ++ new = taken ++ audioQueue s').
Proof.
  intros Hrun. split.
  - apply (run_queue_suffix events initial s); [|exact Hrun].
    exists []. reflexivity.
  - intros e s' Hstep. exact (step_advances s s' e Hstep).
Qed.

(** ** What the queue holds *)

Lemma combinedChunk_wrapper (combined : Combined) :
  is_wrapper (combinedChunk combined).
Proof.
  exists (data combined),
    ("audio/pcm;rate=" ++ Number_toString (sampleRate combined))%string.
  reflexivity.
Qed.

Lemma declared_rate_string (m : string) :
  exists rate, declared_rate (JStr m) = Normal rate.
Proof.
  unfold declared_rate. destruct (truthy (JStr m)); [|eexists; reflexivity].
  destruct (includes "rate=" m); [|eexists; reflexivity].
  destruct (match_rate m); eexists; reflexivity.
Qed.

Lemma build_of_wrapper (item : jsval) :
  is_wrapper item ->
  (exists wav, build item = inl wav) \/ build item = inr encoder_failure.
Proof.
  intros (bytes & m & ->). unfold build.
  match goal with |- context [tagged_audio ?x] =>
    replace (tagged_audio x) with true by reflexivity end.
  match goal with |- context [get ?x "mimeType"] =>
    change (get x "mimeType") with (JStr m) end.
  destruct (declared_rate_string m) as [rate ->]. cbn [bind].
  match goal with |- context [get ?x "data"] =>
    change (get x "data") with (JUint8Array bytes) end.
  cbn [truthy negb].
  match goal with |- context [_createWavFromPcm bytes ?r ?c ?b] =>
    destruct (_createWavFromPcm bytes r c b) as [wav|e] eqn:E end.
  - left. exists wav.
    assert (Hfit : exists w, _createWavFromPcm bytes
                     match rate with
                     | Some r => if r =? 0 then OUTPUT_SAMPLE_RATE else r
                     | None => OUTPUT_SAMPLE_RATE
                     end OUTPUT_CHANNELS OUTPUT_BITS_PER_SAMPLE = Normal w)
      by (exists wav; exact E).
    apply encoder_total_iff in Hfit.
    destruct (encode_layout _ _ _ _ Hfit) as (w & E' & Hlen & _).
    rewrite E in E'. injection E' as <-.
    rewrite Hlen. reflexivity.
  - right. reflexivity.
Qed.

Lemma pushed_wrappers (fl : list Flush) :
  Forall (fun f => merged f =
            option_map combinedChunk (fst (_combineAudioChunks (window f))))
    fl ->
  Forall is_wrapper
    (flat_map (fun f => match merged f with
                        | Some item => [item]
                        | None => []
                        end) fl).
Proof.
  induction 1 as [|f fl Hf _ IH]; [constructor|].
  cbn [flat_map]. apply Forall_app. split; [|exact IH].
  rewrite Hf. destruct (fst (_combineAudioChunks (window f))) as [c|];
    cbn; [|constructor].
  constructor; [apply combinedChunk_wrapper | constructor].
Qed.

(** Whatever is submitted, the queue only ever holds wrapper objects the
    aggregator built. So the branches of [_processQueue] for strings, raw
    buffers, empty and unsupported items are never taken: a queued item
    either yields a container or fails in the encoder, and nothing else is
    printed for it. *)
Theorem queue_holds_wrappers (events : list Event) (s : State) (item : jsval) :
  run initial events = Some s ->
  In item (audioQueue s) ->
  is_wrapper item /\
  ((exists wav, build item = inl wav) \/ build item = inr encoder_failure).
Proof.
  intros Hrun Hin.
  assert (Hw : is_wrapper item).
  { destruct (run_queue_suffix events initial s) as [earlier He];
      [exists []; reflexivity | exact Hrun |].
    destruct (run_flush_history
                (fun f => merged f =
                   option_map combinedChunk
                     (fst (_combineAudioChunks (window f))))
                (fun chunks _ _ => eq_refl)
                events initial s initial_window_truthy (Forall_nil _) Hrun)
      as [_ Hf].
    apply pushed_wrappers in Hf. fold (pushed s) in Hf.
    eapply Forall_forall in Hf; [exact Hf|].
    rewrite He. apply in_or_app. right. exact Hin. }
  split; [exact Hw | apply build_of_wrapper; exact Hw].
Qed.

(** ** When the merge fails *)

Lemma declared_rate_nonneg (mimeType : jsval) (r : Z) :
  declared_rate mimeType = Normal (Some r) -> 0 <= r.
Proof.
  unfold declared_rate.
  destruct (truthy mimeType); [|discriminate].
  destruct mimeType as [| |b|n|m|bytes|bytes|fields]; try discriminate.
  destruct (includes "rate=" m); [|discriminate].
  destruct (match_rate m) as [ds|] eqn:E; [|discriminate].
  intros H. injection H as <-.
  apply parse_digits_nonneg; [|lia]. eapply match_rate_digits. exact E.
Qed.

Lemma collect_clean (chunks : list jsval) :
  existsb poisoned chunks = false ->
  forall (arrays : list Buffer) (total : nat) (rate : Z),
  exists arrays' total' rate',
    collect chunks arrays total rate = Normal (arrays', total', rate') /\
    (total = length (concat arrays) -> total' = length (concat arrays')) /\
    (0 <= rate -> 0 <= rate').
Proof.
  induction chunks as [|c rest IH]; intros Hclean arrays total rate.
  - exists arrays, total, rate. repeat split; auto.
  - cbn [existsb] in Hclean. apply orb_false_elim in Hclean as [Hc Hrest].
    specialize (IH Hrest). cbn [collect].
    assert (Hgrow : forall bytes : Buffer,
              total = length (concat arrays) ->
              (total + length bytes)%nat =
              length (concat (arrays ++ [bytes]))).
    { intros bytes ->. rewrite concat_app, length_app. cbn.
      rewrite app_nil_r. reflexivity. }
    unfold poisoned in Hc.
    destruct (tagged_audio c) eqn:Htag.
    + cbn [andb] in Hc.
      destruct (declared_rate (get c "mimeType")) as [declared|e] eqn:E.
      * cbn [bind].
        assert (Hr : 0 <= rate ->
                  0 <= match declared with Some r => r | None => rate end).
        { destruct declared as [r|]; [|auto].
          intros _. eapply declared_rate_nonneg. exact E. }
        destruct (as_uint8 (get c "data")) as [bytes|].
        -- destruct (IH (arrays ++ [bytes]) (total + length bytes)%nat
                       match declared with Some r => r | None => rate end)
             as (a' & n' & r' & -> & Hn & Hr').
           exists a', n', r'. repeat split; auto.
        -- destruct (IH arrays total
                       match declared with Some r => r | None => rate end)
             as (a' & n' & r' & -> & Hn & Hr').
           exists a', n', r'. repeat split; auto.
      * exfalso. pose proof (declared_rate_type_error _ _ E) as ->.
        apply declared_rate_bad_mime in E. congruence.
    + assert (Hany : forall v : jsval,
                exists a' n' r',
                  match as_uint8 v with
                  | Some bytes =>
                      collect rest (arrays ++ [bytes])
                        (total + length bytes) rate
                  | None => collect rest arrays total rate
                  end = Normal (a', n', r') /\
                  (total = length (concat arrays) ->
                   n' = length (concat a')) /\
                  (0 <= rate -> 0 <= r')).
      { intros v. destruct (as_uint8 v) as [bytes|].
        - destruct (IH (arrays ++ [bytes]) (total + length bytes)%nat rate)
            as (a' & n' & r' & -> & Hn & Hr').
          exists a', n', r'. repeat split; auto.
        - apply IH. }
      destruct c as [| |b|n|m|bytes|bytes|fields]; cbn [bind]; apply Hany.
Qed.

(** The merge of a non-empty window fails exactly when the window holds a
    tagged audio chunk whose mimeType is truthy and neither a string nor a
    typed array. The copying loop never overruns the buffer it fills, so
    nothing else makes the merge fail, and a merge that succeeds prints
    nothing and never answers a negative rate. *)
Theorem merge_fails_iff_poisoned (chunks : list jsval) :
  chunks <> [] ->
  (existsb poisoned chunks = true ->
   _combineAudioChunks chunks =
   (None, [Error "AudioOutputService: Error combining audio chunks:"])) /\
  (existsb poisoned chunks = false ->
   exists combined,
     _combineAudioChunks chunks = (Some combined, []) /\
     0 <= sampleRate combined).
Proof.
  intros Hne. split.
  - intros H. apply existsb_exists in H as (c & Hin & Hc).
    unfold poisoned in Hc. apply andb_prop in Hc as [Htag Hbad].
    apply in_split in Hin as (pre & post & ->).
    unfold _combineAudioChunks.
    rewrite (collect_type_error pre post c Htag Hbad). cbn [bind].
    destruct (pre ++ c :: post) eqn:E; [|reflexivity].
    destruct pre; discriminate E.
  - intros H.
    destruct (collect_clean chunks H [] 0%nat OUTPUT_SAMPLE_RATE)
      as (arrays & total & rate & Hc & Htotal & Hrate).
    exists (mkCombined (concat arrays) rate).
    split; [|apply Hrate; unfold OUTPUT_SAMPLE_RATE; lia].
    unfold _combineAudioChunks.
    destruct chunks as [|c chunks]; [contradiction|].
    rewrite Hc. cbn [bind].
    pose proof (fill_concat arrays []) as Hfill.
    cbn [app length] in Hfill. rewrite (Htotal eq_refl), Hfill. reflexivity.
Qed.

(** ** The sweep when the platform fails *)

Lemma deleteAsync_entries (name : string) (fs fs' : FileSystem) :
  deleteAsync name fs = Normal fs' ->
  readFails fs' = readFails fs /\
  deleteFails fs' = deleteFails fs /\
  forall n, In n (entries fs') <-> In n (entries fs) /\ n <> name.
Proof using.
  unfold deleteAsync. destruct (_ || _); [discriminate|].
  intros H. injection H as <-. cbn. split; [reflexivity|].
  split; [reflexivity|]. intros n. rewrite filter_In.
  destruct (String.eqb_spec n name) as [->|Hn]; cbn.
  - split; [intros [_ H]; discriminate | intros [_ H]; congruence].
  - split; intros [H _]; auto.
Qed.

Lemma delete_each_safe (names : list string) (fs fs' : FileSystem)
    (r : Completion unit) :
  delete_each names fs = (fs', r) ->
  readFails fs' = readFails fs /\
  deleteFails fs' = deleteFails fs /\
  (forall n, In n (entries fs') -> In n (entries fs)) /\
  (forall n, In n (entries fs) -> ~ In n names -> In n (entries fs')).
Proof using.
  revert fs. induction names as [|name rest IH]; intros fs H.
  - cbn in H. injection H as <- <-. repeat split; auto.
  - cbn [delete_each] in H.
    destruct (deleteAsync name fs) as [fs0|e] eqn:E.
    + destruct (deleteAsync_entries _ _ _ E) as (Hr & Hd & Hin).
      destruct (IH fs0 H) as (Hr' & Hd' & Hsub & Hkeep).
      split; [rewrite Hr'; exact Hr|]. split; [rewrite Hd'; exact Hd|]. split.
      * intros n Hn. apply Hsub, Hin in Hn. exact (proj1 Hn).
      * intros n Hn Hnot. apply Hkeep.
        -- apply Hin. split; [exact Hn|]. intros ->. apply Hnot. left.
           reflexivity.
        -- intros Hr0. apply Hnot. right. exact Hr0.
    + injection H as <- <-. repeat split; auto.
Qed.

Lemma sweep_safe (fs fs' : FileSystem) (r : Completion unit) :
  sweep fs = (fs', r) ->
  readFails fs' = readFails fs /\
  deleteFails fs' = deleteFails fs /\
  (forall n, In n (entries fs') -> In n (entries fs)) /\
  (forall n, In n (entries fs) -> ~ In n (deleted fs) -> In n (entries fs')).
Proof using.
  intros H. unfold sweep, readDirectoryAsync in H.
  destruct (readFails fs) eqn:Hread.
  - injection H as <- <-. repeat split; auto.
  - destruct (5 <? length (filter is_audio_temp (entries fs)))%nat.
    + apply delete_each_safe in H. rewrite Hread in H. exact H.
    + injection H as <- <-. repeat split; auto.
Qed.

Lemma deleted_audio (fs : FileSystem) (n : string) :
  In n (deleted fs) -> In n (entries fs) /\ is_audio_temp n = true.
Proof using.
  intros H. apply in_skipn in H.
  apply (Permutation_in _ (ranked_perm fs)) in H.
  apply filter_In in H. exact H.
Qed.

Lemma kept_not_deleted (fs : FileSystem) (n : string) :
  NoDup (entries fs) -> In n (kept fs) -> ~ In n (deleted fs).
Proof using.
  intros Hnd Hk Hd.
  assert (Hr : NoDup (ranked fs)).
  { eapply Permutation_NoDup; [symmetry; apply ranked_perm|].
    apply NoDup_filter. exact Hnd. }
  rewrite <- (firstn_skipn 5 (ranked fs)) in Hr.
  exact (nodup_disjoint _ _ n Hr Hk Hd).
Qed.

Lemma kept_entries (fs : FileSystem) (n : string) :
  In n (kept fs) -> In n (entries fs).
Proof using.
  intros H. unfold kept in H.
  assert (Hr : In n (ranked fs)).
  { rewrite <- (firstn_skipn 5 (ranked fs)). apply in_or_app. left. exact H. }
  apply (Permutation_in _ (ranked_perm fs)) in Hr.
  apply filter_In in Hr. exact (proj1 Hr).
Qed.

(** Whatever the platform does (the directory cannot be read, a delete
    fails half way), the sweep settles normally, creates no file, and
    removes nothing but files it ranked sixth or older: every other file,
    every file that is not an audio temp file, and in a directory without
    duplicate names the five newest audio temp files, are still there. *)
Theorem sweep_removes_only_old_files (fs : FileSystem) :
  let '(fs', settled, _) := cleanupTempFiles fs in
  settled = Normal tt /\
  (forall n, In n (entries fs') -> In n (entries fs)) /\
  (forall n, In n (entries fs) -> ~ In n (deleted fs) -> In n (entries fs')) /\
  (forall n, In n (entries fs) -> is_audio_temp n = false ->
     In n (entries fs')) /\
  (NoDup (entries fs) -> forall n, In n (kept fs) -> In n (entries fs')).
Proof using.
  unfold cleanupTempFiles.
  destruct (sweep fs) as [fs' r] eqn:E.
  destruct (sweep_safe fs fs' r E) as (_ & _ & Hsub & Hkeep).
  assert (H : (forall n, In n (entries fs') -> In n (entries fs)) /\
              (forall n, In n (entries fs) -> ~ In n (deleted fs) ->
                 In n (entries fs')) /\
              (forall n, In n (entries fs) -> is_audio_temp n = false ->
                 In n (entries fs')) /\
              (NoDup (entries fs) -> forall n, In n (kept fs) ->
                 In n (entries fs'))).
  { split; [exact Hsub|]. split; [exact Hkeep|]. split.
    - intros n Hn Hna. apply Hkeep; [exact Hn|]. intros Hd.
      apply deleted_audio in Hd as [_ Ha]. congruence.
    - intros Hnd n Hk. apply Hkeep; [apply kept_entries; exact Hk|].
      apply kept_not_deleted; assumption. }
  destruct r; (split; [reflexivity | exact H]).
Qed.

(** A second sweep finds nothing to do: after a sweep on which no platform
    call failed, a directory without duplicate names holds at most five
    audio temp files, and sweeping it again changes nothing and prints
    nothing. *)
Theorem sweep_twice_is_sweep_once (fs : FileSystem) :
  readFails fs = false ->
  (forall n, deleteFails fs n = false) ->
  NoDup (entries fs) ->
  exists fs',
    cleanupTempFiles fs = (fs', Normal tt, []) /\
    (length (filter is_audio_temp (entries fs')) <= 5)%nat /\
    cleanupTempFiles fs' = (fs', Normal tt, []).
Proof using.
  intros Hread Hdel Hnd.
  destruct (cleanup_ok fs Hread Hdel Hnd) as (fs' & Hc & He).
  exists fs'. split; [exact Hc|].
  assert (Hflags : readFails fs' = false).
  { unfold cleanupTempFiles in Hc.
    destruct (sweep fs) as [fs0 r] eqn:E.
    destruct (sweep_safe fs fs0 r E) as (Hr & _).
    destruct r; injection Hc as <-; congruence. }
  assert (Hlen : (length (filter is_audio_temp (entries fs')) <= 5)%nat).
  { apply Nat.le_trans with (length (kept fs));
      [|unfold kept; apply firstn_le_length].
    apply NoDup_incl_length.
    - apply NoDup_filter. rewrite He. apply NoDup_filter. exact Hnd.
    - intros n Hn. apply filter_In in Hn as [Hn Ha].
      rewrite He in Hn. apply filter_In in Hn as [Hin Hnot].
      assert (Hr : In n (ranked fs)).
      { apply (Permutation_in _ (Permutation_sym (ranked_perm fs))).
        apply filter_In. split; assumption. }
      rewrite <- (firstn_skipn 5 (ranked fs)) in Hr.
      apply in_app_or in Hr as [Hk|Hd]; [exact Hk|].
      exfalso. apply (proj2 (existsb_eqb_in n (deleted fs))) in Hd.
      rewrite Hd in Hnot. discriminate Hnot. }
  split; [exact Hlen|].
  unfold cleanupTempFiles, sweep, readDirectoryAsync. rewrite Hflags.
  apply Nat.ltb_ge in Hlen. rewrite Hlen. reflexivity.
Qed.

(** ** The names the writer gives *)

Lemma endsWith_app (suffix s : string) : endsWith suffix (s ++ suffix) = true.
Proof.
  induction s as [|c s IH].
  - cbn [append]. destruct suffix; cbn [endsWith];
      rewrite String.eqb_refl; reflexivity.
  - cbn [append endsWith]. rewrite IH. apply orb_true_r.
Qed.

Lemma endsWith_prepend (suffix p s : string) :
  endsWith suffix s = true -> endsWith suffix (p ++ s) = true.
Proof.
  intros H. induction p as [|c p IH]; [exact H|].
  cbn [append endsWith]. rewrite IH. apply orb_true_r.
Qed.

Lemma temp_name_audio (now counter : Z) :
  is_audio_temp (temp_name now counter) = true.
Proof.
  unfold is_audio_temp, temp_name. apply andb_true_intro. split.
  - unfold startsWith. cbn -[Number_toString].
    match goal with
    | |- context [String.prefix EmptyString ?x] => destruct x
    | _ => idtac
    end; reflexivity.
  - do 3 apply endsWith_prepend. apply endsWith_app.
Qed.

Lemma digits_length (k : nat) :
  forall (fuel : nat) (n : Z) (acc : string),
    10 ^ Z.of_nat k <= n < 10 ^ Z.of_nat (S k) -> (k < fuel)%nat ->
    String.length (digits fuel n acc) = (S k + String.length acc)%nat.
Proof.
  induction k as [|k IH]; intros fuel n acc Hn Hfuel.
  - destruct fuel as [|fuel]; [lia|]. cbn [digits].
    change (10 ^ Z.of_nat 0) with 1 in Hn.
    change (10 ^ Z.of_nat 1) with 10 in Hn.
    rewrite Z.div_small by lia. reflexivity.
  - destruct fuel as [|fuel]; [lia|]. cbn [digits].
    rewrite !Nat2Z.inj_succ, !Z.pow_succ_r in Hn by lia.
    assert (Hq : 10 ^ Z.of_nat k <= n / 10 < 10 ^ Z.of_nat (S k)).
    { rewrite Nat2Z.inj_succ, Z.pow_succ_r by lia. split.
      - apply Z.div_le_lower_bound; lia.
      - apply Z.div_lt_upper_bound; lia. }
    assert (Hpos : 0 < 10 ^ Z.of_nat k) by (apply Z.pow_pos_nonneg; lia).
    destruct (n / 10 =? 0) eqn:E; [apply Z.eqb_eq in E; lia|].
    rewrite IH by (exact Hq || lia). cbn [String.length]. lia.
Qed.

Lemma toString_thirteen (now : Z) :
  thirteen_digits now -> String.length (Number_toString now) = 13%nat.
Proof.
  intros [Hlo Hhi]. unfold Number_toString.
  assert (Hlog : 39 <= Z.log2 now).
  { change 39 with (Z.log2 (10 ^ 12)). apply Z.log2_le_mono. exact Hlo. }
  rewrite (digits_length 12); [reflexivity | split; assumption | lia].
Qed.

Lemma take_digits_app (ds : string) (c : ascii) (rest : string) :
  all_digits ds = true -> is_digit c = false ->
  take_digits (ds ++ String c rest) = ds.
Proof.
  intros Hds Hc. induction ds as [|d ds IH].
  - cbn. rewrite Hc. reflexivity.
  - cbn [all_digits] in Hds. apply andb_prop in Hds as [Hd Hds].
    cbn [append take_digits]. rewrite Hd, IH by exact Hds. reflexivity.
Qed.

Lemma append_cancel (p x y : string) :
  (p ++ x = p ++ y)%string -> x = y.
Proof.
  induction p as [|c p IH]; cbn [append]; intros H; [exact H|].
  injection H as H. exact (IH H).
Qed.

Lemma toString_inj (n m : Z) :
  0 <= n -> 0 <= m -> Number_toString n = Number_toString m -> n = m.
Proof.
  intros Hn Hm H.
  rewrite <- (parseInt_toString n Hn), <- (parseInt_toString m Hm), H.
  reflexivity.
Qed.

Lemma temp_name_timestamp (now counter : Z) :
  0 <= now -> timestamp (temp_name now counter) = now.
Proof.
  intros Hnow. unfold timestamp, temp_name. cbn [append drop].
  rewrite take_digits_stamp by (apply toString_digits; exact Hnow).
  apply parseInt_toString. exact Hnow.
Qed.

Lemma temp_name_stamped (now counter : Z) :
  thirteen_digits now -> stamped (temp_name now counter).
Proof.
  intros Hnow.
  exists (Number_toString now), (Number_toString counter ++ ".wav")%string.
  split; [reflexivity|]. split; [apply toString_thirteen; exact Hnow|].
  apply toString_digits. destruct Hnow. lia.
Qed.

(** A save gives the file a name the sweep will rank, and moves the
    counter on whether or not the write succeeds; when it fails the error
    is printed and thrown again and no file appears. At a clock value of
    thirteen digits the name carries that value as its timestamp, and of
    two such names the one written at the later time sorts strictly
    higher, so the sweep ranks saved files by the time they were
    written. *)
Theorem saved_files_rank_by_time (cacheDirectory : string) (now counter : Z)
    (writeFails : bool) (fs : FileSystem) :
  thirteen_digits now ->
  let name := temp_name now counter in
  is_audio_temp name = true /\
  stamped name /\
  timestamp name = now /\
  _saveWavToTempFile cacheDirectory now writeFails counter fs =
    (if writeFails
     then (counter + 1, fs, Throw PlatformError,
           [Error "Error saving WAV to temp file:"])
     else (counter + 1,
           mkFS (if existsb (String.eqb name) (entries fs)
                 then entries fs else entries fs ++ [name])
             (readFails fs) (deleteFails fs),
           Normal (cacheDirectory ++ name)%string, [])) /\
  (forall later counter',
     thirteen_digits later -> now < later ->
     String.leb (temp_name later counter') name = false).
Proof.
  intros Hnow name. subst name.
  split; [apply temp_name_audio|].
  split; [apply temp_name_stamped; exact Hnow|].
  split; [apply temp_name_timestamp; destruct Hnow; lia|].
  split; [unfold _saveWavToTempFile, writeAsStringAsync;
          destruct writeFails; reflexivity|].
  intros later counter' Hlater Hlt.
  destruct (String.leb (temp_name later counter') (temp_name now counter))
    eqn:E; [|reflexivity].
  exfalso.
  pose proof (stamped_order _ _ (temp_name_stamped later counter' Hlater)
                (temp_name_stamped now counter Hnow) E) as Hord.
  rewrite !temp_name_timestamp in Hord by (destruct Hnow, Hlater; lia).
  lia.
Qed.

Lemma temp_name_inj (now now' counter counter' : Z) :
  0 <= now -> 0 <= now' -> 0 <= counter -> 0 <= counter' ->
  temp_name now counter = temp_name now' counter' ->
  now = now' /\ counter = counter'.
Proof.
  intros Hn Hn' Hc Hc' H.
  assert (Hnow : now = now').
  { rewrite <- (temp_name_timestamp now counter Hn),
      <- (temp_name_timestamp now' counter' Hn'), H. reflexivity. }
  subst now'. split; [reflexivity|].
  unfold temp_name in H.
  apply (append_cancel "audio_") in H.
  apply append_cancel in H.
  apply (append_cancel "_") in H.
  apply toString_inj; [exact Hc | exact Hc' |].
  rewrite <- (take_digits_app (Number_toString counter) "." "wav")
    by (try apply toString_digits; auto).
  rewrite <- (take_digits_app (Number_toString counter') "." "wav")
    by (try apply toString_digits; auto).
  f_equal. exact H.
Qed.

(** Two saves never write to the same file: the name determines both the
    clock value and the counter, and the counter is different at every
    save. *)
Theorem saved_names_differ (now now' counter counter' : Z) :
  0 <= now -> 0 <= now' -> 0 <= counter -> 0 <= counter' ->
  now <> now' \/ counter <> counter' ->
  temp_name now counter <> temp_name now' counter'.
Proof.
  intros Hn Hn' Hc Hc' Hdiff H.
  destruct (temp_name_inj now now' counter counter' Hn Hn' Hc Hc' H).
  destruct Hdiff; contradiction.
Qed.

(** ** The output router *)

Lemma last_route_snoc (calls : list Call) (c : Call) :
  last_route (calls ++ [c]) =
  match c with
  | Start flag _ _ _ | SetForceSpeakerphoneOn flag => Some flag
  | _ => last_route calls
  end.
Proof.
  induction calls as [|c0 calls IH].
  - destruct c; reflexivity.
  - cbn [app last_route]. rewrite IH.
    destruct c; reflexivity.
Qed.

Lemma set_volume_fields (throws : Call -> bool) (r : Router) :
  let r' := set_volume throws r in
  isSpeakerOn r' = isSpeakerOn r /\
  isInCallManagerInitialized r' = isInCallManagerInitialized r /\
  first_delay r' = first_delay r /\
  second_delay r' = second_delay r /\
  (requests r' = requests r \/
   (requests r' = requests r ++ [SetAudioVolume] /\
    isInCallManagerInitialized r = true)).
Proof.
  unfold set_volume.
  destruct (Platform_OS native =? "android")%string; cbn [andb];
    [|repeat split; left; reflexivity].
  destruct (isInCallManagerInitialized r) eqn:E;
    [|rewrite E; repeat split; left; reflexivity].
  destruct (throws SetAudioVolume); cbn; rewrite E;
    repeat split; right; split; reflexivity.
Qed.

Ltac router_facts :=
  unfold router_inv in *; cbn in *; rewrite ?last_route_snoc;
  intuition (auto; try congruence; try lia).

Lemma set_volume_inv (throws : Call -> bool) (r : Router) :
  router_inv r -> router_inv (set_volume throws r).
Proof.
  intros Hinv.
  destruct (set_volume_fields throws r) as (Hs & Hi & Hf & Hd & Hr).
  unfold router_inv. rewrite Hs, Hi, Hf, Hd.
  destruct Hr as [->|[-> Hinit]]; [exact Hinv|].
  rewrite last_route_snoc. router_facts.
Qed.

Lemma set_volume_starts (throws : Call -> bool) (r : Router) :
  filter is_start (requests (set_volume throws r)) =
  filter is_start (requests r).
Proof.
  destruct (set_volume_fields throws r) as (_ & _ & _ & _ & [->|[-> _]]);
    [reflexivity|].
  rewrite filter_app. cbn. apply app_nil_r.
Qed.

Ltac route_cases Hroute :=
  match type of Hroute with
  | route ?r ?e = Some _ =>
      destruct e as [contextThrows throws|throws|throws|isOn throws
                    |throws startThrows|throws];
      cbn [route] in Hroute
  end.

Lemma route_inv (r r' : Router) (e : RouterEvent) :
  router_inv r -> route r e = Some r' -> router_inv r'.
Proof.
  intros Hinv Hroute. route_cases Hroute.
  - (* configureAudio *)
    injection Hroute as <-. unfold configureAudio.
    destruct contextThrows; [exact Hinv|].
    destruct (isInCallManagerInitialized r) eqn:Hi;
      [apply set_volume_inv; exact Hinv|].
    destruct (InCallManager native) eqn:Hn; cbn [negb];
      [|apply set_volume_inv; exact Hinv].
    router_facts.
  - (* the first delay *)
    unfold first_delay_elapsed in Hroute.
    destruct (first_delay r) as [|n] eqn:Hf; [discriminate|].
    injection Hroute as <-.
    assert (Hn : InCallManager native = true)
      by (destruct Hinv as (_ & _ & H1 & _); apply H1; lia).
    rewrite Hn. cbn [negb orb].
    destruct (typeof_start native) eqn:Hst; cbn [negb].
    + match goal with |- context [throws ?c] => destruct (throws c) end;
        [apply set_volume_inv|]; router_facts.
    + apply set_volume_inv. router_facts.
  - (* the second delay *)
    unfold second_delay_elapsed in Hroute.
    destruct (second_delay r) as [|n] eqn:Hd; [discriminate|].
    injection Hroute as <-.
    assert (Hn : InCallManager native = true /\ typeof_start native = true)
      by (destruct Hinv as (_ & _ & _ & H2 & _); apply H2; left; lia).
    destruct Hn as [Hn Hst]. rewrite Hn. cbn [andb].
    destruct (typeof_setForceSpeakerphoneOn native).
    + match goal with |- context [throws ?c] => destruct (throws c) end;
        apply set_volume_inv; router_facts.
    + apply set_volume_inv. router_facts.
  - (* toggleSpeakerMode *)
    injection Hroute as <-. unfold toggleSpeakerMode.
    destruct (isInCallManagerInitialized r) eqn:Hi; cbn [andb];
      [|router_facts].
    destruct (InCallManager native) eqn:Hn; cbn [andb]; [|router_facts].
    destruct (typeof_setForceSpeakerphoneOn native); router_facts.
  - (* _playSoundObject *)
    injection Hroute as <-. unfold _playSoundObject.
    assert (Hsame : forall r0,
              router_inv r0 ->
              router_inv
                (fst (if startThrows
                      then (notice
                              [Error "AudioOutputService: Error playing sound:"]
                              r0, false)
                      else (r0, true)))).
    { intros r0 H0. destruct startThrows; exact H0. }
    apply Hsame.
    destruct (isInCallManagerInitialized r) eqn:Hi; cbn [andb];
      [|exact Hinv].
    destruct (InCallManager native) eqn:Hn; cbn [andb]; [|exact Hinv].
    destruct (typeof_setForceSpeakerphoneOn native); [|exact Hinv].
    match goal with |- context [throws ?c] => destruct (throws c) end;
      router_facts.
  - (* cleanupAudioResources *)
    injection Hroute as <-. unfold stop_manager.
    destruct AEC_ENABLED; cbn [negb]; [exact Hinv|].
    destruct (InCallManager native) eqn:Hn; [|router_facts].
    destruct (throws Stop); router_facts.
Qed.

Lemma route_all_inv (events : list RouterEvent) (r r' : Router) :
  router_inv r -> route_all r events = Some r' -> router_inv r'.
Proof.
  revert r. induction events as [|e events IH]; intros r Hinv Hrun.
  - injection Hrun as <-. exact Hinv.
  - cbn [route_all] in Hrun.
    destruct (route r e) as [r1|] eqn:E; [|discriminate].
    eapply IH; [|exact Hrun]. eapply route_inv; eassumption.
Qed.

Lemma router_initial_inv : router_inv router_initial.
Proof.
  unfold router_initial. router_facts.
Qed.

(** Whatever happens, the last speaker setting sent to the manager is the
    value of [isSpeakerOn]. The speaker is never off before the manager is
    initialized, and the manager is never initialized, nor any call made
    on it, unless the module is there; so where [toggleSpeakerMode] and
    [_playSoundObject] find it initialized they also find it present. *)
Theorem last_route_is_speaker_flag (events : list RouterEvent) (r : Router) :
  route_all router_initial events = Some r ->
  (last_route (requests r) = None \/
   last_route (requests r) = Some (isSpeakerOn r)) /\
  (isSpeakerOn r = false -> isInCallManagerInitialized r = true) /\
  (isInCallManagerInitialized r = true ->
   InCallManager native = true /\ typeof_start native = true) /\
  (requests r <> [] -> InCallManager native = true).
Proof.
  intros Hrun.
  destruct (route_all_inv events router_initial r router_initial_inv Hrun)
    as (Hlast & Hoff & _ & H2 & Hreq).
  split; [exact Hlast|]. split; [exact Hoff|]. split; [|exact Hreq].
  intros Hi. apply H2. right. exact Hi.
Qed.

Ltac settle :=
  unfold settled;
  cbn [isSpeakerOn isInCallManagerInitialized first_delay second_delay
       requests notices request notice set_isSpeakerOn
       set_isInCallManagerInitialized set_first_delay set_second_delay fst];
  rewrite ?filter_app; cbn [filter is_start]; rewrite ?app_nil_r;
  repeat match goal with |- _ /\ _ => split end; auto.

Lemma set_volume_settled (throws : Call -> bool) (r0 r : Router) :
  settled r /\ filter is_start (requests r) = filter is_start (requests r0) ->
  settled (set_volume throws r) /\
  filter is_start (requests (set_volume throws r)) =
  filter is_start (requests r0).
Proof.
  intros [[Hi Hf] Hst].
  destruct (set_volume_fields throws r) as (_ & Hi' & Hf' & _).
  rewrite set_volume_starts. unfold settled. rewrite Hi', Hf'. auto.
Qed.

Lemma route_settled (r r' : Router) (e : RouterEvent) :
  settled r -> route r e = Some r' ->
  settled r' /\
  filter is_start (requests r') = filter is_start (requests r).
Proof.
  intros [Hi Hf] Hroute. route_cases Hroute.
  - injection Hroute as <-. unfold configureAudio.
    destruct contextThrows; [settle|].
    rewrite Hi. apply set_volume_settled. settle.
  - unfold first_delay_elapsed in Hroute. rewrite Hf in Hroute.
    discriminate Hroute.
  - unfold second_delay_elapsed in Hroute.
    destruct (second_delay r) as [|n]; [discriminate|].
    injection Hroute as <-.
    destruct (InCallManager native && typeof_setForceSpeakerphoneOn native).
    + match goal with |- context [throws ?c] => destruct (throws c) end;
        apply set_volume_settled; settle.
    + apply set_volume_settled. settle.
  - injection Hroute as <-. unfold toggleSpeakerMode. rewrite Hi.
    cbn [andb].
    destruct (InCallManager native && typeof_setForceSpeakerphoneOn native);
      settle.
  - injection Hroute as <-. unfold _playSoundObject. rewrite Hi.
    cbn [andb].
    destruct (InCallManager native && typeof_setForceSpeakerphoneOn native).
    + match goal with |- context [throws ?c] => destruct (throws c) end;
        destruct startThrows; settle.
    + destruct startThrows; settle.
  - injection Hroute as <-. unfold stop_manager.
    destruct AEC_ENABLED; cbn [negb]; [settle|].
    destruct (InCallManager native); [|settle].
    destruct (throws Stop); settle.
Qed.

(** Once the manager is initialized and no earlier call is still waiting
    to start it, it is never started again, whatever follows: the flag
    [isInCallManagerInitialized] is never reset, not even when
    [cleanupAudioResources] stops the manager, so every later
    [configureAudio] skips the start while [toggleSpeakerMode] and
    [_playSoundObject] go on sending it speaker settings. *)
Theorem manager_never_restarted (events : list RouterEvent) (r r' : Router) :
  isInCallManagerInitialized r = true ->
  first_delay r = 0%nat ->
  route_all r events = Some r' ->
  isInCallManagerInitialized r' = true /\
  first_delay r' = 0%nat /\
  filter is_start (requests r') = filter is_start (requests r).
Proof.
  intros Hi Hf. assert (Hs : settled r) by (split; assumption).
  clear Hi Hf. revert r Hs.
  induction events as [|e events IH]; intros r Hs Hrun.
  - injection Hrun as <-. destruct Hs. repeat split; auto.
  - cbn [route_all] in Hrun.
    destruct (route r e) as [r1|] eqn:E; [|discriminate].
    destruct (route_settled r r1 e Hs E) as [Hs1 Hst].
    destruct (IH r1 Hs1 Hrun) as (Hi' & Hf' & Hst').
    repeat split; auto. congruence.
Qed.

Lemma configure_waits (k : nat) (r : Router) :
  isInCallManagerInitialized r = false ->
  InCallManager native = true ->
  route_all r (repeat (ConfigureAudio false quiet) k) =
  Some (set_first_delay (k + first_delay r) r).
Proof.
  intros Hi Hn. revert r Hi.
  induction k as [|k IH]; intros r Hi.
  - destruct r; reflexivity.
  - cbn [repeat route_all route]. unfold configureAudio.
    rewrite Hi, Hn. cbn [negb].
    rewrite IH by exact Hi. unfold set_first_delay. cbn.
    rewrite Nat.add_succ_r. reflexivity.
Qed.

Lemma first_delays_start (k : nat) (r : Router) :
  InCallManager native = true ->
  typeof_start native = true ->
  first_delay r = k ->
  route_all r (repeat (FirstDelayElapsed quiet) k) =
  Some (mkRouter (isSpeakerOn r) (isInCallManagerInitialized r) 0
          (k + second_delay r)
          (requests r ++
           repeat (Start (isSpeakerOn r) AEC_ENABLED AGC_ENABLED NS_ENABLED) k)
          (notices r)).
Proof.
  intros Hn Hst. revert r.
  induction k as [|k IH]; intros r Hf.
  - cbn. rewrite app_nil_r. destruct r; cbn in *. subst. reflexivity.
  - cbn [repeat route_all route]. unfold first_delay_elapsed.
    rewrite Hf, Hn, Hst. cbn [negb orb quiet].
    rewrite IH by reflexivity. cbn.
    rewrite Nat.add_succ_r, <- app_assoc. reflexivity.
Qed.

(** [initializeInCallManager] does not notice a call of itself that is
    under way: when [configureAudio] is called [k] times before the first
    of the calls has passed its first delay (the module calls it when it
    loads, and [playAudioChunk] at every chunk), the manager is started
    [k] times, and all [k] calls go on to the second delay. *)
Theorem concurrent_configures_start_each (k : nat) :
  InCallManager native = true ->
  typeof_start native = true ->
  exists r,
    route_all router_initial
      (repeat (ConfigureAudio false quiet) k
       ++ repeat (FirstDelayElapsed quiet) k) = Some r /\
    requests r = repeat (Start true AEC_ENABLED AGC_ENABLED NS_ENABLED) k /\
    second_delay r = k /\
    isInCallManagerInitialized r = false.
Proof.
  intros Hn Hst.
  assert (Happ : forall ev1 ev2 r0 r1,
            route_all r0 ev1 = Some r1 ->
            route_all r0 (ev1 ++ ev2) = route_all r1 ev2).
  { induction ev1 as [|e ev1 IH]; intros ev2 r0 r1 H.
    - injection H as <-. reflexivity.
    - cbn [app route_all] in *. destruct (route r0 e); [|discriminate].
      apply IH. exact H. }
  eexists. split.
  - rewrite (Happ _ _ _ _ (configure_waits k router_initial eq_refl Hn)).
    apply first_delays_start; [exact Hn | exact Hst|]. cbn. lia.
  - cbn. repeat split; lia.
Qed.

(** [cleanupAudioResources] resets [isPlaying] and stops nothing that
    plays: the next call of [_processQueue] (at the next flush, or when the
    running render ends) starts decoding the head of the queue whatever is
    still in flight, which stays in flight beside it. *)
Theorem cleanup_lets_next_item_start (throws : Call -> bool) (r : Router)
    (s : State) (item : jsval) (rest : list jsval) (wav : Buffer) :
  audioQueue s = item :: rest ->
  build item = inl wav ->
  let s' := _processQueue (snd (cleanupAudioResources throws (r, s))) in
  isPlaying s' = true /\
  audioQueue s' = rest /\
  decoding s' = decoding s ++ [wav] /\
  rendering s' = rendering s /\
  bufferAggregator s' = bufferAggregator s /\
  timers s' = timers s.
Proof.
  intros Hq Hb. unfold cleanupAudioResources, _processQueue. cbn.
  rewrite Hq. cbn [drain]. rewrite Hb. cbn. repeat split; reflexivity.
Qed.

(* ================================================================== *)
(** ** One window, one flush *)

(** A chunk that does not fill the window leaves the queue alone. *)
Lemma submit_same_queue (chunk : jsval) (s : State) :
  truthy chunk = true ->
  (S (length (bufferAggregator s)) < BUFFER_CHUNK_THRESHOLD)%nat ->
  isPlaying (playAudioChunk chunk s) = isPlaying s /\
  audioQueue (playAudioChunk chunk s) = audioQueue s /\
  decoding (playAudioChunk chunk s) = decoding s.
Proof.
  intros Htr Hlen. rewrite playAudioChunk_unfold by assumption. cbv zeta.
  rewrite length_app. cbn [length]. rewrite Nat.add_1_r.
  destruct (BUFFER_CHUNK_THRESHOLD <=? S (length (bufferAggregator s)))%nat
    eqn:E; [apply Nat.leb_le in E; lia|].
  destruct (S (length (bufferAggregator s)) =? 1)%nat;
    repeat split; reflexivity.
Qed.

(** The chunk that fills the window flushes it. *)
Lemma submit_flushes (chunk : jsval) (s : State) :
  truthy chunk = true ->
  (1 < S (length (bufferAggregator s)))%nat ->
  (BUFFER_CHUNK_THRESHOLD <= S (length (bufferAggregator s)))%nat ->
  playAudioChunk chunk s =
  _processBufferedChunks
    (set_bufferAggregator (bufferAggregator s ++ [chunk]) s).
Proof.
  intros Htr H1 Hlen. rewrite playAudioChunk_unfold by assumption. cbv zeta.
  rewrite length_app. cbn [length]. rewrite Nat.add_1_r.
  destruct (S (length (bufferAggregator s)) =? 1)%nat eqn:E;
    [apply Nat.eqb_eq in E; lia|].
  apply Nat.leb_le in Hlen. rewrite Hlen. reflexivity.
Qed.

(** A flush of well-formed chunks pushes the merged item on the queue and
    calls [_processQueue]. *)
Lemma flush_enqueued (s x : State) (chunks : list jsval) :
  isPlaying x = isPlaying s -> audioQueue x = audioQueue s ->
  decoding x = decoding s ->
  bufferAggregator x = chunks -> chunks <> [] -> Forall well_formed chunks ->
  enqueued (merged_item chunks) s (_processBufferedChunks x).
Proof.
  intros Hp Hq Hd Ha Hne Hwf.
  destruct (cancel_timer_queue x) as (Hp' & Hq' & Hd' & _ & _ & Ha').
  assert (Hc : _combineAudioChunks chunks =
               (Some (mkCombined (concat (map payload_bytes chunks))
                        (window_rate chunks OUTPUT_SAMPLE_RATE)), [])).
  { rewrite combine_spec; [| exact Hne |].
    - rewrite well_formed_contributions by assumption. reflexivity.
    - eapply Forall_impl; [|exact Hwf]. apply well_formed_mime_ok. }
  unfold _processBufferedChunks. cbv zeta. rewrite Ha', Ha.
  destruct chunks as [|c chunks]; [contradiction|].
  rewrite Hc. fold (merged_item (c :: chunks)).
  match goal with |- enqueued _ _ (_processQueue ?y) => set (s0 := y) end.
  assert (Hp0 : isPlaying s0 = isPlaying s) by (cbn; congruence).
  assert (Hq0 : audioQueue s0 = audioQueue s ++ [merged_item (c :: chunks)])
    by (cbn; congruence).
  assert (Hd0 : decoding s0 = decoding s) by (cbn; congruence).
  clearbody s0. unfold enqueued. split; [|split].
  - intros Hplay. unfold _processQueue. rewrite Hp0, Hplay.
    rewrite Hp0, Hq0, Hd0. auto.
  - intros Hidle Hempty wav Hb. unfold _processQueue.
    rewrite Hp0, Hidle, Hq0, Hempty. cbn [app drain]. rewrite Hb. cbn.
    rewrite Hd0. auto.
  - rewrite <- Hq0. apply processQueue_suffix.
Qed.

(** Well-formed chunks, as many as the threshold at most, that enter an
    empty window one after the other are flushed exactly once (by the last
    of them when they reach the threshold, by the deadline otherwise); the
    merged item carries the concatenation of their payloads in that order
    and goes on the queue. *)
Lemma window_flush (s : State) (chunks : list jsval) :
  window_inv s ->
  bufferAggregator s = [] ->
  chunks <> [] ->
  (length chunks <= BUFFER_CHUNK_THRESHOLD)%nat ->
  Forall well_formed chunks ->
  exists s',
    run s (map Submit chunks
           ++ if (length chunks <? BUFFER_CHUNK_THRESHOLD)%nat
              then [TimerFired (nextTimer s)] else []) = Some s' /\
    flushes s' = flushes s ++ [mkFlush chunks (Some (merged_item chunks))] /\
    bufferAggregator s' = [] /\
    (forall t, step s' (TimerFired t) = None) /\
    enqueued (merged_item chunks) s s'.
Proof.
  intros Hinv Hagg Hne Hlen Hwf.
  unfold BUFFER_CHUNK_THRESHOLD in *.
  pose proof (flush_of_well_formed chunks Hne Hwf) as Hflush.
  fold (merged_item chunks) in Hflush.
  pose proof (fun x Hp Hq Hd Ha =>
                flush_enqueued s x chunks Hp Hq Hd Ha Hne Hwf) as Hpush.
  set (item := merged_item chunks) in *. clearbody item.
  destruct chunks as [|c1 [|c2 [|c3 [|c4 rest]]]];
    [contradiction | | | | cbn in Hlen; lia];
    cbn [map app length Nat.ltb Nat.leb]; rewrite !run_submit.
  - (* one chunk, then the deadline *)
    inversion Hwf as [|? ? H1 _]; subst.
    apply well_formed_truthy in H1.
    destruct (submit_first c1 s Hinv H1 Hagg) as (Ha & Hb & Hc & Hf).
    destruct (submit_same_queue c1 s H1) as (Sp & Sq & Sd);
      [rewrite Hagg; unfold BUFFER_CHUNK_THRESHOLD; cbn; lia|].
    assert (Hinv1 : window_inv (playAudioChunk c1 s))
      by (apply playAudioChunk_inv; exact Hinv).
    destruct (deadline_flush _ _ Hinv1 Hb)
      as (s' & Hs & Hf' & Ha' & _ & _ & Hno).
    exists s'. rewrite (run_last _ _ _ Hs).
    rewrite Hf', Hf, Ha, Hflush.
    split; [reflexivity|]. split; [reflexivity|]. split; [exact Ha'|].
    split; [exact Hno|].
    cbn [step] in Hs. destruct (existsb _ _); [|discriminate].
    injection Hs as <-. apply Hpush; auto.
  - (* two chunks, then the deadline *)
    inversion Hwf as [|? ? H1 Hwf']; subst.
    inversion Hwf' as [|? ? H2 _]; subst.
    apply well_formed_truthy in H1, H2.
    destruct (submit_first c1 s Hinv H1 Hagg) as (Ha & Hb & Hc & Hf).
    destruct (submit_same_queue c1 s H1) as (Sp & Sq & Sd);
      [rewrite Hagg; unfold BUFFER_CHUNK_THRESHOLD; cbn; lia|].
    assert (Hinv1 : window_inv (playAudioChunk c1 s))
      by (apply playAudioChunk_inv; exact Hinv).
    assert (Hinv2 : window_inv (playAudioChunk c2 (playAudioChunk c1 s)))
      by (apply playAudioChunk_inv; exact Hinv1).
    assert (Hs2 : playAudioChunk c2 (playAudioChunk c1 s) =
                  set_bufferAggregator [c1; c2] (playAudioChunk c1 s)).
    { rewrite submit_waits by (rewrite ?Ha; auto). rewrite Ha. reflexivity. }
    assert (Hb2 : bufferTimer (playAudioChunk c2 (playAudioChunk c1 s))
                  = Some (nextTimer s)) by (rewrite Hs2; exact Hb).
    destruct (deadline_flush _ _ Hinv2 Hb2)
      as (s' & Hs & Hf' & Ha' & _ & _ & Hno).
    exists s'. rewrite (run_last _ _ _ Hs).
    rewrite Hf', Hs2. cbn [flushes bufferAggregator set_bufferAggregator].
    rewrite Hf, Hflush.
    split; [reflexivity|]. split; [reflexivity|]. split; [exact Ha'|].
    split; [exact Hno|].
    cbn [step] in Hs. destruct (existsb _ _); [|discriminate].
    injection Hs as <-. rewrite Hs2. apply Hpush; auto.
  - (* three chunks: the threshold *)
    inversion Hwf as [|? ? H1 Hwf']; subst.
    inversion Hwf' as [|? ? H2 Hwf'']; subst.
    inversion Hwf'' as [|? ? H3 _]; subst.
    apply well_formed_truthy in H1, H2, H3.
    destruct (submit_first c1 s Hinv H1 Hagg) as (Ha & Hb & Hc & Hf).
    destruct (submit_same_queue c1 s H1) as (Sp & Sq & Sd);
      [rewrite Hagg; unfold BUFFER_CHUNK_THRESHOLD; cbn; lia|].
    assert (Hinv1 : window_inv (playAudioChunk c1 s))
      by (apply playAudioChunk_inv; exact Hinv).
    assert (Hinv2 : window_inv (playAudioChunk c2 (playAudioChunk c1 s)))
      by (apply playAudioChunk_inv; exact Hinv1).
    assert (Hs2 : playAudioChunk c2 (playAudioChunk c1 s) =
                  set_bufferAggregator [c1; c2] (playAudioChunk c1 s)).
    { rewrite submit_waits by (rewrite ?Ha; auto). rewrite Ha. reflexivity. }
    assert (Hlen2 : S (length (bufferAggregator
                       (playAudioChunk c2 (playAudioChunk c1 s)))) = 3%nat)
      by (rewrite Hs2; reflexivity).
    destruct (submit_threshold c3 _ Hinv2 H3 Hlen2)
      as (Hf3 & Ha3 & _ & _ & Hno).
    eexists. split; [reflexivity|].
    rewrite Hf3, Ha3. rewrite Hs2 at 1 2.
    cbn [flushes bufferAggregator set_bufferAggregator app].
    rewrite Hf, Hflush.
    split; [reflexivity|]. split; [reflexivity|]. split; [exact Hno|].
    rewrite submit_flushes by (rewrite ?Hlen2; unfold BUFFER_CHUNK_THRESHOLD;
                               auto; lia).
    rewrite Hs2. apply Hpush; auto.
Qed.

(** *** The calls and their [await] *)

Lemma session_run_app (ev1 ev2 : list SessionEvent) (ss ss1 : Session) :
  session_run ss ev1 = Some ss1 ->
  session_run ss (ev1 ++ ev2) = session_run ss1 ev2.
Proof.
  revert ss. induction ev1 as [|e ev1 IH]; intros ss H.
  - injection H as <-. reflexivity.
  - cbn [app session_run] in *.
    destruct (session_step ss e); [|discriminate]. apply IH. exact H.
Qed.

Lemma configureAudio_suspends (contextThrows : bool) (throws : Call -> bool)
    (r : Router) :
  suspends contextThrows r = false ->
  suspends contextThrows (configureAudio contextThrows throws r) = false.
Proof.
  unfold suspends, configureAudio.
  destruct contextThrows; [reflexivity|]. cbn [negb andb].
  destruct (set_volume_fields throws r) as (_ & Hv & _).
  destruct (isInCallManagerInitialized r) eqn:Hi.
  - intros _. rewrite Hv. reflexivity.
  - cbn [negb andb]. intros Hn. rewrite Hn. cbn [negb].
    rewrite Hv. apply andb_false_r.
Qed.

(** While [configureAudio] does not have to wait, calls of
    [playAudioChunk] push in the order they are made. *)
Lemma plays_push_in_order (contextThrows : bool) (throws : Call -> bool)
    (chunks : list jsval) :
  Forall (fun c => truthy c = true) chunks ->
  forall (ss : Session) (s' : State),
    suspends contextThrows (router ss) = false ->
    run (playback ss) (map Submit chunks) = Some s' ->
    exists r',
      session_run ss (map (fun c => Play c contextThrows throws) chunks) =
      Some (mkSession r' s' (at_first_delay ss) (at_second_delay ss)) /\
      suspends contextThrows r' = false.
Proof.
  induction 1 as [|c chunks Hc _ IH]; intros ss s' Hs Hrun.
  - cbn in *. injection Hrun as <-. exists (router ss). destruct ss.
    split; [reflexivity | exact Hs].
  - cbn [map run step session_run session_step] in *.
    rewrite Hc. unfold enter. rewrite Hs. cbn [resume].
    destruct (IH (mkSession (configureAudio contextThrows throws (router ss))
                    (playAudioChunk c (playback ss))
                    (at_first_delay ss) (at_second_delay ss)) s')
      as (r' & Hr & Hs'); [apply configureAudio_suspends; exact Hs
                          | exact Hrun |].
    exists r'. split; [exact Hr | exact Hs'].
Qed.


End Pipeline.

(* ================================================================== *)
(** * The properties at sample inputs *)

Lemma wav_container_layout_witness :
  fits_header (Z.of_nat (length sample_pcm)) 24000 1 16 /\
  exists wav,
    _createWavFromPcm sample_pcm 24000 1 16 = Normal wav /\
    skipn 44 wav = sample_pcm /\
    readUInt32LE wav 24 = 24000 /\
    readUInt32LE wav 28 = 48000 /\
    readUInt32LE wav 40 = 4.
Proof.
  assert (H : fits_header (Z.of_nat (length sample_pcm)) 24000 1 16)
    by (unfold fits_header; cbn; lia).
  split; [exact H|].
  destruct (wav_container_layout sample_pcm 24000 1 16 H)
    as (wav & E & _ & P & _ & _ & _ & _ & _ & _ & _ & R & B & _ & _ & _ & L).
  exists wav. repeat split; assumption.
Defined.


Lemma window_flushed_once_witness :
  exists s,
    run base64_bytes initial [Submit raw_chunk; Submit text_chunk] = Some s /\
    window_inv s /\
    bufferAggregator s = [raw_chunk; text_chunk] /\
    timers s = [1%positive] /\
    (exists s',
       step base64_bytes s (TimerFired 1) = Some s' /\
       flushes s' = [flush_of base64_bytes [raw_chunk; text_chunk]] /\
       timers s' = []).
Proof.
  eexists. split; [vm_compute; reflexivity|].
  match goal with |- window_inv ?s /\ _ =>
    destruct (window_flushed_once base64_bytes
                [Submit raw_chunk; Submit text_chunk] s eq_refl)
      as (Hinv & _ & _ & _ & Hdeadline)
  end.
  split; [exact Hinv|]. split; [reflexivity|]. split; [reflexivity|].
  destruct (Hdeadline 1%positive eq_refl) as (s' & Hs & Hf & _ & _ & Ht & _).
  exists s'. repeat split; assumption.
Defined.

Lemma containers_mono_16bit_witness :
  exists s wav,
    run base64_bytes initial
      [Submit raw_chunk; Submit tagged_chunk; Submit text_chunk] = Some s /\
    decoding s = [wav] /\
    readUInt16LE wav 22 = 1 /\ readUInt16LE wav 34 = 16.
Proof.
  eexists. eexists. split; [vm_compute; reflexivity|].
  split; [reflexivity|].
  refine (proj1 (containers_mono_16bit base64_bytes
                   [Submit raw_chunk; Submit tagged_chunk; Submit text_chunk]
                   _ eq_refl) _ _).
  left. reflexivity.
Defined.

Lemma window_rate_last_wins_witness :
  [raw_chunk; tagged_chunk; text_chunk] <> [] /\
  Forall (fun c => mime_ok c = true) [raw_chunk; tagged_chunk; text_chunk] /\
  exists combined,
    _combineAudioChunks base64_bytes [raw_chunk; tagged_chunk; text_chunk]
      = (Some combined, []) /\
    sampleRate combined = 16000 /\
    exists wav,
      build base64_bytes (combinedChunk combined) = inl wav /\
      readUInt32LE wav 24 = 16000.
Proof.
  assert (Hne : [raw_chunk; tagged_chunk; text_chunk] <> []) by discriminate.
  assert (Hok : Forall (fun c => mime_ok c = true)
                  [raw_chunk; tagged_chunk; text_chunk])
    by (repeat constructor).
  split; [exact Hne|]. split; [exact Hok|].
  destruct (window_rate_last_wins base64_bytes _ Hne Hok)
    as (combined & Hc & Hlast & _ & Hbuild).
  exists combined. split; [exact Hc|].
  assert (Hr : sampleRate combined = 16000).
  { apply (Hlast [raw_chunk] tagged_chunk [text_chunk] 16000);
      [reflexivity | reflexivity | repeat constructor]. }
  split; [exact Hr|].
  assert (Hd : data combined = [x01; x02; x03; x04; x05; x06; x41; x42; x43]).
  { vm_compute in Hc. injection Hc as <-. reflexivity. }
  destruct Hbuild as (wav & Hb & _ & Hrate).
  { rewrite Hr, Hd.
    unfold fits_header, effective_rate, OUTPUT_CHANNELS,
      OUTPUT_BITS_PER_SAMPLE. cbn. lia. }
  exists wav. split; [exact Hb|]. rewrite Hrate, Hr. reflexivity.
Defined.

Lemma unsupported_chunk_dropped_witness :
  unsupported (JNum 5) = true /\
  [raw_chunk] ++ [text_chunk] <> [] /\
  _combineAudioChunks base64_bytes ([raw_chunk] ++ JNum 5 :: [text_chunk]) =
  (Some (mkCombined [x01; x02; x03; x04; x41; x42; x43] 24000), []).
Proof.
  assert (Hne : [raw_chunk] ++ [text_chunk] <> []) by discriminate.
  split; [reflexivity|]. split; [exact Hne|].
  destruct (unsupported_chunk_dropped base64_bytes [raw_chunk] [text_chunk]
              (JNum 5) eq_refl Hne) as [_ H].
  rewrite H; [reflexivity|].
  repeat constructor; unfold well_formed; cbn; discriminate.
Defined.

Lemma failure_advances_queue_witness :
  build base64_bytes (JNum 7) =
    inr [Error "AudioOutputService: Unsupported audio data format"] /\
  _processQueue base64_bytes sample_queue =
    _processQueue base64_bytes
      (log [Error "AudioOutputService: Unsupported audio data format"]
         (set_audioQueue [raw_chunk] sample_queue)) /\
  isPlaying (onended base64_bytes sample_queue) = true /\
  length (decoding (onended base64_bytes sample_queue)) = 1%nat.
Proof.
  destruct (failure_advances_queue base64_bytes sample_queue)
    as (_ & _ & _ & Hgive & Hnext).
  split; [reflexivity|].
  split; [apply (Hgive (JNum 7) [raw_chunk]); reflexivity|].
  destruct Hnext as [(Hidle & _)|(Hplay & sk & it & wav & _ & _ & _ & Hd)].
  - vm_compute in Hidle. discriminate Hidle.
  - split; [exact Hplay|]. rewrite Hd. reflexivity.
Defined.

Lemma sweep_keeps_five_newest_witness :
  NoDup (entries sample_fs) /\
  exists fs',
    cleanupTempFiles sample_fs = (fs', Normal tt, []) /\
    kept sample_fs =
      ["audio_1700000000009_7.wav"; "audio_1700000000007_6.wav";
       "audio_1700000000006_5.wav"; "audio_1700000000005_4.wav";
       "audio_1700000000004_3.wav"] /\
    (forall n, In n (entries fs') <->
               In n (entries sample_fs) /\
               (is_audio_temp n = false \/ In n (kept sample_fs))).
Proof.
  assert (Hnd : NoDup (entries sample_fs)).
  { cbn. repeat (constructor; [cbn; intuition discriminate|]). constructor. }
  split; [exact Hnd|].
  destruct (proj2 (sweep_keeps_five_newest sample_fs) eq_refl
              (fun _ => eq_refl) Hnd) as (fs' & Hrun & Hin & _).
  exists fs'. split; [exact Hrun|]. split; [reflexivity | exact Hin].
Defined.

(* ================================================================== *)
(** * Where the code departs from the specification *)


(** C6 as stated fails on a declared rate of 0: every chunk of the window
    carries the annotation [rate=0], and the container is built with
    24000. *)
Lemma zero_rate_builds_default :
  annotation zero_rate_chunk = Some 0 /\
  exists s wav,
    run base64_bytes initial
      [Submit zero_rate_chunk; Submit zero_rate_chunk; Submit zero_rate_chunk]
      = Some s /\
    decoding s = [wav] /\
    readUInt32LE wav 24 = 24000 /\
    readUInt32LE wav 24 <> 0.
Proof.
  split; [reflexivity|].
  eexists. eexists. split; [vm_compute; reflexivity|].
  split; [reflexivity|]. split; [reflexivity|]. discriminate.
Defined.

(** C8 as stated fails on the warning: a window with a chunk of
    unsupported shape is merged and nothing at all is printed, neither by
    the merge nor anywhere on the way from submission to the queue. *)
Lemma unsupported_chunk_not_warned :
  unsupported (JNum 5) = true /\
  snd (_combineAudioChunks base64_bytes [raw_chunk; JNum 5; text_chunk]) = [] /\
  exists s,
    run base64_bytes initial
      [Submit raw_chunk; Submit (JNum 5); Submit text_chunk] = Some s /\
    bufferAggregator s = [] /\
    console s = [] /\
    ~ exists msg, In (Warn msg) (console s).
Proof.
  split; [reflexivity|]. split; [reflexivity|].
  eexists. split; [vm_compute; reflexivity|].
  split; [reflexivity|]. split; [reflexivity|].
  intros [msg []].
Defined.

(* ================================================================== *)
(** * The further properties at sample inputs *)

Lemma containers_coherent_witness :
  exists s wav,
    run base64_bytes initial
      [Submit raw_chunk; Submit tagged_chunk; Submit text_chunk] = Some s /\
    decoding s = [wav] /\
    coherent wav.
Proof.
  destruct (run base64_bytes initial
              [Submit raw_chunk; Submit tagged_chunk; Submit text_chunk])
    as [s|] eqn:Hrun; [|vm_compute in Hrun; discriminate Hrun].
  assert (Hd : exists wav, decoding s = [wav]).
  { vm_compute in Hrun. injection Hrun as <-. eexists. reflexivity. }
  destruct Hd as [wav Hd].
  exists s, wav. split; [reflexivity|]. split; [exact Hd|].
  apply (containers_coherent base64_bytes _ s wav Hrun).
  unfold in_flight. rewrite Hd. left. reflexivity.
Defined.

Lemma type_error_loses_window_witness :
  tagged_audio numeric_mime_chunk = true /\
  bad_mime (get numeric_mime_chunk "mimeType") = true /\
  audioQueue (_processBufferedChunks base64_bytes poisoned_window) = [] /\
  bufferAggregator (_processBufferedChunks base64_bytes poisoned_window) = [] /\
  console (_processBufferedChunks base64_bytes poisoned_window) =
    [Error "AudioOutputService: Error combining audio chunks:"].
Proof.
  split; [reflexivity|]. split; [reflexivity|].
  destruct (type_error_loses_window base64_bytes poisoned_window
              [raw_chunk] [text_chunk] numeric_mime_chunk
              eq_refl eq_refl eq_refl)
    as (Ha & Hq & _ & _ & Hc & _).
  split; [exact Hq|]. split; [exact Ha | exact Hc].
Defined.

Lemma unsupported_window_sends_empty_container_witness :
  bufferAggregator unsupported_window <> [] /\
  forallb unsupported (bufferAggregator unsupported_window) = true /\
  exists wav,
    decoding (_processBufferedChunks base64_bytes unsupported_window) = [wav] /\
    length wav = 44%nat /\
    readUInt32LE wav 40 = 0.
Proof.
  assert (Hne : bufferAggregator unsupported_window <> []) by discriminate.
  split; [exact Hne|]. split; [reflexivity|].
  destruct (unsupported_window_sends_empty_container base64_bytes
              unsupported_window Hne eq_refl eq_refl eq_refl)
    as (wav & Hd & Hlen & _ & H40 & _).
  exists wav. split; [exact Hd|]. split; [exact Hlen | exact H40].
Defined.

Lemma flushes_take_bounded_windows_witness :
  exists s,
    run base64_bytes initial two_windows = Some s /\
    length (flushes s) = 2%nat /\
    forall f, In f (flushes s) -> window_ok f.
Proof.
  destruct (run base64_bytes initial two_windows) as [s|] eqn:Hrun;
    [|vm_compute in Hrun; discriminate Hrun].
  exists s. split; [reflexivity|]. split.
  - vm_compute in Hrun. injection Hrun as <-. reflexivity.
  - intros f Hin.
    exact (proj1 (proj2 (flushes_take_bounded_windows base64_bytes two_windows
                           s Hrun) f Hin)).
Defined.

Lemma queue_is_fifo_witness :
  exists s,
    run base64_bytes initial two_windows = Some s /\
    length (audioQueue s) = 1%nat /\
    exists earlier, pushed s = earlier ++ audioQueue s.
Proof.
  destruct (run base64_bytes initial two_windows) as [s|] eqn:Hrun;
    [|vm_compute in Hrun; discriminate Hrun].
  exists s. split; [reflexivity|]. split.
  - vm_compute in Hrun. injection Hrun as <-. reflexivity.
  - exact (proj1 (queue_is_fifo base64_bytes two_windows s Hrun)).
Defined.

Lemma queue_holds_wrappers_witness :
  exists s item,
    run base64_bytes initial two_windows = Some s /\
    audioQueue s = [item] /\
    is_wrapper item.
Proof.
  destruct (run base64_bytes initial two_windows) as [s|] eqn:Hrun;
    [|vm_compute in Hrun; discriminate Hrun].
  assert (Hq : exists item, audioQueue s = [item]).
  { vm_compute in Hrun. injection Hrun as <-. eexists. reflexivity. }
  destruct Hq as [item Hq].
  exists s, item. split; [reflexivity|]. split; [exact Hq|].
  refine (proj1 (queue_holds_wrappers base64_bytes two_windows s item Hrun _)).
  rewrite Hq. left. reflexivity.
Defined.

Lemma merge_fails_iff_poisoned_witness :
  [raw_chunk; numeric_mime_chunk; text_chunk] <> [] /\
  existsb poisoned [raw_chunk; numeric_mime_chunk; text_chunk] = true /\
  _combineAudioChunks base64_bytes [raw_chunk; numeric_mime_chunk; text_chunk]
    = (None, [Error "AudioOutputService: Error combining audio chunks:"]) /\
  existsb poisoned [raw_chunk; tagged_chunk] = false /\
  exists combined,
    _combineAudioChunks base64_bytes [raw_chunk; tagged_chunk] =
      (Some combined, []) /\
    0 <= sampleRate combined.
Proof.
  assert (Hne : [raw_chunk; numeric_mime_chunk; text_chunk] <> [])
    by discriminate.
  assert (Hne' : [raw_chunk; tagged_chunk] <> []) by discriminate.
  split; [exact Hne|]. split; [reflexivity|].
  split; [exact (proj1 (merge_fails_iff_poisoned base64_bytes _ Hne) eq_refl)|].
  split; [reflexivity|].
  exact (proj2 (merge_fails_iff_poisoned base64_bytes _ Hne') eq_refl).
Defined.

Lemma sweep_removes_only_old_files_witness :
  NoDup (entries failing_fs) /\
  exists fs',
    cleanupTempFiles failing_fs =
      (fs', Normal tt,
       [Error "AudioOutputService: Error cleaning up temp files:"]) /\
    In "notes.txt" (entries fs') /\
    In "audio_1700000000004_3.wav" (entries fs').
Proof.
  assert (Hnd : NoDup (entries failing_fs)).
  { cbn. repeat (constructor; [cbn; intuition discriminate|]). constructor. }
  split; [exact Hnd|].
  pose proof (sweep_removes_only_old_files failing_fs) as H.
  destruct (cleanupTempFiles failing_fs) as [[fs' settled] printed] eqn:E.
  destruct H as (-> & _ & _ & Hother & Hkept).
  exists fs'. split.
  - vm_compute in E. injection E as <- <-. reflexivity.
  - split.
    + apply Hother; [vm_compute; tauto | reflexivity].
    + apply (Hkept Hnd). vm_compute. tauto.
Defined.

Lemma sweep_twice_is_sweep_once_witness :
  NoDup (entries sample_fs) /\
  exists fs',
    cleanupTempFiles sample_fs = (fs', Normal tt, []) /\
    length (filter is_audio_temp (entries fs')) = 5%nat /\
    cleanupTempFiles fs' = (fs', Normal tt, []).
Proof.
  assert (Hnd : NoDup (entries sample_fs)).
  { cbn. repeat (constructor; [cbn; intuition discriminate|]). constructor. }
  split; [exact Hnd|].
  destruct (sweep_twice_is_sweep_once sample_fs eq_refl (fun _ => eq_refl) Hnd)
    as (fs' & H1 & _ & H2).
  exists fs'. split; [exact H1|]. split; [|exact H2].
  vm_compute in H1. injection H1 as <-. reflexivity.
Defined.

Lemma saved_files_rank_by_time_witness :
  thirteen_digits 1700000000005 /\
  temp_name 1700000000005 4 = "audio_1700000000005_4.wav" /\
  timestamp "audio_1700000000005_4.wav" = 1700000000005 /\
  String.leb (temp_name 1700000000009 0) "audio_1700000000005_4.wav" = false.
Proof.
  assert (H5 : thirteen_digits 1700000000005)
    by (unfold thirteen_digits; split; [discriminate | reflexivity]).
  assert (H9 : thirteen_digits 1700000000009)
    by (unfold thirteen_digits; split; [discriminate | reflexivity]).
  destruct (saved_files_rank_by_time "" 1700000000005 4 false small_fs H5)
    as (_ & _ & Ht & _ & Hord).
  split; [exact H5|]. split; [reflexivity|].
  split; [exact Ht|].
  apply (Hord 1700000000009 0 H9). reflexivity.
Defined.

Lemma saved_names_differ_witness :
  temp_name 1700000000005 4 = "audio_1700000000005_4.wav" /\
  temp_name 1700000000005 5 = "audio_1700000000005_5.wav" /\
  temp_name 1700000000005 4 <> temp_name 1700000000005 5.
Proof.
  split; [reflexivity|]. split; [reflexivity|].
  apply saved_names_differ;
    [discriminate | discriminate | discriminate | discriminate |].
  right. discriminate.
Defined.

Lemma last_route_is_speaker_flag_witness :
  exists r,
    route_all false true true android router_initial
      (start_up ++ after_cleanup) = Some r /\
    isSpeakerOn r = false /\
    last_route (requests r) = Some false /\
    isInCallManagerInitialized r = true.
Proof.
  destruct (route_all false true true android router_initial
              (start_up ++ after_cleanup)) as [r|] eqn:Hrun;
    [|vm_compute in Hrun; discriminate Hrun].
  assert (Hoff : isSpeakerOn r = false).
  { vm_compute in Hrun. injection Hrun as <-. reflexivity. }
  assert (Hreq : last_route (requests r) <> None).
  { vm_compute in Hrun. injection Hrun as <-. discriminate. }
  destruct (last_route_is_speaker_flag false true true android _ r Hrun)
    as ([Hlast|Hlast] & Hinit & _); [contradiction|].
  exists r. split; [reflexivity|]. split; [exact Hoff|].
  split; [rewrite Hlast, Hoff; reflexivity | exact (Hinit Hoff)].
Defined.

Lemma manager_never_restarted_witness :
  exists r r',
    route_all false true true android router_initial start_up = Some r /\
    route_all false true true android r after_cleanup = Some r' /\
    In Stop (requests r') /\
    filter is_start (requests r') = [Start true false true true] /\
    isInCallManagerInitialized r' = true.
Proof.
  destruct (route_all false true true android router_initial start_up)
    as [r|] eqn:Hup; [|vm_compute in Hup; discriminate Hup].
  assert (Hr : isInCallManagerInitialized r = true /\
               first_delay r = 0%nat /\
               filter is_start (requests r) = [Start true false true true]).
  { vm_compute in Hup. injection Hup as <-. repeat split; reflexivity. }
  destruct Hr as (Hi & Hf & Hst).
  destruct (route_all false true true android r after_cleanup)
    as [r'|] eqn:Hrun.
  - destruct (manager_never_restarted false true true android after_cleanup
                r r' Hi Hf Hrun) as (Hi' & _ & Hst').
    exists r, r'. split; [reflexivity|]. split; [exact Hrun|].
    split; [|split; [rewrite Hst'; exact Hst | exact Hi']].
    vm_compute in Hup. injection Hup as <-.
    vm_compute in Hrun. injection Hrun as <-.
    vm_compute. tauto.
  - exfalso. vm_compute in Hup. injection Hup as <-.
    vm_compute in Hrun. discriminate Hrun.
Defined.

Lemma concurrent_configures_start_each_witness :
  InCallManager android = true /\
  typeof_start android = true /\
  exists r,
    route_all true true true android router_initial
      [ConfigureAudio false quiet; ConfigureAudio false quiet;
       ConfigureAudio false quiet; FirstDelayElapsed quiet;
       FirstDelayElapsed quiet; FirstDelayElapsed quiet] = Some r /\
    requests r =
      [Start true true true true; Start true true true true;
       Start true true true true].
Proof.
  split; [reflexivity|]. split; [reflexivity|].
  destruct (concurrent_configures_start_each true true true android 3
              eq_refl eq_refl) as (r & Hrun & Hreq & _).
  exists r. split; [exact Hrun | exact Hreq].
Defined.

Lemma cleanup_lets_next_item_start_witness :
  exists s wav,
    run base64_bytes initial (two_windows ++ [DecodeResolved 0 true])
      = Some s /\
    length (rendering s) = 1%nat /\
    length (audioQueue s) = 1%nat /\
    let s' :=
      _processQueue base64_bytes
        (snd (cleanupAudioResources false android quiet (router_initial, s)))
    in
    decoding s' = [wav] /\
    length (rendering s') = 1%nat /\
    audioQueue s' = [].
Proof.
  destruct (run base64_bytes initial (two_windows ++ [DecodeResolved 0 true]))
    as [s|] eqn:Hrun; [|vm_compute in Hrun; discriminate Hrun].
  assert (Hs : length (rendering s) = 1%nat /\ decoding s = [] /\
               exists item wav,
                 audioQueue s = [item] /\ build base64_bytes item = inl wav).
  { vm_compute in Hrun. injection Hrun as <-.
    split; [reflexivity|]. split; [reflexivity|].
    eexists. eexists. split; [reflexivity|]. vm_compute. reflexivity. }
  destruct Hs as (Hr & Hd & item & wav & Hq & Hb).
  destruct (cleanup_lets_next_item_start base64_bytes false android quiet
              router_initial s item [] wav Hq Hb)
    as (_ & Hq' & Hd' & Hr' & _).
  exists s, wav. split; [reflexivity|]. split; [exact Hr|].
  split; [rewrite Hq; reflexivity|].
  cbv zeta. split; [rewrite Hd', Hd; reflexivity|].
  split; [rewrite Hr'; exact Hr | exact Hq'].
Defined.

Lemma single_render_without_clear_witness :
  forallb (fun e => negb (resets_playing e)) two_windows = true /\
  exists s,
    run base64_bytes initial two_windows = Some s /\
    isPlaying s = true /\
    queue_inv s.
Proof.
  split; [reflexivity|].
  destruct (run base64_bytes initial two_windows) as [s|] eqn:Hrun;
    [|vm_compute in Hrun; discriminate Hrun].
  exists s. split; [reflexivity|]. split.
  - vm_compute in Hrun. injection Hrun as <-. reflexivity.
  - exact (single_render_without_clear base64_bytes two_windows s eq_refl
             Hrun).
Defined.

Lemma enqueue_after_clear_witness :
  exists s wav,
    run base64_bytes initial one_render = Some s /\
    length (rendering s) = 1%nat /\
    build base64_bytes tagged_chunk = inl wav /\
    let s1 := clearPlaybackQueue s in
    let s2 :=
      _processQueue base64_bytes
        (set_audioQueue (audioQueue s1 ++ [tagged_chunk]) s1) in
    isPlaying s2 = true /\
    decoding s2 = decoding s ++ [wav] /\
    length (rendering s2) = 1%nat.
Proof.
  destruct (run base64_bytes initial one_render) as [s|] eqn:Hrun;
    [|vm_compute in Hrun; discriminate Hrun].
  assert (Hr : length (rendering s) = 1%nat).
  { vm_compute in Hrun. injection Hrun as <-. reflexivity. }
  destruct (build base64_bytes tagged_chunk) as [wav|entries] eqn:Hb;
    [|vm_compute in Hb; discriminate Hb].
  destruct (enqueue_after_clear base64_bytes s tagged_chunk wav Hb)
    as (Hp & _ & Hd).
  exists s, wav. split; [reflexivity|]. split; [exact Hr|].
  split; [reflexivity|]. cbv zeta.
  split; [exact Hp|]. split; [exact Hd|].
  destruct (processQueue_same_window base64_bytes
              (set_audioQueue
                 (audioQueue (clearPlaybackQueue s) ++ [tagged_chunk])
                 (clearPlaybackQueue s)))
    as (_ & _ & _ & _ & Hsame & _).
  rewrite Hsame.
  destruct (clear_fields s) as (_ & _ & _ & _ & _ & _ & _ & Hcr & _).
  cbn [rendering set_audioQueue]. rewrite Hcr. exact Hr.
Defined.
